(** * claude-retro: session reconstruction and correlation pipeline

    A shallow embedding of the core of [packages/claude-retro]:
    the issue extractor ([lib/issue-extractor.js]), the session builder
    ([lib/time-calculator.js]), the log parser ([lib/log-parser.js]), the
    schema of [src/database.js] and the per-file body of [processLogs]
    ([src/processor.js]).

    Conventions of the embedding:
    - JavaScript numbers are rationals ([Q]) where a property does not
      depend on rounding (counts, identifiers, confidences, which entries a
      session holds once the boundaries are given); numeric equality is
      [Qeq].  The gap test of the session builder does depend on rounding:
      module [TimeCalculator64] has the builder over IEEE 754 binary64
      ([Number], on the [spec_float] of the standard library).
    - JavaScript strings are [string] (bytes); [null]/[undefined] fields are
      [option].
    - A [Map] is an association list in insertion order, because
      [Array.from(map.values())] exposes that order.
    - Database tables keyed by a primary key are [gmap]s / [gset]s. *)

From Stdlib Require Import QArith Qround Lqa.
From stdpp Require Import gmap strings list fin_maps.
From Stdlib Require Import Ascii.
From Stdlib Require Import SpecFloat.

Local Open Scope string_scope.
Local Open Scope list_scope.

(* ===================================================================== *)
(** ** Regular expressions

    The patterns of the extractor are sequences of character-class
    repetitions, anchors and one capture group.  [exec_at] is the
    backtracking matcher of the JavaScript engine restricted to that
    fragment: greedy repetitions that give characters back one by one. *)
(* ===================================================================== *)
Module Regex.

Inductive atom : Type :=
  | Rep (cls : ascii -> bool) (lo : nat) (hi : option nat)  (* cls{lo,hi} *)
  | WordB                                                   (* \b *)
  | Bol                                                     (* ^  *)
  | GOpen                                                   (* (  *)
  | GClose.                                                 (* )  *)

Definition regex := list atom.

Definition code (c : ascii) : nat := nat_of_ascii c.

Definition is_upper (c : ascii) : bool := (65 <=? code c)%nat && (code c <=? 90)%nat.
Definition is_lower (c : ascii) : bool := (97 <=? code c)%nat && (code c <=? 122)%nat.
Definition is_digit (c : ascii) : bool := (48 <=? code c)%nat && (code c <=? 57)%nat.
(* \w *)
Definition is_word (c : ascii) : bool :=
  is_upper c || is_lower c || is_digit c || Ascii.eqb c "_".
(* \s restricted to the ASCII white space characters *)
Definition is_space (c : ascii) : bool :=
  ((9 <=? code c)%nat && (code c <=? 13)%nat) || Ascii.eqb c " ".

Definition to_upper (c : ascii) : ascii :=
  if is_lower c then ascii_of_nat (code c - 32) else c.
Definition to_lower (c : ascii) : ascii :=
  if is_upper c then ascii_of_nat (code c + 32) else c.

(* the [i] flag applied to a class *)
Definition icase (cls : ascii -> bool) : ascii -> bool :=
  fun c => cls c || cls (to_upper c) || cls (to_lower c).

Definition Lit (c : ascii) : atom := Rep (Ascii.eqb c) 1 (Some 1%nat).
Definition Plus (cls : ascii -> bool) : atom := Rep cls 1 None.

Definition below (n : nat) (hi : option nat) : bool :=
  match hi with
  | None => true
  | Some h => (n <? h)%nat
  end.

Definition word_opt (c : option ascii) : bool :=
  match c with
  | Some a => is_word a
  | None => false
  end.

Definition boundary (prev : option ascii) (s : list ascii) : bool :=
  xorb (word_opt prev) (word_opt (head s)).

(* positions of the capture group: (start, end) *)
Definition caps : Type := option nat * option nat.

(** [exec_at r prev s pos cap]: match [r] against the suffix [s] that starts
    at index [pos], [prev] being the character before it.  Returns the end
    index and the capture positions of the first successful alternative. *)
Fixpoint exec_at (r : regex) (prev : option ascii) (s : list ascii)
                 (pos : nat) (cap : caps) {struct r} : option (nat * caps) :=
  match r with
  | [] => Some (pos, cap)
  | WordB :: r' => if boundary prev s then exec_at r' prev s pos cap else None
  | Bol :: r' => if (pos =? 0)%nat then exec_at r' prev s pos cap else None
  | GOpen :: r' => exec_at r' prev s pos (Some pos, snd cap)
  | GClose :: r' => exec_at r' prev s pos (fst cap, Some pos)
  | Rep cls lo hi :: r' =>
      (fix rep (n : nat) (prev : option ascii) (s : list ascii) (pos : nat)
           {struct s} : option (nat * caps) :=
         let stop := if (lo <=? n)%nat then exec_at r' prev s pos cap else None in
         match s with
         | ch :: s' =>
             if cls ch && below n hi then
               match rep (S n) (Some ch) s' (S pos) with
               | Some res => Some res
               | None => stop
               end
             else stop
         | [] => stop
         end) 0%nat prev s pos
  end.

(** A match object: [m[0]] and [m[1]] ([None] when the group is absent). *)
Record rmatch : Type := { whole : list ascii; group1 : option (list ascii) }.

Definition mk_match (s : list ascii) (pos : nat) (res : nat * caps) : rmatch :=
  let '(e, (cs, ce)) := res in
  {| whole := take (e - pos) s;
     group1 := match cs, ce with
               | Some a, Some b => Some (take (b - a) (drop (a - pos) s))
               | _, _ => None
               end |}.

(** [str.match(re)] for a pattern without the [g] flag: leftmost match. *)
Fixpoint exec_from (r : regex) (prev : option ascii) (s : list ascii)
                   (pos : nat) : option rmatch :=
  match exec_at r prev s pos (None, None) with
  | Some res => Some (mk_match s pos res)
  | None =>
      match s with
      | [] => None
      | ch :: s' => exec_from r (Some ch) s' (S pos)
      end
  end.

Definition exec (r : regex) (s : string) : option rmatch :=
  exec_from r None (String.list_ascii_of_string s) 0.

(** [[...str.matchAll(re)]] for a pattern with the [g] flag: successive
    non-overlapping matches; after an empty match the search resumes one
    character further.  [skip] counts the characters consumed by the last
    match that are still to be passed over. *)
Fixpoint matchAll_from (r : regex) (prev : option ascii) (s : list ascii)
                       (pos skip : nat) : list rmatch :=
  let here := if (skip =? 0)%nat then exec_at r prev s pos (None, None) else None in
  match s with
  | [] =>
      match here with
      | Some res => [mk_match s pos res]
      | None => []
      end
  | ch :: s' =>
      match here with
      | Some res =>
          mk_match s pos res :: matchAll_from r (Some ch) s' (S pos) (pred (fst res - pos))
      | None => matchAll_from r (Some ch) s' (S pos) (pred skip)
      end
  end.

Definition matchAll (r : regex) (s : string) : list rmatch :=
  matchAll_from r None (String.list_ascii_of_string s) 0 0.

(* String.prototype.toUpperCase on ASCII text *)
Definition toUpperCase (s : list ascii) : string :=
  String.string_of_list_ascii (map to_upper s).

End Regex.

(* ===================================================================== *)
(** ** Log entries, as [parseLogFile] hands them to the pipeline *)
(* ===================================================================== *)
Module Entry.

Record LogEntry : Type := {
  timestamp : Q;
  session_id : string;
  prompt_preview : option string;
  prompt_length : Z;
  cwd : option string;
  git_branch : option string;
  git_remote : option string
}.

End Entry.

(* JavaScript truthiness of a string-or-null value *)
Definition truthy (o : option string) : bool :=
  match o with
  | Some s => negb (String.eqb s "")
  | None => false
  end.

(* [a > b] on numbers *)
Definition Qgtb (a b : Q) : bool :=
  match Qcompare a b with
  | Gt => true
  | _ => false
  end.

(* ===================================================================== *)
(** ** Session builder ([lib/time-calculator.js])

    The builder over exact rationals.  What is proved of it (identifiers,
    counts, bounds, cwd, the two finalizations) does not depend on where
    the gap test cuts; the test itself, which does depend on rounding, is
    studied on [TimeCalculator64] below. *)
(* ===================================================================== *)
Module TimeCalculator.

Record Session : Type := {
  session_id : string;
  start_time : Z;
  end_time : Z;
  lastPromptTime : Q;
  cwd : option string;
  prompts : list Entry.LogEntry;
  original_session_id : string;
  prompt_count : nat;
  duration_minutes : option Q   (* [None]: not yet finalized *)
}.

(** [[...prompts].sort((a, b) => a.timestamp - b.timestamp)]: the sort is
    stable, so its result is the one of a stable insertion sort. *)
Fixpoint insert_by_time (x : Entry.LogEntry) (l : list Entry.LogEntry)
  : list Entry.LogEntry :=
  match l with
  | [] => [x]
  | y :: l' =>
      if Qle_bool (Entry.timestamp x) (Entry.timestamp y)
      then x :: y :: l'
      else y :: insert_by_time x l'
  end.

Definition sort_by_time (l : list Entry.LogEntry) : list Entry.LogEntry :=
  foldr insert_by_time [] l.

Section WithHash.

(** [crypto.createHash('sha256').update(s).digest('hex')] and the
    conversion of a number inside a template string are library functions;
    the builder is parametric in them. *)
Variable sha256_hex : string -> string.
Variable number_to_string : Q -> string.

Definition generateSessionId (prompt : Entry.LogEntry) : string :=
  let hash :=
    sha256_hex (number_to_string (Entry.timestamp prompt) +:+ "-"
                +:+ (if truthy (Entry.cwd prompt)
                    then default "" (Entry.cwd prompt) else "")
                +:+ "-" +:+ Entry.session_id prompt) in
  String.substring 0 16 hash.

(* the object literal of "Create new session" *)
Definition newSession (prompt : Entry.LogEntry) (promptTime : Q) : Session :=
  {| session_id := generateSessionId prompt;
     start_time := Qfloor (promptTime / 1000)%Q;
     end_time := Qfloor (promptTime / 1000)%Q;
     lastPromptTime := promptTime;
     cwd := Entry.cwd prompt;
     prompts := [];
     original_session_id := Entry.session_id prompt;
     prompt_count := 0;
     duration_minutes := None |}.

(* "Finalize previous session", inside the loop *)
Definition finalizePrevious (s : Session) : Session :=
  {| session_id := session_id s;
     start_time := start_time s;
     end_time := end_time s;
     lastPromptTime := lastPromptTime s;
     cwd := cwd s;
     prompts := prompts s;
     original_session_id := original_session_id s;
     prompt_count := prompt_count s;
     duration_minutes :=
       Some (inject_Z (end_time s - start_time s) / 1000 / 60)%Q |}.

(* "Finalize last session", after the loop *)
Definition finalizeLast (s : Session) : Session :=
  {| session_id := session_id s;
     start_time := start_time s;
     end_time := end_time s;
     lastPromptTime := lastPromptTime s;
     cwd := cwd s;
     prompts := prompts s;
     original_session_id := original_session_id s;
     prompt_count := prompt_count s;
     duration_minutes := Some (inject_Z (end_time s - start_time s) / 60)%Q |}.

(* "Add prompt to current session" *)
Definition addPrompt (s : Session) (prompt : Entry.LogEntry) (promptTime : Q)
  : Session :=
  {| session_id := session_id s;
     start_time := start_time s;
     end_time := Qfloor (promptTime / 1000)%Q;
     lastPromptTime := promptTime;
     cwd := if truthy (Entry.cwd prompt) then Entry.cwd prompt else cwd s;
     prompts := prompts s ++ [prompt];
     original_session_id := original_session_id s;
     prompt_count := length (prompts s ++ [prompt]);
     duration_minutes := duration_minutes s |}.

(** The loop state: the [sessions] array and [currentSession]. *)
Definition loop_state : Type := list Session * option Session.

Definition loop_body (gapMs : Q) (st : loop_state) (prompt : Entry.LogEntry)
  : loop_state :=
  let promptTime := (Entry.timestamp prompt * 1000)%Q in
  let '(sessions, currentSession) := st in
  let '(sessions', current') :=
    match currentSession with
    | None => (sessions, newSession prompt promptTime)
    | Some cur =>
        if Qgtb (promptTime - lastPromptTime cur)%Q gapMs
        then (sessions ++ [finalizePrevious cur], newSession prompt promptTime)
        else (sessions, cur)
    end in
  (sessions', Some (addPrompt current' prompt promptTime)).

Definition groupSessions (prompts : list Entry.LogEntry) (gapMinutes : Q)
  : list Session :=
  match prompts with
  | [] => []
  | _ =>
      let sorted := sort_by_time prompts in
      let gapMs := (gapMinutes * 60 * 1000)%Q in
      let '(sessions, currentSession) :=
        fold_left (loop_body gapMs) sorted ([], None) in
      match currentSession with
      | Some cur => sessions ++ [finalizeLast cur]
      | None => sessions
      end
  end.

End WithHash.

(* n || 0 on a number *)
Definition orZero (n : Q) : Q := if Qeq_bool n 0 then 0 else n.

(** Sample instances of the two library functions, used to run the builder
    on concrete inputs: the identity in place of the digest, and a decimal
    printer for numbers (num/den for a non-integer). *)
Fixpoint digits_of (fuel : nat) (n : N) (acc : string) : string :=
  match fuel with
  | O => acc
  | S fuel' =>
      let d := String (ascii_of_N (48 + N.modulo n 10)) acc in
      if (N.div n 10 =? 0)%N then d else digits_of fuel' (N.div n 10) d
  end.

Definition show_N (n : N) : string := digits_of (S (N.to_nat (N.log2 n))) n "".

Definition show_Z (z : Z) : string :=
  match z with
  | Zneg p => "-" +:+ show_N (Npos p)
  | _ => show_N (Z.to_N z)
  end.

Definition show_Q (q : Q) : string :=
  let r := Qred q in
  if (Qden r =? 1)%positive then show_Z (Qnum r)
  else show_Z (Qnum r) +:+ "/" +:+ show_N (Npos (Qden r)).

Definition id_digest (s : string) : string := s.

End TimeCalculator.

(* ===================================================================== *)
(** ** Numbers as the engine has them: IEEE 754 binary64

    Every operation rounds to nearest, ties to even. *)
(* ===================================================================== *)
Module Number.

(* sign, mantissa and exponent; the zeros, the infinities and NaN *)
Definition num : Type := spec_float.
Definition prec : Z := 53.
Definition emax : Z := 1024.

(* an integer, rounded to nearest; exact below 2^53 *)
Definition of_Z (z : Z) : num := binary_normalize prec emax z 0 false.

Definition zero : num := S754_zero false.

Definition mul (a b : num) : num := SFmul prec emax a b.
Definition sub (a b : num) : num := SFsub prec emax a b.
Definition div (a b : num) : num := SFdiv prec emax a b.

(* a > b; false when one of them is NaN *)
Definition gt (a b : num) : bool := SFltb b a.

(* Math.floor *)
Definition floor (x : num) : num :=
  match x with
  | S754_finite s m e =>
      if (0 <=? e)%Z then x
      else match Z.shiftr (cond_Zopp s (Zpos m)) (- e) with
           | Z0 => S754_zero s
           | z => of_Z z
           end
  | _ => x
  end.

(* the rational a finite number stands for *)
Definition value (x : num) : Q :=
  match x with
  | S754_finite s m e => (inject_Z (cond_Zopp s (Zpos m)) * Qpower 2 e)%Q
  | _ => 0%Q
  end.

(** The decimal literal [n]e-[k], for an [n] below 2^53 and [k] up to 22:
    both integers are exact, and the division rounds their quotient to
    nearest, as the reading of the literal does. *)
Definition decimal (n : Z) (k : nat) : num := div (of_Z n) (of_Z (10 ^ Z.of_nat k)).

End Number.

(* ===================================================================== *)
(** ** Log entries whose timestamp is a binary64 number *)
(* ===================================================================== *)
Module Entry64.

Record LogEntry : Type := {
  timestamp : Number.num;
  session_id : string;
  prompt_preview : option string;
  prompt_length : Z;
  cwd : option string;
  git_branch : option string;
  git_remote : option string
}.

End Entry64.

(* ===================================================================== *)
(** ** Session builder ([lib/time-calculator.js]) over binary64

    [groupSessions] once more, line by line, with the arithmetic of the
    engine: where a timestamp times 1000, a difference of two such
    products or [gapMinutes * 60 * 1000] is not a binary64 number, it is
    rounded, and the test of the loop compares the rounded values. *)
(* ===================================================================== *)
Module TimeCalculator64.
Import Number.

Record Session : Type := {
  session_id : string;
  start_time : num;
  end_time : num;
  lastPromptTime : num;
  cwd : option string;
  prompts : list Entry64.LogEntry;
  original_session_id : string;
  prompt_count : nat;
  duration_minutes : option num   (* [None]: not yet finalized *)
}.

(** The comparator [(a, b) => a.timestamp - b.timestamp] puts [a] after
    [b] when the difference is positive. *)
Definition after (a b : Entry64.LogEntry) : bool :=
  gt (sub (Entry64.timestamp a) (Entry64.timestamp b)) zero.

(** [[...prompts].sort(comparator)]: the sort is stable, so its result is
    the one of a stable insertion sort. *)
Fixpoint insert_by_time (x : Entry64.LogEntry) (l : list Entry64.LogEntry)
  : list Entry64.LogEntry :=
  match l with
  | [] => [x]
  | y :: l' => if after x y then y :: insert_by_time x l' else x :: y :: l'
  end.

Definition sort_by_time (l : list Entry64.LogEntry) : list Entry64.LogEntry :=
  foldr insert_by_time [] l.

Section WithHash.

Variable sha256_hex : string -> string.
Variable number_to_string : num -> string.

Definition generateSessionId (prompt : Entry64.LogEntry) : string :=
  let hash :=
    sha256_hex (number_to_string (Entry64.timestamp prompt) +:+ "-"
                +:+ (if truthy (Entry64.cwd prompt)
                    then default "" (Entry64.cwd prompt) else "")
                +:+ "-" +:+ Entry64.session_id prompt) in
  String.substring 0 16 hash.

(* the object literal of "Create new session" *)
Definition newSession (prompt : Entry64.LogEntry) (promptTime : num) : Session :=
  {| session_id := generateSessionId prompt;
     start_time := floor (div promptTime (of_Z 1000));
     end_time := floor (div promptTime (of_Z 1000));
     lastPromptTime := promptTime;
     cwd := Entry64.cwd prompt;
     prompts := [];
     original_session_id := Entry64.session_id prompt;
     prompt_count := 0;
     duration_minutes := None |}.

(* "Finalize previous session", inside the loop *)
Definition finalizePrevious (s : Session) : Session :=
  {| session_id := session_id s;
     start_time := start_time s;
     end_time := end_time s;
     lastPromptTime := lastPromptTime s;
     cwd := cwd s;
     prompts := prompts s;
     original_session_id := original_session_id s;
     prompt_count := prompt_count s;
     duration_minutes :=
       Some (div (div (sub (end_time s) (start_time s)) (of_Z 1000)) (of_Z 60)) |}.

(* "Finalize last session", after the loop *)
Definition finalizeLast (s : Session) : Session :=
  {| session_id := session_id s;
     start_time := start_time s;
     end_time := end_time s;
     lastPromptTime := lastPromptTime s;
     cwd := cwd s;
     prompts := prompts s;
     original_session_id := original_session_id s;
     prompt_count := prompt_count s;
     duration_minutes := Some (div (sub (end_time s) (start_time s)) (of_Z 60)) |}.

(* "Add prompt to current session" *)
Definition addPrompt (s : Session) (prompt : Entry64.LogEntry) (promptTime : num)
  : Session :=
  {| session_id := session_id s;
     start_time := start_time s;
     end_time := floor (div promptTime (of_Z 1000));
     lastPromptTime := promptTime;
     cwd := if truthy (Entry64.cwd prompt) then Entry64.cwd prompt else cwd s;
     prompts := prompts s ++ [prompt];
     original_session_id := original_session_id s;
     prompt_count := length (prompts s ++ [prompt]);
     duration_minutes := duration_minutes s |}.

(** The loop state: the [sessions] array and [currentSession]. *)
Definition loop_state : Type := list Session * option Session.

Definition loop_body (gapMs : num) (st : loop_state) (prompt : Entry64.LogEntry)
  : loop_state :=
  let promptTime := mul (Entry64.timestamp prompt) (of_Z 1000) in
  let '(sessions, currentSession) := st in
  let '(sessions', current') :=
    match currentSession with
    | None => (sessions, newSession prompt promptTime)
    | Some cur =>
        if gt (sub promptTime (lastPromptTime cur)) gapMs
        then (sessions ++ [finalizePrevious cur], newSession prompt promptTime)
        else (sessions, cur)
    end in
  (sessions', Some (addPrompt current' prompt promptTime)).

Definition groupSessions (prompts : list Entry64.LogEntry) (gapMinutes : num)
  : list Session :=
  match prompts with
  | [] => []
  | _ =>
      let sorted := sort_by_time prompts in
      let gapMs := mul (mul gapMinutes (of_Z 60)) (of_Z 1000) in
      let '(sessions, currentSession) :=
        fold_left (loop_body gapMs) sorted ([], None) in
      match currentSession with
      | Some cur => sessions ++ [finalizeLast cur]
      | None => sessions
      end
  end.

End WithHash.

(* a printer that tells any two numbers apart, to run the builder *)
Definition show_num (x : num) : string :=
  match x with
  | S754_zero s => if s then "-0" else "0"
  | S754_infinity s => if s then "-Infinity" else "Infinity"
  | S754_nan => "NaN"
  | S754_finite s m e =>
      TimeCalculator.show_Z (cond_Zopp s (Zpos m)) +:+ "p" +:+ TimeCalculator.show_Z e
  end.

End TimeCalculator64.

(* ===================================================================== *)
(** ** Commit records ([lib/git-analyzer.js]) *)
(* ===================================================================== *)
Module GitAnalyzer.

Record Commit : Type := {
  commit_hash : string;
  timestamp : Z;
  author : string;
  message : string;
  repo_path : string
}.

(* [...new Set(paths)]: the first occurrence of each path, in order *)
Fixpoint unique (seen : list string) (paths : list string) : list string :=
  match paths with
  | [] => []
  | p :: rest =>
      if existsb (String.eqb p) seen then unique seen rest
      else p :: unique (p :: seen) rest
  end.

(* allCommits.sort((a, b) => a.timestamp - b.timestamp), a stable sort *)
Fixpoint insert_commit (c : Commit) (l : list Commit) : list Commit :=
  match l with
  | [] => [c]
  | d :: l' =>
      if (timestamp c <=? timestamp d)%Z then c :: d :: l'
      else d :: insert_commit c l'
  end.

Section WithGit.

(** [getCommits repoPath startTime endTime]: what [git log] reports for the
    repository at [repoPath] inside the window, [[]] when the path is not a
    repository or the command fails. *)
Variable getCommits : string -> Z -> Z -> list Commit.

Definition getCommitsFromRepos (repoPaths : list (option string))
    (startTime endTime : Z) : list Commit :=
  let uniqueRepos :=
    unique [] (map (default "") (filter (fun p => truthy p = true) repoPaths)) in
  let allCommits :=
    concat (map (fun repoPath => getCommits repoPath startTime endTime) uniqueRepos) in
  foldr insert_commit [] allCommits.

End WithGit.

End GitAnalyzer.

(* ===================================================================== *)
(** ** Issue extractor ([lib/issue-extractor.js]) *)
(* ===================================================================== *)
Module IssueExtractor.
Import Regex.

Record Issue : Type := {
  issueKey : string;
  source : string;
  confidence : Q
}.

(* [A-Z]{1,3}-\d+ *)
Definition keyBody (letters : ascii -> bool) : regex :=
  [Rep letters 1 (Some 3%nat); Lit "-"; Plus is_digit].

(* /\b([A-Z]{1,3}-\d+)\b/i *)
Definition branchPattern : regex :=
  [WordB; GOpen] ++ keyBody (icase is_upper) ++ [GClose; WordB].

Definition commitPatterns : list regex :=
  [ [Lit "["; GOpen] ++ keyBody is_upper ++ [GClose; Lit "]"];      (* /\[([A-Z]{1,3}-\d+)\]/g *)
    [Bol; GOpen] ++ keyBody is_upper ++ [GClose; Lit ":"];          (* /^([A-Z]{1,3}-\d+):/g *)
    [Bol; GOpen] ++ keyBody is_upper ++ [GClose; Rep is_space 1 (Some 1%nat)] ].
                                                                    (* /^([A-Z]{1,3}-\d+)\s/g *)

(* /\b([A-Z]{1,3}-\d+)\b/g *)
Definition promptPattern : regex :=
  [WordB; GOpen] ++ keyBody is_upper ++ [GClose; WordB].

(* /\/([A-Z]{1,3}-\d+)\//g *)
Definition pathPattern : regex :=
  [Lit "/"; GOpen] ++ keyBody is_upper ++ [GClose; Lit "/"].

(* match[1] of a pattern that has the group *)
Definition m1 (m : rmatch) : list ascii := default [] (group1 m).

(* m[1] || m[0] *)
Definition m1_or_m0 (m : rmatch) : list ascii :=
  match group1 m with
  | Some (c :: g) => c :: g
  | _ => whole m
  end.

(* if (!results.find(r => r.issueKey === key)) results.push({...}) *)
Definition pushNew (src : string) (conf : Q) (results : list Issue) (key : string)
  : list Issue :=
  if existsb (fun r => String.eqb (issueKey r) key) results
  then results
  else results ++ [{| issueKey := key; source := src; confidence := conf |}].

(* the "Try custom patterns" loop shared by the four extractors *)
Definition customPatterns (src : string) (conf : Q) (text : string)
    (patterns : list regex) (results : list Issue) : list Issue :=
  fold_left
    (fun res pattern =>
       fold_left (fun res' m => pushNew src conf res' (toUpperCase (m1_or_m0 m)))
                 (matchAll pattern text) res)
    patterns results.

Definition extractFromBranch (branchName : option string) (patterns : list regex)
  : list Issue :=
  if negb (truthy branchName) then [] else
  let text := default "" branchName in
  let results :=
    match exec branchPattern text with
    | Some m => [{| issueKey := toUpperCase (m1 m); source := "branch"; confidence := 1 |}]
    | None => []
    end in
  customPatterns "branch" 1 text patterns results.

Definition extractFromCommitMessage (message : option string) (patterns : list regex)
  : list Issue :=
  if negb (truthy message) then [] else
  let text := default "" message in
  let results :=
    fold_left
      (fun res pattern =>
         fold_left (fun res' m => pushNew "commit" 1 res' (toUpperCase (m1 m)))
                   (matchAll pattern text) res)
      commitPatterns [] in
  customPatterns "commit" 1 text patterns results.

Definition extractFromPrompt (promptText : option string) (patterns : list regex)
  : list Issue :=
  if negb (truthy promptText) then [] else
  let text := default "" promptText in
  let results :=
    fold_left (fun res m => pushNew "prompt" (7 # 10) res (toUpperCase (m1 m)))
              (matchAll promptPattern text) [] in
  customPatterns "prompt" (7 # 10) text patterns results.

Definition extractFromPath (path : option string) (patterns : list regex)
  : list Issue :=
  if negb (truthy path) then [] else
  let text := default "" path in
  let results :=
    fold_left (fun res m => pushNew "directory" (1 # 2) res (toUpperCase (m1 m)))
              (matchAll pathPattern text) [] in
  customPatterns "directory" (1 # 2) text patterns results.

(** The [Map] from issue key to issue record, in insertion order. *)
Definition issueMap : Type := list (string * Issue).

Fixpoint map_get (m : issueMap) (k : string) : option Issue :=
  match m with
  | [] => None
  | (k', v) :: m' => if String.eqb k' k then Some v else map_get m' k
  end.

(* map.set: an existing key keeps its position *)
Fixpoint map_set (m : issueMap) (k : string) (v : Issue) : issueMap :=
  match m with
  | [] => [(k, v)]
  | (k', v') :: m' =>
      if String.eqb k' k then (k, v) :: m' else (k', v') :: map_set m' k v
  end.

(* existing.source = ...: the record stored under [k] is changed in place *)
Fixpoint map_alter (f : Issue -> Issue) (m : issueMap) (k : string) : issueMap :=
  match m with
  | [] => []
  | (k', v') :: m' =>
      if String.eqb k' k then (k', f v') :: m' else (k', v') :: map_alter f m' k
  end.

Definition updateIssueMap (m : issueMap) (issue : Issue) : issueMap :=
  match map_get m (issueKey issue) with
  | None => map_set m (issueKey issue) issue
  | Some existing =>
      if Qgtb (confidence issue) (confidence existing)
      then map_set m (issueKey issue) issue
      else if Qeq_bool (confidence issue) (confidence existing)
      then map_alter
             (fun ex => {| issueKey := issueKey ex;
                           source := source ex +:+ "," +:+ source issue;
                           confidence := confidence ex |})
             m (issueKey issue)
      else m
  end.

Definition extractFromSession (session : TimeCalculator.Session)
    (commits : list GitAnalyzer.Commit) (patterns : list regex) : list Issue :=
  let allIssues : issueMap := [] in
  (* Extract from branch *)
  let allIssues :=
    match TimeCalculator.prompts session with
    | firstPrompt :: _ =>
        if truthy (Entry.git_branch firstPrompt)
        then fold_left updateIssueMap
               (extractFromBranch (Entry.git_branch firstPrompt) patterns) allIssues
        else allIssues
    | [] => allIssues
    end in
  (* Extract from commits *)
  let allIssues :=
    fold_left
      (fun all commit =>
         fold_left updateIssueMap
           (extractFromCommitMessage (Some (GitAnalyzer.message commit)) patterns) all)
      commits allIssues in
  (* Extract from prompts, and from directory paths *)
  let allIssues :=
    fold_left
      (fun all prompt =>
         let all :=
           if truthy (Entry.prompt_preview prompt)
           then fold_left updateIssueMap
                  (extractFromPrompt (Entry.prompt_preview prompt) patterns) all
           else all in
         if truthy (Entry.cwd prompt)
         then fold_left updateIssueMap
                (extractFromPath (Entry.cwd prompt) patterns) all
         else all)
      (TimeCalculator.prompts session) allIssues in
  map snd allIssues.

(* isValidIssueKey: /^[A-Z]{1,3}-\d+$/i *)
Definition isValidIssueKey (key : string) : bool :=
  match exec_at ([Bol] ++ keyBody (icase is_upper)) None
                (String.list_ascii_of_string key) 0 (None, None) with
  | Some (e, _) => (e =? String.length key)%nat
  | None => false
  end.

End IssueExtractor.

(* ===================================================================== *)
(** ** Log parser ([lib/log-parser.js]) *)
(* ===================================================================== *)
Module LogParser.

#[local] Set Warnings "-register-all".

(** The value [JSON.parse] returns.  An object is its list of properties;
    where a name is bound twice the last binding is the property. *)
Inductive json : Type :=
  | JNull
  | JBool (b : bool)
  | JNum (q : Q)
  | JStr (s : string)
  | JArr (items : list json)
  | JObj (props : list (string * json)).

Fixpoint assoc_last (props : list (string * json)) (k : string) : option json :=
  match props with
  | [] => None
  | (k', v) :: rest =>
      match assoc_last rest k with
      | Some v' => Some v'
      | None => if String.eqb k' k then Some v else None
      end
  end.

(** [entry.name] for a value other than [null]; [None] is [undefined].
    Neither name read by the parser is a property of a primitive or of an
    array. *)
Definition getProp (entry : json) (name : string) : option json :=
  match entry with
  | JObj props => assoc_last props name
  | _ => None
  end.

(* the message of the TypeError thrown by [null.timestamp] *)
Definition nullTypeError : string :=
  "Cannot read properties of null (reading 'timestamp')".

(* ToBoolean *)
Definition toBoolean (v : option json) : bool :=
  match v with
  | None => false
  | Some JNull => false
  | Some (JBool b) => b
  | Some (JNum q) => negb (Qeq_bool q 0)
  | Some (JStr s) => negb (String.eqb s "")
  | Some (JArr _) => true
  | Some (JObj _) => true
  end.

(* v || d *)
Definition orElse (v : option json) (d : json) : json :=
  if toBoolean v then default d v else d.

Record RawEntry : Type := {
  timestamp : json;
  session_id : json;
  prompt_preview : json;
  prompt_length : json;
  cwd : json;
  git_branch : json;
  git_remote : json
}.

Record ParseError : Type := { line : nat; error : string }.

Fixpoint trimStart (s : list ascii) : list ascii :=
  match s with
  | c :: s' => if Regex.is_space c then trimStart s' else s
  | [] => []
  end.
Definition trim (s : string) : string :=
  String.string_of_list_ascii
    (rev (trimStart (rev (trimStart (String.list_ascii_of_string s))))).

(* str.split('\n') *)
Fixpoint split_nl (s : list ascii) (cur : list ascii) : list string :=
  match s with
  | [] => [String.string_of_list_ascii (rev cur)]
  | c :: s' =>
      if Ascii.eqb c "010" then String.string_of_list_ascii (rev cur) :: split_nl s' []
      else split_nl s' (c :: cur)
  end.

Definition nonBlankLines (content : string) : list string :=
  filter (fun l => trim l ≠ "")
         (split_nl (String.list_ascii_of_string (trim content)) []).

Section WithJSON.

(** [JSON.parse]: the parsed value, or the message of the [SyntaxError]. *)
Variable JSON_parse : string -> json + string.

(** The body of the [for] loop for line [i] (0-based): the entry pushed to
    [entries], or the record pushed to [errors]. *)
Definition parseLine (i : nat) (text : string) : RawEntry + ParseError :=
  match JSON_parse text with
  | inr msg => inr {| line := i + 1; error := msg |}
  | inl JNull => inr {| line := i + 1; error := nullTypeError |}
  | inl entry =>
      if negb (toBoolean (getProp entry "timestamp"))
         || negb (toBoolean (getProp entry "session_id"))
      then inr {| line := i + 1; error := "Missing required fields" |}
      else
        inl {| timestamp := default JNull (getProp entry "timestamp");
               session_id := default JNull (getProp entry "session_id");
               prompt_preview := orElse (getProp entry "prompt_preview") JNull;
               prompt_length := orElse (getProp entry "prompt_length") (JNum 0);
               cwd := orElse (getProp entry "cwd") JNull;
               git_branch := orElse (getProp entry "git_branch") JNull;
               git_remote := orElse (getProp entry "git_remote") JNull |}
  end.

Fixpoint parseLines (i : nat) (lines : list string)
    (entries : list RawEntry) (errors : list ParseError)
  : list RawEntry * list ParseError :=
  match lines with
  | [] => (entries, errors)
  | text :: rest =>
      match parseLine i text with
      | inl e => parseLines (S i) rest (entries ++ [e]) errors
      | inr err => parseLines (S i) rest entries (errors ++ [err])
      end
  end.

(** [parseLogFile]: [content] is what [readFileSync] returns, [None] when
    it throws; then the whole operation throws. *)
Definition parseLogFile (filePath : string) (content : option string)
  : (list RawEntry * list ParseError) + string :=
  match content with
  | None => inr ("Failed to parse log file " +:+ filePath)
  | Some text => inl (parseLines 0 (nonBlankLines text) [] [])
  end.

End WithJSON.

(** Groups log entries by [session_id]: a [Map] in insertion order. *)
Fixpoint group_push (m : list (string * list Entry.LogEntry)) (e : Entry.LogEntry)
  : list (string * list Entry.LogEntry) :=
  match m with
  | [] => [(Entry.session_id e, [e])]
  | (k, es) :: m' =>
      if String.eqb k (Entry.session_id e) then (k, es ++ [e]) :: m'
      else (k, es) :: group_push m' e
  end.

Definition groupBySession (entries : list Entry.LogEntry)
  : list (string * list Entry.LogEntry) :=
  fold_left group_push entries [].

End LogParser.

(* ===================================================================== *)
(** ** A JSON reader, to run the parser on concrete lines

    Covers [null], [true], [false], decimal numbers without exponent,
    strings without escapes, arrays and objects. *)
(* ===================================================================== *)
Module SampleJSON.
Import LogParser.

Fixpoint skip_ws (s : list ascii) : list ascii :=
  match s with
  | c :: s' => if Regex.is_space c then skip_ws s' else s
  | [] => []
  end.

Fixpoint strip_prefix (p s : list ascii) : option (list ascii) :=
  match p, s with
  | [], _ => Some s
  | a :: p', b :: s' => if Ascii.eqb a b then strip_prefix p' s' else None
  | _ :: _, [] => None
  end.

(* the characters of a string literal, up to the closing quote *)
Fixpoint read_string (s : list ascii) (acc : list ascii) : option (string * list ascii) :=
  match s with
  | [] => None
  | c :: s' =>
      if Ascii.eqb c "034" then Some (String.string_of_list_ascii (rev acc), s')
      else if Ascii.eqb c "\" || (Regex.code c <? 32)%nat then None
      else read_string s' (c :: acc)
  end.

Fixpoint read_digits (s : list ascii) (acc : Z) (n : nat) : Z * nat * list ascii :=
  match s with
  | c :: s' =>
      if Regex.is_digit c
      then read_digits s' (10 * acc + Z.of_nat (Regex.code c - 48))%Z (S n)
      else (acc, n, s)
  | [] => (acc, n, s)
  end.

Definition read_number (s : list ascii) : option (Q * list ascii) :=
  let '(neg, s1) :=
    match s with
    | c :: s' => if Ascii.eqb c "-" then (true, s') else (false, s)
    | [] => (false, s)
    end in
  let '(ip, n, s2) := read_digits s1 0 0 in
  if (n =? 0)%nat then None else
  let '(num, den, s3) :=
    match s2 with
    | c :: s' =>
        if Ascii.eqb c "." then
          let '(fp, k, s'') := read_digits s' 0 0 in
          ((ip * 10 ^ Z.of_nat k + fp)%Z, Z.to_pos (10 ^ Z.of_nat k), s'')
        else (ip, 1%positive, s2)
    | [] => (ip, 1%positive, s2)
    end in
  Some (Qred ((if neg then (- num)%Z else num) # den), s3).

Fixpoint read_value (fuel : nat) (s : list ascii) : option (json * list ascii) :=
  match fuel with
  | O => None
  | S f =>
      let s := skip_ws s in
      match s with
      | [] => None
      | c :: r =>
          if Ascii.eqb c "n" then
            option_map (fun r' => (JNull, r')) (strip_prefix ["u"; "l"; "l"]%char r)
          else if Ascii.eqb c "t" then
            option_map (fun r' => (JBool true, r')) (strip_prefix ["r"; "u"; "e"]%char r)
          else if Ascii.eqb c "f" then
            option_map (fun r' => (JBool false, r'))
                       (strip_prefix ["a"; "l"; "s"; "e"]%char r)
          else if Ascii.eqb c "034" then
            option_map (fun '(str, r') => (JStr str, r')) (read_string r [])
          else if Ascii.eqb c "[" then
            match skip_ws r with
            | d :: r' =>
                if Ascii.eqb d "]" then Some (JArr [], r') else
                (fix items (n : nat) (r : list ascii) (acc : list json) :=
                   match n with
                   | O => None
                   | S n' =>
                       match read_value f r with
                       | Some (v, r1) =>
                           match skip_ws r1 with
                           | e :: r2 =>
                               if Ascii.eqb e "," then items n' r2 (acc ++ [v])
                               else if Ascii.eqb e "]" then Some (JArr (acc ++ [v]), r2)
                               else None
                           | [] => None
                           end
                       | None => None
                       end
                   end) f r []
            | [] => None
            end
          else if Ascii.eqb c "{" then
            match skip_ws r with
            | d :: r' =>
                if Ascii.eqb d "}" then Some (JObj [], r') else
                (fix members (n : nat) (r : list ascii) (acc : list (string * json)) :=
                   match n with
                   | O => None
                   | S n' =>
                       match skip_ws r with
                       | q :: r0 =>
                           if negb (Ascii.eqb q "034") then None else
                           match read_string r0 [] with
                           | Some (k, r1) =>
                               match skip_ws r1 with
                               | col :: r2 =>
                                   if negb (Ascii.eqb col ":") then None else
                                   match read_value f r2 with
                                   | Some (v, r3) =>
                                       match skip_ws r3 with
                                       | e :: r4 =>
                                           if Ascii.eqb e "," then members n' r4 (acc ++ [(k, v)])
                                           else if Ascii.eqb e "}" then Some (JObj (acc ++ [(k, v)]), r4)
                                           else None
                                       | [] => None
                                       end
                                   | None => None
                                   end
                               | [] => None
                               end
                           | None => None
                           end
                       | [] => None
                       end
                   end) f r []
            | [] => None
            end
          else option_map (fun '(q, r') => (JNum q, r')) (read_number s)
      end
  end.

Definition JSON_parse (text : string) : json + string :=
  let s := String.list_ascii_of_string text in
  match read_value (S (List.length s)) s with
  | Some (v, rest) =>
      match skip_ws rest with
      | [] => inl v
      | _ => inr "Unexpected non-whitespace character after JSON"
      end
  | None => inr "Unexpected token in JSON"
  end.

End SampleJSON.

(* ===================================================================== *)
(** ** Ingestion store: the schema of [initDatabase] ([src/database.js])

    One field per table.  The [created_at]/[processed_at]/[synced_at]
    columns, filled by the engine with the current time, and the non-key
    columns of [jira_issues], which the pipeline never reads, are left out. *)
(* ===================================================================== *)
Module Database.

Record SessionRow : Type := {
  start_time : Z;
  end_time : Z;
  cwd : option string;
  duration_minutes : Q;
  prompt_count : nat
}.

Record PromptRow : Type := {
  session_id : string;
  timestamp : Q;
  prompt_preview : option string;
  prompt_length : Z;
  p_cwd : option string;
  git_branch : option string;
  git_remote : option string
}.

Record CommitRow : Type := {
  c_timestamp : Z;
  message : string;
  author : string;
  repo_path : string
}.

Record LogRow : Type := {
  entries_count : nat;
  sessions_created : nat;
  errors_count : nat
}.

Record Tables : Type := {
  sessions : gmap string SessionRow;                 (* PRIMARY KEY session_id *)
  prompts : list PromptRow;                          (* AUTOINCREMENT prompt_id *)
  git_commits : gmap string CommitRow;               (* PRIMARY KEY commit_hash *)
  session_commits : gset (string * string);          (* PRIMARY KEY (session_id, commit_hash) *)
  jira_issues : gset string;                         (* PRIMARY KEY issue_key *)
  session_issues : gmap (string * string * string) Q;
                                 (* PRIMARY KEY (session_id, issue_key, source) *)
  processing_log : gmap string LogRow                (* PRIMARY KEY log_file *)
}.

Definition empty : Tables :=
  {| sessions := ∅; prompts := []; git_commits := ∅; session_commits := ∅;
     jira_issues := ∅; session_issues := ∅; processing_log := ∅ |}.

(** A statement takes the [foreign_keys] setting of the connection and the
    tables, and yields the new tables or the message of the error. *)
Definition statement : Type := bool -> Tables -> Tables + string.

(* fk ==> cond *)
Definition fk_ok (fk cond : bool) : bool := negb fk || cond.

(* INSERT OR REPLACE INTO sessions (...) VALUES (?, ?, ?, ?, ?, ?) *)
Definition insertSession (sid : string) (st en : Z) (dir : option string)
    (dur : option Q) (cnt : nat) : statement :=
  fun fk t =>
    match dur with
    | None => inr "NOT NULL constraint failed: sessions.duration_minutes"
    | Some d =>
        inl {| sessions := <[sid := {| start_time := st; end_time := en; cwd := dir;
                                       duration_minutes := d; prompt_count := cnt |}]>
                             (sessions t);
               prompts := prompts t; git_commits := git_commits t;
               session_commits := session_commits t; jira_issues := jira_issues t;
               session_issues := session_issues t;
               processing_log := processing_log t |}
    end.

(* INSERT INTO prompts (...) VALUES (?, ?, ?, ?, ?, ?, ?) *)
Definition insertPrompt (row : PromptRow) : statement :=
  fun fk t =>
    if fk_ok fk (bool_decide (is_Some (sessions t !! session_id row)))
    then inl {| sessions := sessions t; prompts := prompts t ++ [row];
                git_commits := git_commits t;
                session_commits := session_commits t; jira_issues := jira_issues t;
                session_issues := session_issues t;
                processing_log := processing_log t |}
    else inr "FOREIGN KEY constraint failed".

(* INSERT OR IGNORE INTO git_commits (...) VALUES (?, ?, ?, ?, ?);
   the four columns of a commit record are always bound to strings and a
   number, so NOT NULL cannot fail here *)
Definition insertCommit (hash : string) (row : CommitRow) : statement :=
  fun fk t =>
    match git_commits t !! hash with
    | Some _ => inl t
    | None =>
        inl {| sessions := sessions t; prompts := prompts t;
               git_commits := <[hash := row]> (git_commits t);
               session_commits := session_commits t; jira_issues := jira_issues t;
               session_issues := session_issues t;
               processing_log := processing_log t |}
    end.

(* INSERT OR IGNORE INTO session_commits (session_id, commit_hash) VALUES (?, ?) *)
Definition insertSessionCommit (sid hash : string) : statement :=
  fun fk t =>
    if bool_decide ((sid, hash) ∈ session_commits t) then inl t
    else if fk_ok fk (bool_decide (is_Some (sessions t !! sid))
                      && bool_decide (is_Some (git_commits t !! hash)))
    then inl {| sessions := sessions t; prompts := prompts t;
                git_commits := git_commits t;
                session_commits := {[ (sid, hash) ]} ∪ session_commits t;
                jira_issues := jira_issues t;
                session_issues := session_issues t;
                processing_log := processing_log t |}
    else inr "FOREIGN KEY constraint failed".

(* CHECK(source IN ('branch', 'commit', 'prompt', 'directory')) *)
Definition check_source (src : string) : bool :=
  String.eqb src "branch" || String.eqb src "commit"
  || String.eqb src "prompt" || String.eqb src "directory".

(* CHECK(confidence >= 0 AND confidence <= 1) *)
Definition check_confidence (c : Q) : bool := Qle_bool 0 c && Qle_bool c 1.

(* INSERT OR REPLACE INTO session_issues (...) VALUES (?, ?, ?, ?) *)
Definition insertSessionIssue (sid key src : string) (conf : Q) : statement :=
  fun fk t =>
    if negb (check_source src)
    then inr "CHECK constraint failed: source IN ('branch', 'commit', 'prompt', 'directory')"
    else if negb (check_confidence conf)
    then inr "CHECK constraint failed: confidence >= 0 AND confidence <= 1"
    else if fk_ok fk (bool_decide (is_Some (sessions t !! sid))
                      && bool_decide (key ∈ jira_issues t))
    then inl {| sessions := sessions t; prompts := prompts t;
                git_commits := git_commits t;
                session_commits := session_commits t; jira_issues := jira_issues t;
                session_issues := <[(sid, key, src) := conf]> (session_issues t);
                processing_log := processing_log t |}
    else inr "FOREIGN KEY constraint failed".

(* INSERT INTO processing_log (...) VALUES (?, ?, ?, ?) *)
Definition insertLog (file : string) (row : LogRow) : statement :=
  fun fk t =>
    match processing_log t !! file with
    | Some _ => inr "UNIQUE constraint failed: processing_log.log_file"
    | None =>
        inl {| sessions := sessions t; prompts := prompts t;
               git_commits := git_commits t;
               session_commits := session_commits t; jira_issues := jira_issues t;
               session_issues := session_issues t;
               processing_log := <[file := row]> (processing_log t) |}
    end.

(* SELECT 1 FROM processing_log WHERE log_file = ? *)
Definition checkProcessed (file : string) (t : Tables) : bool :=
  bool_decide (is_Some (processing_log t !! file)).

End Database.

(* ===================================================================== *)
(** ** Pipeline orchestrator: the per-file body of [processLogs]
       ([src/processor.js]) *)
(* ===================================================================== *)
Module Processor.

(** What the orchestrator reads from outside the process. *)
Record Env : Type := {
  (* parseLogFile(logFile) on the current content of the file;
     [None] when it throws *)
  parseLogFile : string -> option (list Entry.LogEntry * list LogParser.ParseError);
  (* git log of one repository inside a time window *)
  getCommits : string -> Z -> Z -> list GitAnalyzer.Commit;
  (* renameSync(logFile, processedPath): [false] when it throws *)
  renameSync : string -> bool;
  sha256_hex : string -> string;
  number_to_string : Q -> string
}.

Record Config : Type := {
  sessionGapMinutes : Q;
  issueKeyPatterns : list Regex.regex
}.

(** The state the body works on: the connection (tables, [foreign_keys]
    setting, and the number of statements the storage engine still executes
    before it starts failing, [None] for no failure) and the counters of the
    batch. *)
Record State : Type := {
  tables : Database.Tables;
  foreign_keys : bool;
  io_budget : option nat;
  totalEntries : nat;
  totalSessions : nat;
  totalCommits : nat;
  totalIssues : nat;
  errors : nat
}.

Definition with_tables (st : State) (t : Database.Tables) (b : option nat) : State :=
  {| tables := t; foreign_keys := foreign_keys st; io_budget := b;
     totalEntries := totalEntries st; totalSessions := totalSessions st;
     totalCommits := totalCommits st; totalIssues := totalIssues st;
     errors := errors st |}.

Definition add_counts (dEntries dSessions dCommits dIssues dErrors : nat)
    (st : State) : State :=
  {| tables := tables st; foreign_keys := foreign_keys st; io_budget := io_budget st;
     totalEntries := totalEntries st + dEntries;
     totalSessions := totalSessions st + dSessions;
     totalCommits := totalCommits st + dCommits;
     totalIssues := totalIssues st + dIssues;
     errors := errors st + dErrors |}.

(** Computations that read and write the state and may throw. *)
Inductive result (A : Type) : Type :=
  | Ok (a : A)
  | Throw (msg : string).
Arguments Ok {A} a.
Arguments Throw {A} msg.

Definition M (A : Type) : Type := State -> result A * State.

Definition ret {A} (a : A) : M A := fun st => (Ok a, st).
Definition throw {A} (msg : string) : M A := fun st => (Throw msg, st).
Definition bind {A B} (c : M A) (k : A -> M B) : M B :=
  fun st =>
    match c st with
    | (Ok a, st') => k a st'
    | (Throw msg, st') => (Throw msg, st')
    end.
Definition update (f : State -> State) : M unit := fun st => (Ok tt, f st).

#[local] Notation "c ;;; k" := (bind c (fun _ => k))
  (at level 100, k at level 200, right associativity).

(* for (const x of xs) { body(x) } *)
Fixpoint forEach {A} (xs : list A) (body : A -> M unit) : M unit :=
  match xs with
  | [] => ret tt
  | x :: rest => body x ;;; forEach rest body
  end.

(** [stmt.run(...)]: the statement fails when the engine does, or when a
    constraint of the schema rejects the row. *)
Definition run (stmt : Database.statement) : M unit :=
  fun st =>
    match io_budget st with
    | Some O => (Throw "disk I/O error", st)
    | b =>
        match stmt (foreign_keys st) (tables st) with
        | inl t' => (Ok tt, with_tables st t' (pred <$> b))
        | inr msg => (Throw msg, with_tables st (tables st) (pred <$> b))
        end
    end.

(** [db.transaction(fn)]: [db] is the [DatabaseSync] of [node:sqlite] that
    [getDatabase] opens.  That class has [exec] and [prepare] but no
    [transaction] method (it is the API of another driver), so the call is
    a call of [undefined]: it throws a [TypeError] before the callback [fn]
    is run, so before any of the inserts of the callback is run. *)
Definition transaction (body : M unit) : M unit :=
  throw "db.transaction is not a function".

Inductive Outcome : Type :=
  | Skipped          (* already in the ledger *)
  | MarkedEmpty      (* no entries: ledger marked, file left in place *)
  | Archived         (* persisted, ledger marked, file moved *)
  | Failed (msg : string).

Section WithEnv.

Variable env : Env.
Variable config : Config.

Definition repoPaths (session : TimeCalculator.Session) : list (option string) :=
  filter (fun p => truthy p = true)
         (map Entry.cwd (TimeCalculator.prompts session)).

(* the arguments of insertPrompt.run *)
Definition promptRow (sid : string) (prompt : Entry.LogEntry) : Database.PromptRow :=
  {| Database.session_id := sid;
     Database.timestamp := Entry.timestamp prompt;
     Database.prompt_preview := Entry.prompt_preview prompt;
     Database.prompt_length := Entry.prompt_length prompt;
     Database.p_cwd := Entry.cwd prompt;
     Database.git_branch := Entry.git_branch prompt;
     Database.git_remote := Entry.git_remote prompt |}.

(** The body of [for (const session of allSessions)], in the callback
    that is handed to [db.transaction]. *)
Definition persistSession (session : TimeCalculator.Session) : M unit :=
  let sid := TimeCalculator.session_id session in
  run (Database.insertSession sid
         (TimeCalculator.start_time session) (TimeCalculator.end_time session)
         (TimeCalculator.cwd session) (TimeCalculator.duration_minutes session)
         (TimeCalculator.prompt_count session)) ;;;
  forEach (TimeCalculator.prompts session)
    (fun prompt => run (Database.insertPrompt (promptRow sid prompt))) ;;;
  if (0 <? List.length (repoPaths session))%nat then
    let commits :=
      GitAnalyzer.getCommitsFromRepos (getCommits env) (repoPaths session)
        (TimeCalculator.start_time session) (TimeCalculator.end_time session) in
    forEach commits
      (fun commit =>
         run (Database.insertCommit (GitAnalyzer.commit_hash commit)
                {| Database.c_timestamp := GitAnalyzer.timestamp commit;
                   Database.message := GitAnalyzer.message commit;
                   Database.author := GitAnalyzer.author commit;
                   Database.repo_path := GitAnalyzer.repo_path commit |}) ;;;
         run (Database.insertSessionCommit sid (GitAnalyzer.commit_hash commit))) ;;;
    update (add_counts 0 0 (List.length commits) 0 0) ;;;
    let issues :=
      IssueExtractor.extractFromSession session commits (issueKeyPatterns config) in
    forEach issues
      (fun issue =>
         run (Database.insertSessionIssue sid (IssueExtractor.issueKey issue)
                (IssueExtractor.source issue) (IssueExtractor.confidence issue))) ;;;
    update (add_counts 0 0 0 (List.length issues) 0)
  else ret tt.

(* "Group by session_id first, then by time gaps" *)
Definition allSessionsOf (entries : list Entry.LogEntry) : list TimeCalculator.Session :=
  concat (map (fun '(_, prompts) =>
                 TimeCalculator.groupSessions (sha256_hex env) (number_to_string env)
                   prompts (sessionGapMinutes config))
              (LogParser.groupBySession entries)).

(** The [try] block of one iteration of [for (const logFile of logFiles)]. *)
Definition tryFile (logFile : string) : M Outcome :=
  fun st0 =>
  (if Database.checkProcessed logFile (tables st0) then ret Skipped else
   match parseLogFile env logFile with
   | None => throw ("Failed to parse log file " +:+ logFile)
   | Some (entries, parseErrors) =>
       update (add_counts 0 0 0 0 (List.length parseErrors)) ;;;
       update (add_counts (List.length entries) 0 0 0 0) ;;;
       match entries with
       | [] =>
           run (Database.insertLog logFile
                  {| Database.entries_count := 0; Database.sessions_created := 0;
                     Database.errors_count := List.length parseErrors |}) ;;;
           ret MarkedEmpty
       | _ =>
           let allSessions := allSessionsOf entries in
           update (add_counts 0 (List.length allSessions) 0 0 0) ;;;
           transaction (forEach allSessions persistSession) ;;;
           run (Database.insertLog logFile
                  {| Database.entries_count := List.length entries;
                     Database.sessions_created := List.length allSessions;
                     Database.errors_count := List.length parseErrors |}) ;;;
           (if renameSync env logFile then ret tt
            else throw ("rename failed: " +:+ logFile)) ;;;
           ret Archived
       end
   end) st0.

(** One iteration with its [catch]: the error is counted and the batch goes
    on. *)
Definition processFile (logFile : string) (st : State) : Outcome * State :=
  match tryFile logFile st with
  | (Ok o, st') => (o, st')
  | (Throw msg, st') => (Failed msg, add_counts 0 0 0 0 1 st')
  end.

(* for (const logFile of logFiles) *)
Fixpoint processFiles (logFiles : list string) (st : State) : list Outcome * State :=
  match logFiles with
  | [] => ([], st)
  | f :: rest =>
      let '(o, st') := processFile f st in
      let '(os, st'') := processFiles rest st' in
      (o :: os, st'')
  end.

End WithEnv.

End Processor.

(* ===================================================================== *)
(** ** Reading the commits of one repository: [getCommits]
       ([lib/git-analyzer.js]) *)
(* ===================================================================== *)
Module GitCommits.

(** A commit as [getCommits] builds it from one line of [git log].  The
    destructuring of [line.split('|')] leaves the parts that are missing
    [undefined]; the first part always exists.  [parseInt] gives [NaN]
    ([None]) on what is not a number. *)
Record RawCommit : Type := {
  commit_hash : string;
  timestamp : option Z;
  author : option string;
  message : option string;
  repo_path : string
}.

(* str.split(sep) for a one-character separator *)
Fixpoint split_on (sep : ascii) (s : list ascii) (cur : list ascii) : list string :=
  match s with
  | [] => [String.string_of_list_ascii (rev cur)]
  | c :: s' =>
      if Ascii.eqb c sep then String.string_of_list_ascii (rev cur) :: split_on sep s' []
      else split_on sep s' (c :: cur)
  end.

Section WithGit.

(* existsSync(join(repoPath, '.git')) *)
Variable isGitRepo : string -> bool.
(* the output of [git log --all --format=%H|%at|%an|%s] of the repository
   inside the window; [None] when the [try] block throws before the
   output is there *)
Variable execSync : string -> Z -> Z -> option string.
Variable parseInt : string -> option Z.

(* the callback of [.map(line => ...)] *)
Definition parseCommit (repoPath : string) (line : string) : RawCommit :=
  let parts := split_on "|" (String.list_ascii_of_string line) [] in
  {| commit_hash := default "" (parts !! 0%nat);
     timestamp := parts !! 1%nat ≫= parseInt;
     author := parts !! 2%nat;
     message := parts !! 3%nat;
     repo_path := repoPath |}.

Definition getCommits (repoPath : string) (startTime endTime : Z) : list RawCommit :=
  if negb (isGitRepo repoPath) then []
  else
    match execSync repoPath startTime endTime with
    | None => []
    | Some output =>
        if String.eqb (LogParser.trim output) "" then []
        else
          map (parseCommit repoPath)
              (split_on "010" (String.list_ascii_of_string (LogParser.trim output)) [])
    end.

End WithGit.

End GitCommits.

(* ===================================================================== *)
(** ** Report queries ([src/query.js]): grouping of untracked sessions *)
(* ===================================================================== *)
Module Query.

(** A row of [getUntrackedSessions]. *)
Record UntrackedSession : Type := {
  session_id : string;
  start_time : Z;
  end_time : Z;
  cwd : option string;
  duration_minutes : Q;
  prompt_count : nat;
  commit_count : nat
}.

Record DirectoryGroup : Type := {
  directory : string;
  sessions : list UntrackedSession;
  total_minutes : Q;
  g_commit_count : nat
}.

(* session.cwd || 'Unknown' *)
Definition dirOf (session : UntrackedSession) : string :=
  if truthy (cwd session) then default "" (cwd session) else "Unknown".

(* the object literal stored for a directory seen for the first time *)
Definition newGroup (dir : string) : DirectoryGroup :=
  {| directory := dir; sessions := []; total_minutes := 0; g_commit_count := 0 |}.

(* group.sessions.push(session); group.total_minutes += ...; group.commit_count += ... *)
Definition addSession (group : DirectoryGroup) (session : UntrackedSession)
  : DirectoryGroup :=
  {| directory := directory group;
     sessions := sessions group ++ [session];
     total_minutes :=
       (total_minutes group + TimeCalculator.orZero (duration_minutes session))%Q;
     g_commit_count := g_commit_count group + commit_count session |}.

(** One iteration of the loop over the [byDirectory] map (insertion order):
    the group of the directory is created at the end when it is missing, and
    changed in place. *)
Fixpoint addToGroups (m : list (string * DirectoryGroup)) (dir : string)
    (session : UntrackedSession) : list (string * DirectoryGroup) :=
  match m with
  | [] => [(dir, addSession (newGroup dir) session)]
  | (k, g) :: m' =>
      if String.eqb k dir then (k, addSession g session) :: m'
      else (k, g) :: addToGroups m' dir session
  end.

(* .sort((a, b) => b.total_minutes - a.total_minutes), a stable sort *)
Fixpoint insert_group (g : DirectoryGroup) (l : list DirectoryGroup)
  : list DirectoryGroup :=
  match l with
  | [] => [g]
  | h :: l' =>
      if Qle_bool (total_minutes h) (total_minutes g) then g :: h :: l'
      else h :: insert_group g l'
  end.

Definition groupUntrackedByDirectory (untrackedSessions : list UntrackedSession)
  : list DirectoryGroup :=
  let byDirectory :=
    fold_left (fun m session => addToGroups m (dirOf session) session)
              untrackedSessions [] in
  foldr insert_group [] (map snd byDirectory).

End Query.

(* ===================================================================== *)
(** ** Predicates used to state the properties *)
(* ===================================================================== *)
Module Spec.

(** [chained R l]: every two neighbours of [l] are related by [R]. *)
Fixpoint chained {A : Type} (R : A -> A -> Prop) (l : list A) : Prop :=
  match l with
  | a :: ((b :: _) as tl) => R a b /\ chained R tl
  | _ => True
  end.

(* the next entry comes at most [gap] seconds after the previous one *)
Definition within (gap : Q) (a b : Entry.LogEntry) : Prop :=
  (Entry.timestamp b - Entry.timestamp a <= gap)%Q.

(* the next entry comes more than [gap] seconds after the previous one *)
Definition beyond (gap : Q) (a b : Entry.LogEntry) : Prop :=
  (gap < Entry.timestamp b - Entry.timestamp a)%Q.

(* the first entry of [g2] comes more than [gap] seconds after the last of [g1] *)
Definition apart (gap : Q) (g1 g2 : list Entry.LogEntry) : Prop :=
  forall a b, last g1 = Some a -> head g2 = Some b -> beyond gap a b.


(* an entry of the scenarios: only the timestamp and the key are given *)
Definition entry_at (t : Z) (key : string) : Entry.LogEntry :=
  {| Entry.timestamp := inject_Z t; Entry.session_id := key;
     Entry.prompt_preview := None; Entry.prompt_length := 0;
     Entry.cwd := None; Entry.git_branch := None; Entry.git_remote := None |}.

(* the scenario of the specification: one key, entries at 0 s, 600 s, 3600 s *)
Definition scenario : list Entry.LogEntry :=
  [entry_at 0 "a"; entry_at 600 "a"; entry_at 3600 "a"].

(** The issues handed to [updateIssueMap] by [extractFromSession], in the
    order of the calls: branch of the first entry, then every commit, then
    for every entry its preview and its directory. *)
Definition issueStream (session : TimeCalculator.Session)
    (commits : list GitAnalyzer.Commit) (patterns : list Regex.regex)
  : list IssueExtractor.Issue :=
  match TimeCalculator.prompts session with
  | firstPrompt :: _ =>
      IssueExtractor.extractFromBranch (Entry.git_branch firstPrompt) patterns
  | [] => []
  end
  ++ concat (map (fun commit =>
                    IssueExtractor.extractFromCommitMessage
                      (Some (GitAnalyzer.message commit)) patterns) commits)
  ++ concat (map (fun prompt =>
                    IssueExtractor.extractFromPrompt (Entry.prompt_preview prompt) patterns
                    ++ IssueExtractor.extractFromPath (Entry.cwd prompt) patterns)
                 (TimeCalculator.prompts session)).

(* the occurrences of the key [k] among the issues [l] *)
Definition occurrences (k : string) (l : list IssueExtractor.Issue)
  : list IssueExtractor.Issue :=
  filter (fun i => IssueExtractor.issueKey i = k) l.

(* the occurrences whose confidence is the one of [r] *)
Definition tied (r : IssueExtractor.Issue) (l : list IssueExtractor.Issue)
  : list IssueExtractor.Issue :=
  filter (fun i => Qeq_bool (IssueExtractor.confidence i) (IssueExtractor.confidence r) = true) l.

(* what [updateIssueMap] does to the record of one key *)
Definition resolve (acc : option IssueExtractor.Issue) (issue : IssueExtractor.Issue)
  : option IssueExtractor.Issue :=
  match acc with
  | None => Some issue
  | Some existing =>
      if Qgtb (IssueExtractor.confidence issue) (IssueExtractor.confidence existing)
      then Some issue
      else if Qeq_bool (IssueExtractor.confidence issue) (IssueExtractor.confidence existing)
      then Some {| IssueExtractor.issueKey := IssueExtractor.issueKey existing;
                   IssueExtractor.source :=
                     IssueExtractor.source existing +:+ "," +:+ IssueExtractor.source issue;
                   IssueExtractor.confidence := IssueExtractor.confidence existing |}
      else Some existing
  end.

(* the issue comes from the source [src], with its fixed confidence *)
Definition labelled (src : string) (conf : Q) (i : IssueExtractor.Issue) : Prop :=
  IssueExtractor.source i = src /\ IssueExtractor.confidence i = conf.

(* the four sources and their confidences *)
Definition from_a_source (i : IssueExtractor.Issue) : Prop :=
  labelled "branch" 1 i \/ labelled "commit" 1 i
  \/ labelled "prompt" (7 # 10) i \/ labelled "directory" (1 # 2) i.

(* every key is bound once, to a record that carries it *)
Definition map_ok (m : IssueExtractor.issueMap) : Prop :=
  NoDup (map fst m) /\ Forall (fun kv => IssueExtractor.issueKey (snd kv) = fst kv) m.

(* a session of one entry, for the examples of the extractor *)
Definition session_of (ps : list Entry.LogEntry) : TimeCalculator.Session :=
  {| TimeCalculator.session_id := "s"; TimeCalculator.start_time := 0;
     TimeCalculator.end_time := 0; TimeCalculator.lastPromptTime := 0;
     TimeCalculator.cwd := None; TimeCalculator.prompts := ps;
     TimeCalculator.original_session_id := "a";
     TimeCalculator.prompt_count := List.length ps;
     TimeCalculator.duration_minutes := Some 0%Q |}.

Definition entry_with (t : Z) (dir branch preview : option string) : Entry.LogEntry :=
  {| Entry.timestamp := inject_Z t; Entry.session_id := "a";
     Entry.prompt_preview := preview; Entry.prompt_length := 0;
     Entry.cwd := dir; Entry.git_branch := branch; Entry.git_remote := None |}.

Definition commit_with (hash msg : string) : GitAnalyzer.Commit :=
  {| GitAnalyzer.commit_hash := hash; GitAnalyzer.timestamp := 0;
     GitAnalyzer.author := "dev"; GitAnalyzer.message := msg;
     GitAnalyzer.repo_path := "/w" |}.

(* one entry on branch feature/AB-12-login whose preview names AB-12 too *)
Definition branch_and_prompt : TimeCalculator.Session :=
  session_of [entry_with 0 (Some "/w") (Some "feature/AB-12-login")
                (Some "please fix AB-12 today")].

(* a commit on that key, correlated with the session *)
Definition commit_AB12 : GitAnalyzer.Commit := commit_with "c0ffee" "AB-12: fix login".

(* the first session the builder returns on the scenario, gap 30 min *)
Definition scenario_first : TimeCalculator.Session :=
  Eval vm_compute in
    match TimeCalculator.groupSessions TimeCalculator.id_digest
            TimeCalculator.show_Q scenario 30 with
    | s :: _ => s
    | [] => TimeCalculator.newSession TimeCalculator.id_digest
              TimeCalculator.show_Q (entry_at 0 "a") 0
    end.

Section BuilderInvariant.

Variable sha256_hex : string -> string.
Variable number_to_string : Q -> string.
Variable gapMinutes : Q.

(* a session whose id comes from its first entry and whose entries are
   never more than the gap apart *)
Definition good (s : TimeCalculator.Session) : Prop :=
  (exists p ps, TimeCalculator.prompts s = p :: ps
     /\ TimeCalculator.session_id s
        = TimeCalculator.generateSessionId sha256_hex number_to_string p)
  /\ chained (within (gapMinutes * 60)) (TimeCalculator.prompts s).

(* a session pushed by the loop, before the last one *)
Definition closed (s : TimeCalculator.Session) : Prop :=
  good s
  /\ TimeCalculator.duration_minutes s
     = Some (inject_Z (TimeCalculator.end_time s - TimeCalculator.start_time s)
             / 1000 / 60)%Q.

(* [lastPromptTime] is the time of the last entry, in milliseconds *)
Definition open_ok (s : TimeCalculator.Session) : Prop :=
  forall a, last (TimeCalculator.prompts s) = Some a ->
            TimeCalculator.lastPromptTime s = (Entry.timestamp a * 1000)%Q.

(** The loop invariant of [groupSessions] after the entries [done]. *)
Definition loop_inv (done : list Entry.LogEntry) (st : TimeCalculator.loop_state)
  : Prop :=
  match st with
  | (sessions, None) => sessions = [] /\ done = []
  | (sessions, Some cur) =>
      concat (map TimeCalculator.prompts sessions) ++ TimeCalculator.prompts cur = done
      /\ Forall closed sessions
      /\ good cur /\ open_ok cur
      /\ chained (apart (gapMinutes * 60))
           (map TimeCalculator.prompts sessions ++ [TimeCalculator.prompts cur])
  end.

End BuilderInvariant.

(** The test of the loop of [groupSessions] on an entry [b] that follows
    the entry [a]: both timestamps are multiplied by 1000, the products are
    subtracted and the difference is compared with [gapMs], each operation
    rounding to binary64. *)
Definition gap_exceeded64 (gapMs : Number.num) (a b : Entry64.LogEntry) : bool :=
  Number.gt
    (Number.sub (Number.mul (Entry64.timestamp b) (Number.of_Z 1000))
                (Number.mul (Entry64.timestamp a) (Number.of_Z 1000)))
    gapMs.

Definition together (gapMs : Number.num) (a b : Entry64.LogEntry) : Prop :=
  gap_exceeded64 gapMs a b = false.

(* the test holds between the last entry of [g1] and the first of [g2] *)
Definition split_at (gapMs : Number.num) (g1 g2 : list Entry64.LogEntry) : Prop :=
  forall a b, last g1 = Some a -> head g2 = Some b -> gap_exceeded64 gapMs a b = true.

(* the comparator of the sort does not put [a] after [b] *)
Definition in_order (a b : Entry64.LogEntry) : Prop :=
  TimeCalculator64.after a b = false.

(* an entry of which only the timestamp is given *)
Definition entry64 (t : Number.num) : Entry64.LogEntry :=
  {| Entry64.timestamp := t; Entry64.session_id := "a";
     Entry64.prompt_preview := None; Entry64.prompt_length := 0;
     Entry64.cwd := None; Entry64.git_branch := None; Entry64.git_remote := None |}.

(* the scenario of the specification: entries at 0 s, 600 s, 3600 s *)
Definition scenario64 : list Entry64.LogEntry :=
  [entry64 (Number.of_Z 0); entry64 (Number.of_Z 600); entry64 (Number.of_Z 3600)].

Section BuilderInvariant64.

Variable gapMs : Number.num.

Definition good64 (s : TimeCalculator64.Session) : Prop :=
  TimeCalculator64.prompts s <> []
  /\ chained (together gapMs) (TimeCalculator64.prompts s).

(* [lastPromptTime] is the time of the last entry, in milliseconds *)
Definition open_ok64 (s : TimeCalculator64.Session) : Prop :=
  forall a, last (TimeCalculator64.prompts s) = Some a ->
            TimeCalculator64.lastPromptTime s
            = Number.mul (Entry64.timestamp a) (Number.of_Z 1000).

(** The loop invariant of [groupSessions] after the entries [done]. *)
Definition loop_inv64 (done : list Entry64.LogEntry)
    (st : TimeCalculator64.loop_state) : Prop :=
  match st with
  | (sessions, None) => sessions = [] /\ done = []
  | (sessions, Some cur) =>
      concat (map TimeCalculator64.prompts sessions) ++ TimeCalculator64.prompts cur
      = done
      /\ Forall good64 sessions
      /\ good64 cur /\ open_ok64 cur
      /\ chained (split_at gapMs)
           (map TimeCalculator64.prompts sessions ++ [TimeCalculator64.prompts cur])
  end.

End BuilderInvariant64.

(* the sessions the builder returns on the scenario, gap 30 min *)
Definition scenario64_first : TimeCalculator64.Session :=
  Eval vm_compute in
    match TimeCalculator64.groupSessions TimeCalculator.id_digest
            TimeCalculator64.show_num scenario64 (Number.of_Z 30) with
    | s :: _ => s
    | [] => TimeCalculator64.newSession TimeCalculator.id_digest
              TimeCalculator64.show_num (entry64 Number.zero) Number.zero
    end.

Definition scenario64_second : TimeCalculator64.Session :=
  Eval vm_compute in
    match TimeCalculator64.groupSessions TimeCalculator.id_digest
            TimeCalculator64.show_num scenario64 (Number.of_Z 30) with
    | _ :: s :: _ => s
    | _ => TimeCalculator64.newSession TimeCalculator.id_digest
             TimeCalculator64.show_num (entry64 Number.zero) Number.zero
    end.

(* two entries that carry the same timestamp *)
Definition same_second64 : list Entry64.LogEntry :=
  [entry64 (Number.of_Z 5); entry64 (Number.of_Z 5)].


(* the one entry of the sample log file *)
Definition sample_entry : Entry.LogEntry :=
  entry_with 10 (Some "/w") (Some "feature/AB-12-login") (Some "please fix AB-12 today").

(* a JSON string literal *)
Definition quoted (s : string) : string :=
  String "034" EmptyString +:+ s +:+ String "034" EmptyString.

(* the line {"timestamp":0,"session_id":"a"} *)
Definition line_timestamp_zero : string :=
  "{" +:+ quoted "timestamp" +:+ ":0," +:+ quoted "session_id" +:+ ":"
  +:+ quoted "a" +:+ "}".

(* the line {"timestamp":1700000000.5,"session_id":"a","cwd":"/w"} *)
Definition line_valid : string :=
  "{" +:+ quoted "timestamp" +:+ ":1700000000.5," +:+ quoted "session_id" +:+ ":"
  +:+ quoted "a" +:+ "," +:+ quoted "cwd" +:+ ":" +:+ quoted "/w" +:+ "}".

(* a line of the log: rejected, that is pushed to [errors] *)
Definition rejected (JSON_parse : string -> LogParser.json + string)
    (i : nat) (text : string) : Prop :=
  exists err, LogParser.parseLine JSON_parse i text = inr err.

(* a repository without commits in any window *)
Definition quiet_env : Processor.Env :=
  {| Processor.parseLogFile := fun f =>
       if String.eqb f "logs/prompts-2026-01.jsonl"
       then Some ([sample_entry], [])
       else None;
     Processor.getCommits := fun _ _ _ => [];
     Processor.renameSync := fun _ => true;
     Processor.sha256_hex := TimeCalculator.id_digest;
     Processor.number_to_string := TimeCalculator.show_Q |}.

(* the same file, with one commit on the key inside the window *)
Definition sample_env : Processor.Env :=
  {| Processor.parseLogFile := Processor.parseLogFile quiet_env;
     Processor.getCommits := fun repo _ _ =>
       if String.eqb repo "/w" then [commit_AB12] else [];
     Processor.renameSync := fun _ => true;
     Processor.sha256_hex := TimeCalculator.id_digest;
     Processor.number_to_string := TimeCalculator.show_Q |}.

Definition sample_config : Processor.Config :=
  {| Processor.sessionGapMinutes := 30; Processor.issueKeyPatterns := [] |}.







(* a directory with the sample file, a file whose only line is rejected,
   and nothing else that can be read *)
Definition mixed_env : Processor.Env :=
  {| Processor.parseLogFile := fun f =>
       if String.eqb f "logs/prompts-2026-01.jsonl" then Some ([sample_entry], [])
       else if String.eqb f "logs/empty.jsonl"
       then Some ([], [{| LogParser.line := 1;
                          LogParser.error := "Missing required fields" |}])
       else None;
     Processor.getCommits := fun _ _ _ => [];
     Processor.renameSync := fun _ => true;
     Processor.sha256_hex := TimeCalculator.id_digest;
     Processor.number_to_string := TimeCalculator.show_Q |}.

(* an empty database on a connection that enforces foreign keys, as a
   [DatabaseSync] does unless told otherwise; the engine executes [budget]
   statements, then fails *)
Definition strict_state (budget : option nat) : Processor.State :=
  {| Processor.tables := Database.empty; Processor.foreign_keys := true;
     Processor.io_budget := budget;
     Processor.totalEntries := 0; Processor.totalSessions := 0;
     Processor.totalCommits := 0; Processor.totalIssues := 0;
     Processor.errors := 0 |}.

(* entries of one tool that moves from /a to /b and then reports no cwd *)
Definition cwd_scenario : list Entry.LogEntry :=
  [entry_with 0 (Some "/a") None None; entry_with 60 None None None;
   entry_with 120 (Some "/b") None None; entry_with 180 (Some "") None None].

Definition cwd_session : TimeCalculator.Session :=
  Eval vm_compute in
    match TimeCalculator.groupSessions TimeCalculator.id_digest
            TimeCalculator.show_Q cwd_scenario 30 with
    | s :: _ => s
    | [] => session_of []
    end.

(* no lower-case ASCII letter in the key *)
Definition upper_case (key : string) : Prop :=
  Forall (fun c => Regex.is_lower c = false) (String.list_ascii_of_string key).

(* what every record of one extractor looks like *)
Definition clean (src : string) (conf : Q) (l : list IssueExtractor.Issue) : Prop :=
  NoDup (map IssueExtractor.issueKey l)
  /\ Forall (fun i => labelled src conf i /\ upper_case (IssueExtractor.issueKey i)) l.

(** The repetition loop inside [exec_at], with what follows the repetition
    as a continuation. *)
Definition rep_k (cls : ascii -> bool) (lo : nat) (hi : option nat)
    (k : option ascii -> list ascii -> nat -> option (nat * Regex.caps))
  : nat -> option ascii -> list ascii -> nat -> option (nat * Regex.caps) :=
  fix rep (n : nat) (prev : option ascii) (s : list ascii) (pos : nat)
      {struct s} : option (nat * Regex.caps) :=
    let stop := if (lo <=? n)%nat then k prev s pos else None in
    match s with
    | ch :: s' =>
        if cls ch && Regex.below n hi then
          match rep (S n) (Some ch) s' (S pos) with
          | Some res => Some res
          | None => stop
          end
        else stop
    | [] => stop
    end.

(* a pattern without the parentheses of the capture group *)
Definition groupless (r : Regex.regex) : Prop :=
  Forall (fun a => a <> Regex.GOpen /\ a <> Regex.GClose) r.

(* one to three letters, a hyphen, one or more digits *)
Definition key_shape (g : list ascii) : Prop :=
  exists L D,
    g = L ++ "-"%char :: D
    /\ (1 <= List.length L <= 3)%nat
    /\ Forall (fun c => Regex.icase Regex.is_upper c = true) L
    /\ D <> []
    /\ Forall (fun c => Regex.is_digit c = true) D.

(* commits in the order of their timestamps *)
Definition commit_ascending (a b : GitAnalyzer.Commit) : Prop :=
  (GitAnalyzer.timestamp a <= GitAnalyzer.timestamp b)%Z.

(* the entries of [l] reported under the key [k] *)
Definition with_key (k : string) (l : list Entry.LogEntry) : list Entry.LogEntry :=
  filter (fun e => Entry.session_id e = k) l.

(* what [groupBySession] keeps true after the entries [done] *)
Definition groups_inv (done : list Entry.LogEntry)
    (m : list (string * list Entry.LogEntry)) : Prop :=
  NoDup (map fst m)
  /\ (forall k es, (k, es) ∈ m -> es <> [] /\ es = with_key k done)
  /\ (forall e, e ∈ done -> Entry.session_id e ∈ map fst m)
  /\ Permutation (concat (map snd m)) done.

(** The cwd a session ends with: the cwd of the last entry that has a
    non-empty one, and the cwd of the first entry when there is none. *)
Definition lastCwd (first : Entry.LogEntry) (entries : list Entry.LogEntry)
  : option string :=
  match last (filter (fun p => truthy (Entry.cwd p) = true) entries) with
  | Some q => Entry.cwd q
  | None => Entry.cwd first
  end.

(** What the loop of [groupSessions] keeps true of every session it has
    opened: the fields derived from the entries of the session. *)
Definition shaped (s : TimeCalculator.Session) : Prop :=
  TimeCalculator.prompt_count s = List.length (TimeCalculator.prompts s)
  /\ exists p ps,
       TimeCalculator.prompts s = p :: ps
       /\ TimeCalculator.start_time s = Qfloor (Entry.timestamp p * 1000 / 1000)%Q
       /\ TimeCalculator.original_session_id s = Entry.session_id p
       /\ TimeCalculator.cwd s = lastCwd p (p :: ps)
       /\ forall a, last (p :: ps) = Some a ->
            TimeCalculator.end_time s = Qfloor (Entry.timestamp a * 1000 / 1000)%Q.

Definition shaped_state (st : TimeCalculator.loop_state) : Prop :=
  Forall shaped (fst st)
  /\ match snd st with Some cur => shaped cur | None => True end.

(** [throws c]: the computation throws from every state. *)
Definition throws {A} (c : Processor.M A) : Prop :=
  forall st, exists msg st', c st = (Processor.Throw msg, st').

(** [keeps f c]: the computation leaves the part [f] of the tables as it
    was, whether it returns or throws. *)
Definition keeps {A X} (f : Database.Tables -> X) (c : Processor.M A) : Prop :=
  forall st, f (Processor.tables (snd (c st))) = f (Processor.tables st).

(* the state when [db.transaction] is called: the counters of the file added *)
Definition counted (nEntries nSessions nErrors : nat) (st : Processor.State)
  : Processor.State :=
  Processor.add_counts 0 nSessions 0 0 0
    (Processor.add_counts nEntries 0 0 0 0
       (Processor.add_counts 0 0 0 0 nErrors st)).

(** [stays f c]: the computation leaves the part [f] of the state as it
    was, whether it returns or throws. *)
Definition stays {A X} (f : Processor.State -> X) (c : Processor.M A) : Prop :=
  forall st, f (snd (c st)) = f st.

(* the ledger of processed files *)
Definition ledger (st : Processor.State) : gmap string Database.LogRow :=
  Database.processing_log (Processor.tables st).

(* an outcome other than a failure *)
Definition succeeded (o : Processor.Outcome) : Prop :=
  match o with
  | Processor.Failed _ => False
  | _ => True
  end.

(* what a failed file adds to the error counter *)
Definition failure_count (o : Processor.Outcome) : nat :=
  match o with
  | Processor.Failed _ => 1
  | _ => 0
  end.

(* the sessions of [l] reported under the directory [d] *)
Definition in_dir (d : string) (l : list Query.UntrackedSession)
  : list Query.UntrackedSession :=
  filter (fun s => Query.dirOf s = d) l.

(* the minutes of a list of sessions, added from the left *)
Definition minutes_sum (l : list Query.UntrackedSession) : Q :=
  fold_left (fun total s =>
               (total + TimeCalculator.orZero (Query.duration_minutes s))%Q) l 0%Q.

Definition commits_sum (l : list Query.UntrackedSession) : nat :=
  list_sum (map Query.commit_count l).

(* a group that holds the sessions of its directory, with their totals *)
Definition group_of (done : list Query.UntrackedSession) (g : Query.DirectoryGroup)
  : Prop :=
  Query.sessions g <> []
  /\ Query.sessions g = in_dir (Query.directory g) done
  /\ Query.total_minutes g = minutes_sum (Query.sessions g)
  /\ Query.g_commit_count g = commits_sum (Query.sessions g).

(* what the loop of [groupUntrackedByDirectory] keeps true after [done] *)
Definition dir_inv (done : list Query.UntrackedSession)
    (m : list (string * Query.DirectoryGroup)) : Prop :=
  NoDup (map fst m)
  /\ (forall k g, (k, g) ∈ m -> Query.directory g = k /\ group_of done g)
  /\ (forall s, s ∈ done -> Query.dirOf s ∈ map fst m).

(* the order of the report: most minutes first *)
Definition heavier_first (a b : Query.DirectoryGroup) : Prop :=
  (Query.total_minutes b <= Query.total_minutes a)%Q.

(* error records in the order of their line numbers *)
Definition numbered_after (a b : LogParser.ParseError) : Prop :=
  (LogParser.line a < LogParser.line b)%nat.

(* an error record that reports the line of [done] it counts *)
Definition reports (JSON_parse : string -> LogParser.json + string)
    (done : list string) (err : LogParser.ParseError) : Prop :=
  (1 <= LogParser.line err <= List.length done)%nat
  /\ exists text,
       done !! (LogParser.line err - 1)%nat = Some text
       /\ LogParser.parseLine JSON_parse (LogParser.line err - 1) text = inr err.

(* what the loop of [parseLogFile] keeps true of [errors] after the lines [done] *)
Definition errors_inv (JSON_parse : string -> LogParser.json + string)
    (done : list string) (errs : list LogParser.ParseError) : Prop :=
  chained numbered_after errs /\ Forall (reports JSON_parse done) errs.

(* the text before the first bar *)
Fixpoint until_bar (s : list ascii) : list ascii :=
  match s with
  | [] => []
  | c :: s' => if Ascii.eqb c "|" then [] else c :: until_bar s'
  end.

Definition free_of (sep : ascii) (s : string) : Prop :=
  Forall (fun c => c <> sep) (String.list_ascii_of_string s).

(* a line of [git log --format=%H|%at|%an|%s] *)
Definition printed (hash time name subject : string) : string :=
  hash +:+ "|" +:+ time +:+ "|" +:+ name +:+ "|" +:+ subject.

(* a line of output: no newline inside, no white space at either end *)
Definition printable_line (l : string) : Prop :=
  free_of "010" l
  /\ (exists c, head (String.list_ascii_of_string l) = Some c /\ Regex.is_space c = false)
  /\ (exists c, last (String.list_ascii_of_string l) = Some c /\ Regex.is_space c = false).

(* lines joined by newlines *)
Fixpoint join_lines (lines : list string) : list ascii :=
  match lines with
  | [] => []
  | [l] => String.list_ascii_of_string l
  | l :: rest => String.list_ascii_of_string l ++ "010"%char :: join_lines rest
  end.

(* what git prints: every line ends with a newline *)
Definition git_output (lines : list string) : string :=
  String.string_of_list_ascii (join_lines lines ++ ["010"%char]).

(* a repository whose log holds two commits, the second with a bar in its
   subject *)
Definition two_lines : list string :=
  [printed "c0ffee" "1700000000" "Ada" "AB-12: fix login";
   printed "decaf0" "1700000060" "Bob" "a|b"].

(** The references between the tables that the schema declares as foreign
    keys to [sessions] and [git_commits]: every prompt row, every
    session-commit link and every issue link names a stored session, and
    every session-commit link a stored commit. *)
Definition refs_ok (t : Database.Tables) : Prop :=
  (forall row, row ∈ Database.prompts t ->
       is_Some (Database.sessions t !! Database.session_id row))
  /\ (forall sid hash, (sid, hash) ∈ Database.session_commits t ->
         is_Some (Database.sessions t !! sid)
         /\ is_Some (Database.git_commits t !! hash))
  /\ (forall sid key src, is_Some (Database.session_issues t !! (sid, key, src)) ->
         is_Some (Database.sessions t !! sid)).

(* the references hold and the session [sid] is stored *)
Definition refs_with (sid : string) (t : Database.Tables) : Prop :=
  refs_ok t /\ is_Some (Database.sessions t !! sid).

(** [table_triple P c Q R]: from tables that satisfy [P], the computation
    returns with tables that satisfy [Q] or throws with tables that satisfy
    [R]. *)
Definition table_triple {A} (P : Database.Tables -> Prop) (c : Processor.M A)
    (Q R : Database.Tables -> Prop) : Prop :=
  forall st, P (Processor.tables st) ->
    match c st with
    | (Processor.Ok _, st') => Q (Processor.tables st')
    | (Processor.Throw _, st') => R (Processor.tables st')
    end.

End Spec.

(* ===================================================================== *)
(** * Comparisons of numbers *)
(* ===================================================================== *)
Module NumberFacts.

Lemma Qgtb_true (a b : Q) : Qgtb a b = true <-> (b < a)%Q.
Proof.
  unfold Qgtb. rewrite (Qgt_alt a b).
  destruct (Qcompare a b); split; congruence.
Qed.

Lemma Qgtb_false (a b : Q) : Qgtb a b = false <-> (a <= b)%Q.
Proof.
  split; intros H.
  - apply Qnot_lt_le. intros Hlt. apply Qgtb_true in Hlt. congruence.
  - destruct (Qgtb a b) eqn:E; [|reflexivity].
    apply Qgtb_true in E. exfalso. exact (Qlt_not_le _ _ E H).
Qed.

End NumberFacts.

(* ===================================================================== *)
(** * Properties of the session builder *)
(* ===================================================================== *)
Module TimeCalculatorFacts.
Import TimeCalculator Spec NumberFacts.

Lemma chained_snoc {A} (R : A -> A -> Prop) (l : list A) (x : A) :
  chained R (l ++ [x]) <-> chained R l /\ (forall y, last l = Some y -> R y x).
Proof.
  induction l as [|a [|b l] IH]; simpl in *.
  - split; [intros _; split; [exact I | discriminate] | intros _; exact I].
  - split.
    + intros [H _]. split; [exact I | intros y [= <-]; exact H].
    + intros [_ H]. split; [apply H; reflexivity | exact I].
  - rewrite IH. clear IH. tauto.
Qed.

Lemma chained_middle {A} (R : A -> A -> Prop) (l1 l2 : list A) (a b : A) :
  chained R (l1 ++ a :: b :: l2) -> R a b.
Proof.
  induction l1 as [|x [|y l1] IH]; simpl; intros H.
  - apply H.
  - apply H.
  - apply IH. apply H.
Qed.

(* the comparison of the loop, in milliseconds, read in seconds *)
Lemma gap_exceeded (g : Q) (a b : Entry.LogEntry) :
  Qgtb (Entry.timestamp b * 1000 - Entry.timestamp a * 1000) (g * 60 * 1000) = true
  <-> beyond (g * 60) a b.
Proof.
  rewrite Qgtb_true. unfold beyond. split; intros H; lra.
Qed.

Lemma gap_kept (g : Q) (a b : Entry.LogEntry) :
  Qgtb (Entry.timestamp b * 1000 - Entry.timestamp a * 1000) (g * 60 * 1000) = false
  <-> within (g * 60) a b.
Proof.
  rewrite Qgtb_false. unfold within. split; intros H; lra.
Qed.

Section Builder.

Variable sha256_hex : string -> string.
Variable number_to_string : Q -> string.
Variable gapMinutes : Q.

#[local] Abbreviation inv := (loop_inv sha256_hex number_to_string gapMinutes).
#[local] Abbreviation body :=
  (loop_body sha256_hex number_to_string (gapMinutes * 60 * 1000)).

Lemma apart_extend (g1 g2 : list Entry.LogEntry) (p : Entry.LogEntry) :
  g2 <> [] -> apart (gapMinutes * 60) g1 g2 -> apart (gapMinutes * 60) g1 (g2 ++ [p]).
Proof.
  intros Hne H a b Ha Hb. apply H; [exact Ha|].
  destruct g2; [congruence | exact Hb].
Qed.

Lemma loop_body_inv (done : list Entry.LogEntry) (st : loop_state) (p : Entry.LogEntry) :
  inv done st -> inv (done ++ [p]) (body st p).
Proof.
  destruct st as [ss [c|]]; simpl.
  - intros (Hcat & Hss & [(p0 & ps & Hp0 & Hid) Hch] & Hopen & Hsep).
    destruct (Qgtb _ _) eqn:E; simpl.
    + (* the gap is exceeded: the session is closed and a new one starts *)
      repeat split.
      * rewrite map_app, concat_app. simpl. rewrite app_nil_r, Hcat. reflexivity.
      * apply Forall_app. split; [exact Hss|]. constructor; [|constructor].
        split; [split|]; simpl; eauto.
      * exists p, []. split; reflexivity.
      * intros a [= <-]. reflexivity.
      * rewrite map_app. simpl. rewrite <- app_assoc. simpl.
        change (map prompts ss ++ [prompts c; [p]])
          with (map prompts ss ++ [prompts c] ++ [[p]]).
        rewrite app_assoc. apply chained_snoc. split; [exact Hsep|].
        intros y Hy. rewrite last_snoc in Hy. injection Hy as <-.
        intros a b Ha [= <-]. apply gap_exceeded.
        rewrite <- (Hopen a Ha). exact E.
    + (* the entry joins the open session *)
      repeat split; simpl.
      * rewrite app_assoc, Hcat. reflexivity.
      * exact Hss.
      * exists p0, (ps ++ [p]). rewrite Hp0. split; [reflexivity | exact Hid].
      * apply chained_snoc. split; [exact Hch|].
        intros a Ha. apply gap_kept. rewrite <- (Hopen a Ha). exact E.
      * intros a Ha. simpl in Ha. rewrite last_snoc in Ha. injection Ha as <-. reflexivity.
      * apply chained_snoc in Hsep as [Hsep1 Hsep2].
        apply chained_snoc. split; [exact Hsep1|].
        intros y Hy. apply apart_extend; [rewrite Hp0; discriminate | auto].
  - intros [-> ->]. simpl. repeat split.
    + constructor.
    + exists p, []. split; reflexivity.
    + intros a [= <-]. reflexivity.
Qed.

Lemma fold_loop_inv (l done : list Entry.LogEntry) (st : loop_state) :
  inv done st -> inv (done ++ l) (fold_left body l st).
Proof.
  revert done st. induction l as [|p l IH]; intros done st H; simpl.
  - rewrite app_nil_r. exact H.
  - change (p :: l) with ([p] ++ l). rewrite app_assoc.
    apply IH. apply loop_body_inv. exact H.
Qed.

Lemma sort_by_time_nonempty (l : list Entry.LogEntry) :
  l <> [] -> sort_by_time l <> [].
Proof.
  destruct l as [|x l]; [congruence|]. intros _. simpl.
  destruct (sort_by_time l); simpl; [discriminate|].
  destruct (Qle_bool _ _); discriminate.
Qed.

Lemma groupSessions_nonempty (entries : list Entry.LogEntry) :
  entries <> [] ->
  groupSessions sha256_hex number_to_string entries gapMinutes
  = match fold_left body (sort_by_time entries) ([], None) with
    | (sessions, Some cur) => sessions ++ [finalizeLast cur]
    | (sessions, None) => sessions
    end.
Proof.
  destruct entries; [congruence|]. intros _. unfold groupSessions.
  destruct (fold_left _ _ _) as [ss [c|]]; reflexivity.
Qed.

(** The shape of the result: the sessions closed inside the loop, then the
    one finalized after it. *)
Lemma groupSessions_shape (entries : list Entry.LogEntry) :
  entries <> [] ->
  exists ss cur,
    groupSessions sha256_hex number_to_string entries gapMinutes
      = ss ++ [finalizeLast cur]
    /\ inv (sort_by_time entries) (ss, Some cur).
Proof.
  intros Hne. rewrite (groupSessions_nonempty _ Hne).
  pose proof (fold_loop_inv (sort_by_time entries) [] ([], None)
                (conj eq_refl eq_refl)) as H.
  rewrite app_nil_l in H.
  destruct (fold_left body (sort_by_time entries) ([], None)) as [ss [cur|]].
  - eauto.
  - destruct H as [_ H]. exfalso. exact (sort_by_time_nonempty _ Hne H).
Qed.



Lemma insert_by_time_perm (x : Entry.LogEntry) (l : list Entry.LogEntry) :
  Permutation (x :: l) (insert_by_time x l).
Proof.
  induction l as [|y l IH]; simpl; [reflexivity|].
  destruct (Qle_bool _ _); [reflexivity|].
  rewrite <- IH. apply perm_swap.
Qed.

Lemma sort_by_time_perm (l : list Entry.LogEntry) :
  Permutation l (sort_by_time l).
Proof.
  induction l as [|x l IH]; simpl; [reflexivity|].
  rewrite <- insert_by_time_perm. constructor. exact IH.
Qed.

(** The entries of the sessions, session after session, are the sorted
    input; every session is [good]; neighbouring sessions are [apart]. *)
Lemma groupSessions_groups (entries : list Entry.LogEntry) :
  let out := groupSessions sha256_hex number_to_string entries gapMinutes in
  concat (map prompts out) = sort_by_time entries
  /\ Forall (good sha256_hex number_to_string gapMinutes) out
  /\ chained (apart (gapMinutes * 60)) (map prompts out).
Proof.
  destruct entries as [|e0 es] eqn:Eq.
  - simpl. repeat split. constructor.
  - rewrite <- Eq. assert (Hne : entries <> []) by (rewrite Eq; discriminate).
    destruct (groupSessions_shape entries Hne)
      as (ss & cur & -> & Hcat & Hss & Hcur & _ & Hsep).
    simpl. rewrite map_app, concat_app. simpl. rewrite app_nil_r.
    split; [exact Hcat|]. split; [|exact Hsep].
    apply Forall_app. split.
    + eapply Forall_impl; [exact Hss|]. intros s [Hs _]. exact Hs.
    + constructor; [exact Hcur | constructor].
Qed.


End Builder.

(** C2 (evaluated on the scenario of the specification, gap 30 min): the
    session closed inside the loop spans 0 s to 600 s and gets
    [duration_minutes] 600/60000 = 0.01, not (600 - 0)/60 = 10; only the
    session finalized after the loop is divided by 60 alone. *)
Theorem C2_closed_session_duration (sha256_hex : string -> string)
    (number_to_string : Q -> string) :
  map (fun s => (start_time s, end_time s, duration_minutes s))
      (groupSessions sha256_hex number_to_string scenario 30)
  = [(0%Z, 600%Z, Some (600 # 60000)); (3600%Z, 3600%Z, Some (0 # 60))]
  /\ ~ (600 # 60000 == inject_Z (600 - 0) / 60)%Q.
Proof.
  split; [vm_compute; reflexivity|].
  intros H. vm_compute in H. discriminate H.
Qed.

(** C4: the identifier of every session returned by [groupSessions] is
    [generateSessionId] of the first entry of the session, and
    [generateSessionId] yields that same identifier for any entry that has
    the same timestamp, cwd and grouping key: nothing else enters the
    derivation. *)
Theorem C4_session_id_deterministic (sha256_hex : string -> string)
    (number_to_string : Q -> string) (entries : list Entry.LogEntry)
    (gapMinutes : Q) (s : Session) :
  In s (groupSessions sha256_hex number_to_string entries gapMinutes) ->
  exists p ps,
    prompts s = p :: ps
    /\ session_id s = generateSessionId sha256_hex number_to_string p
    /\ forall q,
         Entry.timestamp q = Entry.timestamp p ->
         Entry.cwd q = Entry.cwd p ->
         Entry.session_id q = Entry.session_id p ->
         generateSessionId sha256_hex number_to_string q = session_id s.
Proof.
  intros Hin.
  destruct (groupSessions_groups sha256_hex number_to_string gapMinutes entries)
    as (_ & Hgood & _).
  rewrite Forall_forall in Hgood. apply list_elem_of_In in Hin.
  destruct (Hgood s Hin) as [(p & ps & Hp & Hid) _].
  exists p, ps. repeat split; trivial.
  intros q Ht Hc Hk. rewrite Hid. unfold generateSessionId.
  rewrite Ht, Hc, Hk. reflexivity.
Qed.

Lemma C4_session_id_deterministic_witness :
  In scenario_first (groupSessions id_digest show_Q scenario 30)
  /\ exists p ps,
       prompts scenario_first = p :: ps
       /\ session_id scenario_first = generateSessionId id_digest show_Q p
       /\ forall q,
            Entry.timestamp q = Entry.timestamp p ->
            Entry.cwd q = Entry.cwd p ->
            Entry.session_id q = Entry.session_id p ->
            generateSessionId id_digest show_Q q = session_id scenario_first.
Proof.
  assert (H : In scenario_first (groupSessions id_digest show_Q scenario 30))
    by (vm_compute; left; reflexivity).
  split; [exact H|].
  exact (C4_session_id_deterministic id_digest show_Q scenario 30 scenario_first H).
Defined.

End TimeCalculatorFacts.

(* ===================================================================== *)
(** * The gap test of the session builder, in binary64 *)
(* ===================================================================== *)
Module GapFacts.
Import Number TimeCalculator64 Spec.
Import TimeCalculatorFacts.

(* a rounded number keeps the sign of what is rounded *)
Lemma binary_round_negative (m : positive) (e : Z) :
  gt (binary_round prec emax true m e) zero = false.
Proof.
  unfold binary_round, binary_round_aux.
  destruct (shl_align _ _ _) as [mz ez].
  destruct (shr_fexp _ _ _ _ _) as [mrs e'].
  destruct (shr_fexp _ _ _ _ _) as [mrs2 e2].
  destruct (shr_m mrs2); [reflexivity| |reflexivity].
  destruct (_ <=? _)%Z; reflexivity.
Qed.

(** When [a - b] is positive, [b - a] is not: the comparator of the sort
    never puts each of two entries after the other. *)
Lemma sub_positive_once (x y : num) :
  gt (sub x y) zero = true -> gt (sub y x) zero = false.
Proof.
  destruct x as [sx|sx| |sx mx ex]; destruct y as [sy|sy| |sy my ey];
    try (intros _; reflexivity); try discriminate;
    try (destruct sx; try destruct sy; simpl; (discriminate || reflexivity)).
  unfold sub, SFsub. rewrite (Z.min_comm ey ex).
  set (ez := Z.min ex ey).
  set (A := cond_Zopp sx (Z.pos (fst (shl_align mx ex ez)))).
  set (B := cond_Zopp sy (Z.pos (fst (shl_align my ey ez)))).
  replace (B - A)%Z with (- (A - B))%Z by lia.
  destruct (A - B)%Z as [|p|p]; simpl.
  - discriminate.
  - intros _. apply binary_round_negative.
  - rewrite binary_round_negative. discriminate.
Qed.

Lemma insert_by_time_in_order (x : Entry64.LogEntry) (l : list Entry64.LogEntry) :
  chained in_order l -> chained in_order (insert_by_time x l).
Proof.
  induction l as [|y l IH]; simpl; [trivial|].
  intros H. destruct (after x y) eqn:E.
  - assert (Hyx : in_order y x) by (apply sub_positive_once, E).
    destruct l as [|z l]; simpl in *.
    + split; [exact Hyx | exact I].
    + destruct H as [Hyz H]. specialize (IH H).
      destruct (after x z); simpl in *.
      * split; [exact Hyz | exact IH].
      * split; [exact Hyx | exact IH].
  - split; [exact E | exact H].
Qed.

Lemma sort_by_time_in_order (l : list Entry64.LogEntry) :
  chained in_order (sort_by_time l).
Proof.
  induction l as [|x l IH]; simpl; [exact I|].
  apply insert_by_time_in_order, IH.
Qed.

Lemma insert_by_time_perm64 (x : Entry64.LogEntry) (l : list Entry64.LogEntry) :
  Permutation (x :: l) (insert_by_time x l).
Proof.
  induction l as [|y l IH]; simpl; [reflexivity|].
  destruct (after x y); [|reflexivity].
  rewrite <- IH. apply perm_swap.
Qed.

Lemma sort_by_time_perm64 (l : list Entry64.LogEntry) :
  Permutation l (sort_by_time l).
Proof.
  induction l as [|x l IH]; simpl; [reflexivity|].
  rewrite <- insert_by_time_perm64. constructor. exact IH.
Qed.

Section Builder64.

Variable sha256_hex : string -> string.
Variable number_to_string : num -> string.
Variable gapMs : num.

#[local] Abbreviation inv := (loop_inv64 gapMs).
#[local] Abbreviation body := (loop_body sha256_hex number_to_string gapMs).

Lemma split_at_extend (g1 g2 : list Entry64.LogEntry) (p : Entry64.LogEntry) :
  g2 <> [] -> split_at gapMs g1 g2 -> split_at gapMs g1 (g2 ++ [p]).
Proof.
  intros Hne H a b Ha Hb. apply H; [exact Ha|].
  destruct g2; [congruence | exact Hb].
Qed.

Lemma loop_body_inv64 (done : list Entry64.LogEntry) (st : loop_state)
    (p : Entry64.LogEntry) :
  inv done st -> inv (done ++ [p]) (body st p).
Proof.
  destruct st as [ss [c|]]; simpl.
  - intros (Hcat & Hss & [Hne Hch] & Hopen & Hsep).
    destruct (gt _ _) eqn:E; simpl.
    + (* the test holds: the session is closed and a new one starts *)
      split; [|split; [|split; [|split]]].
      * rewrite map_app, concat_app. simpl. rewrite app_nil_r, Hcat. reflexivity.
      * apply Forall_app. split; [exact Hss|]. constructor; [|constructor].
        split; assumption.
      * split; [discriminate | exact I].
      * intros a [= <-]. reflexivity.
      * rewrite map_app. simpl. rewrite <- app_assoc. simpl.
        change (map prompts ss ++ [prompts c; [p]])
          with (map prompts ss ++ [prompts c] ++ [[p]]).
        rewrite app_assoc. apply chained_snoc. split; [exact Hsep|].
        intros y Hy. rewrite last_snoc in Hy. injection Hy as <-.
        intros a b Ha [= <-]. unfold gap_exceeded64.
        rewrite <- (Hopen a Ha). exact E.
    + (* the entry joins the open session *)
      split; [|split; [|split; [|split]]]; simpl.
      * rewrite app_assoc, Hcat. reflexivity.
      * exact Hss.
      * split; [cbn [prompts addPrompt]; destruct (prompts c); simpl; discriminate|].
        cbn [prompts addPrompt].
        apply chained_snoc. split; [exact Hch|].
        intros a Ha. unfold together, gap_exceeded64.
        rewrite <- (Hopen a Ha). exact E.
      * intros a Ha. simpl in Ha. rewrite last_snoc in Ha. injection Ha as <-.
        reflexivity.
      * apply chained_snoc in Hsep as [Hsep1 Hsep2].
        apply chained_snoc. split; [exact Hsep1|].
        intros y Hy. apply split_at_extend; [exact Hne | auto].
  - intros [-> ->]. simpl. split; [reflexivity|]. split; [constructor|].
    split; [split; [discriminate | exact I]|].
    split; [intros a [= <-]; reflexivity | exact I].
Qed.

Lemma fold_loop_inv64 (l done : list Entry64.LogEntry) (st : loop_state) :
  inv done st -> inv (done ++ l) (fold_left body l st).
Proof.
  revert done st. induction l as [|p l IH]; intros done st H; simpl.
  - rewrite app_nil_r. exact H.
  - change (p :: l) with ([p] ++ l). rewrite app_assoc.
    apply IH. apply loop_body_inv64. exact H.
Qed.

Lemma sort_by_time_nonempty64 (l : list Entry64.LogEntry) :
  l <> [] -> sort_by_time l <> [].
Proof.
  destruct l as [|x l]; [congruence|]. intros _. simpl.
  destruct (sort_by_time l); simpl; [discriminate|].
  destruct (after _ _); discriminate.
Qed.

End Builder64.

(** The entries of the sessions, session after session, are the sorted
    input; no session is empty; inside a session the test of the loop
    fails between neighbours, and it holds between neighbouring
    sessions. *)
Lemma groupSessions_groups64 (sha256_hex : string -> string)
    (number_to_string : num -> string) (entries : list Entry64.LogEntry)
    (gapMinutes : num) :
  let gapMs := mul (mul gapMinutes (of_Z 60)) (of_Z 1000) in
  let out := groupSessions sha256_hex number_to_string entries gapMinutes in
  concat (map prompts out) = sort_by_time entries
  /\ Forall (good64 gapMs) out
  /\ chained (split_at gapMs) (map prompts out).
Proof.
  intros gapMs out. unfold out. destruct entries as [|e0 es] eqn:Eq.
  - simpl. split; [reflexivity|]. split; [constructor | exact I].
  - rewrite <- Eq. assert (Hne : entries <> []) by (rewrite Eq; discriminate).
    assert (E : groupSessions sha256_hex number_to_string entries gapMinutes
                = match fold_left (loop_body sha256_hex number_to_string gapMs)
                          (sort_by_time entries) ([], None) with
                  | (sessions, Some cur) => sessions ++ [finalizeLast cur]
                  | (sessions, None) => sessions
                  end).
    { rewrite Eq. unfold groupSessions. fold gapMs.
      destruct (fold_left _ _ _) as [ss [c|]]; reflexivity. }
    rewrite E.
    pose proof (fold_loop_inv64 sha256_hex number_to_string gapMs
                  (sort_by_time entries) [] ([], None) (conj eq_refl eq_refl)) as H.
    rewrite app_nil_l in H.
    destruct (fold_left (loop_body sha256_hex number_to_string gapMs)
                (sort_by_time entries) ([], None)) as [ss [cur|]].
    + destruct H as (Hcat & Hss & Hcur & _ & Hsep).
      rewrite map_app, concat_app. simpl. rewrite app_nil_r.
      split; [exact Hcat|]. split; [|exact Hsep].
      apply Forall_app. split; [exact Hss|]. constructor; [exact Hcur | constructor].
    + destruct H as [_ H]. exfalso. exact (sort_by_time_nonempty64 _ Hne H).
Qed.

(** C3, as the code has it.  The gap is not measured on the timestamps but
    by the test of the loop, [gap_exceeded64]: timestamp times 1000, the
    difference of the two products and [gapMinutes * 60 * 1000], each
    rounded to binary64.  Inside every session returned by [groupSessions]
    that test fails between two neighbouring entries; it holds between the
    last entry of a session and the first entry of the next one; the
    entries of the sessions, read session after session, are the input in
    the order of the sort, which never has an entry before one that the
    comparator puts before it, and no session is empty; and entries at
    0 s, 600 s and 3600 s with a gap of 30 minutes give the two sessions
    [0, 600] and [3600]. *)
Theorem C3_gap_segmentation (sha256_hex : string -> string)
    (number_to_string : num -> string) (entries : list Entry64.LogEntry)
    (gapMinutes : num) :
  let out := groupSessions sha256_hex number_to_string entries gapMinutes in
  let gapMs := mul (mul gapMinutes (of_Z 60)) (of_Z 1000) in
  (forall s l1 a b l2,
      In s out -> prompts s = l1 ++ a :: b :: l2 ->
      gap_exceeded64 gapMs a b = false)
  /\ (forall o1 s1 s2 o2 a b,
        out = o1 ++ s1 :: s2 :: o2 ->
        last (prompts s1) = Some a -> head (prompts s2) = Some b ->
        gap_exceeded64 gapMs a b = true)
  /\ (concat (map prompts out) = sort_by_time entries
      /\ chained in_order (sort_by_time entries)
      /\ Permutation entries (sort_by_time entries)
      /\ Forall (fun s => prompts s <> []) out)
  /\ map prompts (groupSessions sha256_hex number_to_string scenario64 (of_Z 30))
     = [[entry64 (of_Z 0); entry64 (of_Z 600)]; [entry64 (of_Z 3600)]].
Proof.
  intros out gapMs.
  destruct (groupSessions_groups64 sha256_hex number_to_string entries gapMinutes)
    as (Hcat & Hgood & Hsep).
  fold out gapMs in Hcat, Hgood, Hsep.
  split; [|split; [|split]].
  - intros s l1 a b l2 Hin Hp.
    rewrite Forall_forall in Hgood. apply list_elem_of_In in Hin.
    destruct (Hgood s Hin) as [_ Hch]. rewrite Hp in Hch.
    exact (chained_middle _ _ _ _ _ Hch).
  - intros o1 s1 s2 o2 a b Hout Ha Hb.
    rewrite Hout, map_app in Hsep. simpl in Hsep.
    exact (chained_middle _ _ _ _ _ Hsep a b Ha Hb).
  - split; [exact Hcat|]. split; [apply sort_by_time_in_order|].
    split; [apply sort_by_time_perm64|].
    eapply Forall_impl; [exact Hgood|]. intros s [H _]. exact H.
  - vm_compute. reflexivity.
Qed.


Lemma C3_gap_segmentation_witness :
  gap_exceeded64 (mul (mul (of_Z 30) (of_Z 60)) (of_Z 1000))
    (entry64 (of_Z 0)) (entry64 (of_Z 600)) = false
  /\ gap_exceeded64 (mul (mul (of_Z 30) (of_Z 60)) (of_Z 1000))
       (entry64 (of_Z 600)) (entry64 (of_Z 3600)) = true.
Proof.
  pose proof (C3_gap_segmentation TimeCalculator.id_digest show_num scenario64 (of_Z 30))
    as (Hin & Hout & _).
  split.
  - apply (Hin scenario64_first [] (entry64 (of_Z 0)) (entry64 (of_Z 600)) []).
    + vm_compute. left. reflexivity.
    + reflexivity.
  - apply (Hout [] scenario64_first scenario64_second []).
    + vm_compute. reflexivity.
    + reflexivity.
    + reflexivity.
Defined.

(** C3 (counterexample): the timestamps 2048.2 and 3848.2 are binary64
    numbers exactly 1800 s apart, which is not more than 30 minutes, yet
    the two entries are put in two sessions: in milliseconds the products
    are rounded and their difference exceeds 1800000.  And the numbers
    written 0.2 and 1800.2 are more than 1800 s apart, yet the two entries
    are put in one session. *)
Lemma C3_gap_is_tested_after_rounding :
  (value (decimal 38482 1) - value (decimal 20482 1) == 30 * 60)%Q
  /\ map prompts
       (groupSessions TimeCalculator.id_digest show_num
          [entry64 (decimal 20482 1); entry64 (decimal 38482 1)] (of_Z 30))
     = [[entry64 (decimal 20482 1)]; [entry64 (decimal 38482 1)]]
  /\ (30 * 60 < value (decimal 18002 1) - value (decimal 2 1))%Q
  /\ map prompts
       (groupSessions TimeCalculator.id_digest show_num
          [entry64 (decimal 2 1); entry64 (decimal 18002 1)] (of_Z 30))
     = [[entry64 (decimal 2 1); entry64 (decimal 18002 1)]].
Proof.
  split; [vm_compute; reflexivity|].
  split; [vm_compute; reflexivity|].
  split; [vm_compute; reflexivity|].
  vm_compute. reflexivity.
Qed.

(** X4: when the test of the loop fails for every two input entries (in
    particular when they all carry the same timestamp and the gap is not
    negative), a non-empty input yields exactly one session, which holds
    all the entries in the order of the sort. *)
Theorem one_burst_one_session (sha256_hex : string -> string)
    (number_to_string : num -> string) (gapMinutes : num)
    (entries : list Entry64.LogEntry) :
  entries <> [] ->
  (forall a b, In a entries -> In b entries ->
               gap_exceeded64 (mul (mul gapMinutes (of_Z 60)) (of_Z 1000)) a b = false) ->
  exists s,
    groupSessions sha256_hex number_to_string entries gapMinutes = [s]
    /\ prompts s = sort_by_time entries.
Proof.
  intros Hne Hgap.
  destruct (groupSessions_groups64 sha256_hex number_to_string entries gapMinutes)
    as (Hcat & Hgood & Hsep).
  destruct (groupSessions sha256_hex number_to_string entries gapMinutes)
    as [|s1 [|s2 out]] eqn:Eo.
  - exfalso. simpl in Hcat. symmetry in Hcat.
    exact (sort_by_time_nonempty64 entries Hne Hcat).
  - exists s1. split; [reflexivity|]. rewrite <- Hcat. simpl. symmetry. apply app_nil_r.
  - exfalso. simpl in Hsep. destruct Hsep as [Hsep _].
    inversion Hgood as [|? ? [Hp1 _] Hgood']; subst.
    inversion Hgood' as [|? ? [Hp2 _] _]; subst.
    destruct (last (prompts s1)) as [a|] eqn:Hl;
      [|apply last_None in Hl; contradiction].
    destruct (prompts s2) as [|p2 ps2] eqn:E2; [contradiction|].
    specialize (Hsep a p2 Hl eq_refl).
    assert (Hin : forall x, x ∈ concat (map prompts (s1 :: s2 :: out)) -> In x entries).
    { intros x Hx. rewrite Hcat in Hx. apply list_elem_of_In.
      rewrite (sort_by_time_perm64 entries). exact Hx. }
    assert (Ha : In a entries).
    { apply Hin. simpl. apply elem_of_app. left.
      apply last_Some in Hl as [l' ->]. apply elem_of_app. right. left. }
    assert (Hp : In p2 entries).
    { apply Hin. simpl. apply elem_of_app. right. apply elem_of_app. left.
      rewrite E2. left. }
    exact (eq_true_false_abs _ Hsep (Hgap a p2 Ha Hp)).
Qed.

Lemma one_burst_one_session_witness :
  same_second64 <> []
  /\ exists s,
       groupSessions TimeCalculator.id_digest show_num same_second64 (of_Z 0) = [s]
       /\ prompts s = sort_by_time same_second64.
Proof.
  assert (H : same_second64 <> []) by discriminate.
  split; [exact H|].
  apply (one_burst_one_session TimeCalculator.id_digest show_num (of_Z 0)
           same_second64 H).
  intros a b [<-|[<-|[]]] [<-|[<-|[]]]; vm_compute; reflexivity.
Defined.

End GapFacts.

(* ===================================================================== *)
(** * Properties of the issue extractor *)
(* ===================================================================== *)
Module IssueExtractorFacts.
Import Regex IssueExtractor Spec NumberFacts.

(** C7 (evaluated): without custom patterns the branch
    "feature/PROJ-123-fix" yields no issue at all, because the default
    pattern admits at most three letters before the hyphen and needs a word
    boundary in front of them; a key of three letters in the same place is
    extracted, in upper case. *)
Theorem C7_branch_four_letter_key :
  extractFromBranch (Some "feature/PROJ-123-fix") [] = []
  /\ extractFromBranch (Some "feature/pro-123-fix") []
     = [{| issueKey := "PRO-123"; source := "branch"; confidence := 1 |}].
Proof. split; vm_compute; reflexivity. Qed.

(** C8 (evaluated): without custom patterns the path "/home/u/TASK-7/app"
    yields no issue, because the segment has four letters before the
    hyphen; "/home/u/TASK-7x/app" yields none either; a segment with a key
    of three letters is extracted, and not when other characters follow the
    digits inside the segment. *)
Theorem C8_path_four_letter_key :
  extractFromPath (Some "/home/u/TASK-7/app") [] = []
  /\ extractFromPath (Some "/home/u/TASK-7x/app") [] = []
  /\ extractFromPath (Some "/home/u/TAS-7/app") []
     = [{| issueKey := "TAS-7"; source := "directory"; confidence := 1 # 2 |}]
  /\ extractFromPath (Some "/home/u/TAS-7x/app") [] = [].
Proof. repeat split; vm_compute; reflexivity. Qed.

Lemma fold_left_concat_map {A B C} (f : A -> B -> A) (g : C -> list B)
    (l : list C) (a : A) :
  fold_left f (concat (map g l)) a = fold_left (fun a x => fold_left f (g x) a) l a.
Proof.
  revert a. induction l as [|x l IH]; intros a; simpl; [reflexivity|].
  rewrite fold_left_app. apply IH.
Qed.

Lemma extractFromBranch_falsy (b : option string) (ps : list regex) :
  truthy b = false -> extractFromBranch b ps = [].
Proof. intros H. unfold extractFromBranch. rewrite H. reflexivity. Qed.

Lemma extractFromPrompt_falsy (b : option string) (ps : list regex) :
  truthy b = false -> extractFromPrompt b ps = [].
Proof. intros H. unfold extractFromPrompt. rewrite H. reflexivity. Qed.

Lemma extractFromPath_falsy (b : option string) (ps : list regex) :
  truthy b = false -> extractFromPath b ps = [].
Proof. intros H. unfold extractFromPath. rewrite H. reflexivity. Qed.

Lemma fold_left_ext2 {A B} (f g : A -> B -> A) (l : list B) (a b : A) :
  (forall a x, f a x = g a x) -> a = b -> fold_left f l a = fold_left g l b.
Proof.
  intros Hfg <-. revert a. induction l as [|x l IH]; intros a; simpl;
    [reflexivity|].
  rewrite Hfg. apply IH.
Qed.

(** [extractFromSession] folds [updateIssueMap] over [issueStream]. *)
Lemma extractFromSession_stream (session : TimeCalculator.Session)
    (commits : list GitAnalyzer.Commit) (patterns : list regex) :
  extractFromSession session commits patterns
  = map snd (fold_left updateIssueMap (issueStream session commits patterns) []).
Proof.
  unfold extractFromSession, issueStream. f_equal.
  rewrite !fold_left_app, !fold_left_concat_map.
  apply fold_left_ext2.
  - intros m p. rewrite fold_left_app.
    destruct (truthy (Entry.prompt_preview p)) eqn:E1;
      destruct (truthy (Entry.cwd p)) eqn:E2;
      rewrite ?(extractFromPrompt_falsy _ _ E1), ?(extractFromPath_falsy _ _ E2);
      reflexivity.
  - apply fold_left_ext2; [reflexivity|].
    destruct (TimeCalculator.prompts session) as [|p0 ps]; [reflexivity|].
    destruct (truthy (Entry.git_branch p0)) eqn:E; [reflexivity|].
    rewrite (extractFromBranch_falsy _ _ E). reflexivity.
Qed.

Lemma map_get_set (m : issueMap) (k k' : string) (v : Issue) :
  map_get (map_set m k v) k' = if String.eqb k k' then Some v else map_get m k'.
Proof.
  induction m as [|[k0 v0] m IH]; simpl.
  - destruct (String.eqb k k'); reflexivity.
  - destruct (String.eqb_spec k0 k) as [->|Hne]; simpl.
    + destruct (String.eqb k k'); reflexivity.
    + rewrite IH. destruct (String.eqb_spec k0 k') as [->|Hne'].
      * apply not_eq_sym in Hne. apply String.eqb_neq in Hne. rewrite Hne. reflexivity.
      * reflexivity.
Qed.

Lemma map_get_alter (f : Issue -> Issue) (m : issueMap) (k k' : string) :
  map_get (map_alter f m k) k'
  = if String.eqb k k' then f <$> map_get m k' else map_get m k'.
Proof.
  induction m as [|[k0 v0] m IH]; simpl.
  - destruct (String.eqb k k'); reflexivity.
  - destruct (String.eqb_spec k0 k) as [->|Hne]; simpl.
    + destruct (String.eqb k k'); reflexivity.
    + rewrite IH. destruct (String.eqb_spec k0 k') as [->|Hne'].
      * apply not_eq_sym in Hne. apply String.eqb_neq in Hne. rewrite Hne. reflexivity.
      * reflexivity.
Qed.

(** [updateIssueMap] acts on the record of the key of the issue, as
    [resolve] says, and on no other. *)
Lemma map_get_update (m : issueMap) (i : Issue) (k : string) :
  map_get (updateIssueMap m i) k
  = if String.eqb (issueKey i) k then resolve (map_get m k) i else map_get m k.
Proof.
  unfold updateIssueMap, resolve.
  destruct (String.eqb_spec (issueKey i) k) as [<-|Hne].
  - destruct (map_get m (issueKey i)) as [ex|] eqn:Eg.
    + destruct (Qgtb _ _).
      * rewrite map_get_set, String.eqb_refl. reflexivity.
      * destruct (Qeq_bool _ _).
        -- rewrite map_get_alter, String.eqb_refl, Eg. reflexivity.
        -- exact Eg.
    + rewrite map_get_set, String.eqb_refl. reflexivity.
  - apply String.eqb_neq in Hne.
    destruct (map_get m (issueKey i)) as [ex|].
    + destruct (Qgtb _ _).
      * rewrite map_get_set, Hne. reflexivity.
      * destruct (Qeq_bool _ _); [|reflexivity].
        rewrite map_get_alter, Hne. reflexivity.
    + rewrite map_get_set, Hne. reflexivity.
Qed.

Lemma map_get_fold (l : list Issue) (m : issueMap) (k : string) :
  map_get (fold_left updateIssueMap l m) k
  = fold_left resolve (occurrences k l) (map_get m k).
Proof.
  revert m. induction l as [|i l IH]; intros m; simpl; [reflexivity|].
  rewrite IH, map_get_update. unfold occurrences.
  destruct (String.eqb_spec (issueKey i) k) as [E|E].
  - rewrite filter_cons_True by exact E. reflexivity.
  - rewrite filter_cons_False by exact E. reflexivity.
Qed.

Lemma map_set_keys (m : issueMap) (k : string) (v : Issue) :
  map fst (map_set m k v)
  = if existsb (String.eqb k) (map fst m) then map fst m else map fst m ++ [k].
Proof.
  induction m as [|[k0 v0] m IH]; simpl; [reflexivity|].
  destruct (String.eqb_spec k0 k) as [->|Hne]; simpl.
  - rewrite String.eqb_refl. reflexivity.
  - rewrite IH. apply not_eq_sym in Hne. apply String.eqb_neq in Hne. rewrite Hne.
    simpl. destruct (existsb _ _); reflexivity.
Qed.

Lemma map_alter_keys (f : Issue -> Issue) (m : issueMap) (k : string) :
  map fst (map_alter f m k) = map fst m.
Proof.
  induction m as [|[k0 v0] m IH]; simpl; [reflexivity|].
  destruct (String.eqb k0 k); simpl; [reflexivity|]. rewrite IH. reflexivity.
Qed.

Lemma existsb_eqb_false (k : string) (l : list string) :
  existsb (String.eqb k) l = false -> k ∉ l.
Proof.
  induction l as [|x l IH]; simpl; intros H Hin.
  - inversion Hin.
  - apply orb_false_iff in H as [H1 H2]. apply String.eqb_neq in H1.
    inversion Hin; subst; [congruence | exact (IH H2 ltac:(assumption))].
Qed.

Lemma map_set_ok (m : issueMap) (v : Issue) :
  map_ok m -> map_ok (map_set m (issueKey v) v).
Proof.
  intros [Hnd Hk]. split.
  - rewrite map_set_keys. destruct (existsb _ _) eqn:E; [exact Hnd|].
    apply NoDup_app. split; [exact Hnd|]. split.
    + intros x Hx Hx'. apply list_elem_of_singleton in Hx'. subst.
      exact (existsb_eqb_false _ _ E Hx).
    + apply NoDup_singleton.
  - clear Hnd. induction m as [|[k0 v0] m IH]; simpl.
    + constructor; [reflexivity | constructor].
    + inversion Hk; subst.
      destruct (String.eqb k0 (issueKey v)); constructor; auto.
Qed.

Lemma map_alter_ok (f : Issue -> Issue) (m : issueMap) (k : string) :
  (forall v, issueKey (f v) = issueKey v) -> map_ok m -> map_ok (map_alter f m k).
Proof.
  intros Hf [Hnd Hk]. split.
  - rewrite map_alter_keys. exact Hnd.
  - clear Hnd. induction m as [|[k0 v0] m IH]; simpl; [constructor|].
    inversion Hk; subst. simpl in *.
    destruct (String.eqb k0 k); constructor; simpl; auto.
    rewrite Hf. assumption.
Qed.

Lemma updateIssueMap_ok (m : issueMap) (i : Issue) :
  map_ok m -> map_ok (updateIssueMap m i).
Proof.
  intros H. unfold updateIssueMap.
  destruct (map_get m (issueKey i)); [|apply map_set_ok, H].
  destruct (Qgtb _ _); [apply map_set_ok, H|].
  destruct (Qeq_bool _ _); [|exact H].
  apply map_alter_ok; [reflexivity | exact H].
Qed.

Lemma fold_updateIssueMap_ok (l : list Issue) (m : issueMap) :
  map_ok m -> map_ok (fold_left updateIssueMap l m).
Proof.
  revert m. induction l as [|i l IH]; intros m H; simpl; [exact H|].
  apply IH, updateIssueMap_ok, H.
Qed.

Lemma map_get_absent (m : issueMap) (k : string) :
  k ∉ map fst m -> map_get m k = None.
Proof.
  induction m as [|[k0 v0] m IH]; simpl; intros H; [reflexivity|].
  destruct (String.eqb_spec k0 k) as [->|Hne].
  - exfalso. apply H. left.
  - apply IH. intros Hin. apply H. right. exact Hin.
Qed.

(** In a well-formed map the values that carry the key [k] are the record
    bound to [k], if any. *)
Lemma values_of_key (m : issueMap) (k : string) :
  map_ok m ->
  occurrences k (map snd m)
  = match map_get m k with Some v => [v] | None => [] end.
Proof.
  unfold occurrences. intros [Hnd Hk].
  induction m as [|[k0 v0] m IH]; simpl in *; [reflexivity|].
  inversion Hnd as [|? ? Hnotin Hnd']; subst. inversion Hk as [|? ? Hv Hk']; subst.
  simpl in Hv. destruct (String.eqb_spec k0 k) as [->|Hne].
  - rewrite filter_cons_True by exact Hv.
    rewrite (IH Hnd' Hk'), (map_get_absent _ _ Hnotin). reflexivity.
  - rewrite filter_cons_False by congruence. apply (IH Hnd' Hk').
Qed.

Lemma string_app_assoc (a b c : string) : (a +:+ b) +:+ c = a +:+ (b +:+ c).
Proof.
  induction a as [|x a IH]; [reflexivity|].
  change (String x ((a +:+ b) +:+ c) = String x (a +:+ (b +:+ c))).
  f_equal. exact IH.
Qed.

Lemma concat_snoc (sep : string) (xs : list string) (y : string) :
  xs <> [] -> String.concat sep (xs ++ [y]) = String.concat sep xs +:+ sep +:+ y.
Proof.
  induction xs as [|x [|x' xs] IH]; intros Hne; [congruence | reflexivity |].
  change (String.concat sep ((x :: x' :: xs) ++ [y]))
    with (x +:+ sep +:+ String.concat sep ((x' :: xs) ++ [y])).
  rewrite IH by discriminate.
  change (String.concat sep (x :: x' :: xs))
    with (x +:+ sep +:+ String.concat sep (x' :: xs)).
  rewrite !string_app_assoc. reflexivity.
Qed.

Lemma tied_none (r : Issue) (l : list Issue) :
  (forall i, i ∈ l -> (confidence i < confidence r)%Q) -> tied r l = [].
Proof.
  unfold tied. induction l as [|x l IH]; intros H; [reflexivity|].
  rewrite filter_cons_False.
  - apply IH. intros i Hi. apply H. right. exact Hi.
  - intros E. apply Qeq_bool_iff in E.
    assert (Hx : (confidence x < confidence r)%Q) by (apply H; left).
    rewrite E in Hx. exact (Qlt_irrefl _ Hx).
Qed.

(** What the record of one key is after the occurrences [l] of the key: its
    confidence is the highest of [l], and its source lists, comma-joined
    and in order, the sources of the occurrences that have it. *)
Lemma resolve_fold (l : list Issue) :
  l <> [] ->
  exists r,
    fold_left resolve l None = Some r
    /\ (forall i, i ∈ l -> (confidence i <= confidence r)%Q)
    /\ (exists i, i ∈ l /\ confidence i = confidence r /\ issueKey i = issueKey r)
    /\ source r = String.concat "," (map source (tied r l)).
Proof.
  induction l as [|i l IH] using rev_ind; [congruence|]. intros _.
  rewrite fold_left_app. simpl.
  destruct l as [|i0 l0] eqn:El.
  - (* the first occurrence *)
    simpl. exists i. split; [reflexivity|]. split; [|split].
    + intros j Hj. apply list_elem_of_singleton in Hj. subst. apply Qle_refl.
    + exists i. split; [left | split; reflexivity].
    + unfold tied. rewrite filter_cons_True by (apply Qeq_bool_iff; reflexivity).
      reflexivity.
  - rewrite <- El in *. assert (Hne : l <> []) by (rewrite El; discriminate).
    destruct (IH Hne) as (r' & -> & Hmax & (w & Hw & Hwc & Hwk) & Hsrc).
    clear IH El. simpl.
    destruct (Qgtb (confidence i) (confidence r')) eqn:Egt.
    + (* strictly higher: the new occurrence replaces the record *)
      apply Qgtb_true in Egt.
      exists i. split; [reflexivity|]. split; [|split].
      * intros j Hj. apply elem_of_app in Hj as [Hj|Hj].
        -- apply Qlt_le_weak. eapply Qle_lt_trans; [apply Hmax, Hj | exact Egt].
        -- apply list_elem_of_singleton in Hj. subst. apply Qle_refl.
      * exists i. split; [apply elem_of_app; right; left | split; reflexivity].
      * unfold tied. rewrite filter_app.
        fold (tied i l). rewrite tied_none.
        -- rewrite filter_cons_True by (apply Qeq_bool_iff; reflexivity). reflexivity.
        -- intros j Hj. eapply Qle_lt_trans; [apply Hmax, Hj | exact Egt].
    + apply Qgtb_false in Egt.
      destruct (Qeq_bool (confidence i) (confidence r')) eqn:Eeq.
      * (* a tie: the source of the occurrence is appended *)
        eexists. split; [reflexivity|]. simpl. split; [|split].
        -- intros j Hj. apply elem_of_app in Hj as [Hj|Hj]; [apply Hmax, Hj|].
           apply list_elem_of_singleton in Hj. subst. exact Egt.
        -- exists w. split; [apply elem_of_app; left; exact Hw | split; assumption].
        -- unfold tied in *. simpl. rewrite filter_app, map_app.
           rewrite (filter_cons_True _ i) by exact Eeq. simpl.
           rewrite concat_snoc.
           ++ rewrite <- Hsrc. reflexivity.
           ++ intros Hnil. apply map_eq_nil in Hnil.
              apply (filter_nil_not_elem_of _ _ w Hnil); [|exact Hw].
              apply Qeq_bool_iff. rewrite Hwc. reflexivity.
      * (* lower: the record stays *)
        exists r'. split; [reflexivity|]. split; [|split].
        -- intros j Hj. apply elem_of_app in Hj as [Hj|Hj]; [apply Hmax, Hj|].
           apply list_elem_of_singleton in Hj. subst. exact Egt.
        -- exists w. split; [apply elem_of_app; left; exact Hw | split; assumption].
        -- unfold tied in *. rewrite filter_app.
           rewrite (filter_cons_False _ i) by (rewrite Eeq; discriminate).
           simpl. rewrite app_nil_r. exact Hsrc.
Qed.

(** C5: when a key occurs among the issues [extractFromSession] collects
    from the branch, the commits, the previews and the directories, the
    result holds exactly one record for the key; no occurrence has a higher
    confidence than the record, one occurrence has exactly its confidence
    (the strictly higher one wins, and the value is kept as it is), and the
    source of the record is the comma-joined list of the sources of the
    occurrences that have that confidence. *)
Theorem C5_conflict_policy (session : TimeCalculator.Session)
    (commits : list GitAnalyzer.Commit) (patterns : list regex) (k : string) :
  let occ := occurrences k (issueStream session commits patterns) in
  occ <> [] ->
  exists r,
    occurrences k (extractFromSession session commits patterns) = [r]
    /\ (forall i, In i occ -> (confidence i <= confidence r)%Q)
    /\ (exists i, In i occ /\ confidence i = confidence r)
    /\ source r = String.concat "," (map source (tied r occ)).
Proof.
  intros occ Hocc.
  destruct (resolve_fold occ Hocc) as (r & Hr & Hmax & (w & Hw & Hwc & _) & Hsrc).
  exists r. split; [|split; [|split]].
  - rewrite extractFromSession_stream, values_of_key
      by (apply fold_updateIssueMap_ok; split; constructor).
    rewrite map_get_fold. simpl. fold occ. rewrite Hr. reflexivity.
  - intros i Hi. apply Hmax, list_elem_of_In, Hi.
  - exists w. split; [apply list_elem_of_In, Hw | exact Hwc].
  - exact Hsrc.
Qed.

Lemma C5_conflict_policy_witness :
  occurrences "AB-12" (issueStream branch_and_prompt [commit_AB12] []) <> []
  /\ exists r,
       occurrences "AB-12" (extractFromSession branch_and_prompt [commit_AB12] []) = [r]
       /\ (forall i,
             In i (occurrences "AB-12" (issueStream branch_and_prompt [commit_AB12] [])) ->
             (confidence i <= confidence r)%Q)
       /\ (exists i,
             In i (occurrences "AB-12" (issueStream branch_and_prompt [commit_AB12] []))
             /\ confidence i = confidence r)
       /\ source r
          = String.concat ","
              (map source
                 (tied r (occurrences "AB-12"
                            (issueStream branch_and_prompt [commit_AB12] [])))).
Proof.
  assert (H : occurrences "AB-12" (issueStream branch_and_prompt [commit_AB12] []) <> [])
    by (vm_compute; discriminate).
  split; [exact H|].
  exact (C5_conflict_policy branch_and_prompt [commit_AB12] [] "AB-12" H).
Defined.

(** The two cases of the policy on a concrete session: the branch (1.0)
    beats the preview (0.7); the branch and a commit (both 1.0) are merged
    into one record with source "branch,commit" and confidence 1.0. *)
Example conflict_policy_examples :
  extractFromSession branch_and_prompt [] []
  = [{| issueKey := "AB-12"; source := "branch"; confidence := 1 |}]
  /\ extractFromSession branch_and_prompt [commit_AB12] []
     = [{| issueKey := "AB-12"; source := "branch,commit"; confidence := 1 |}].
Proof. split; vm_compute; reflexivity. Qed.

Lemma pushNew_labelled (src : string) (conf : Q) (res : list Issue) (key : string) :
  Forall (labelled src conf) res -> Forall (labelled src conf) (pushNew src conf res key).
Proof.
  intros H. unfold pushNew. destruct (existsb _ _); [exact H|].
  apply Forall_app. split; [exact H|]. constructor; [split; reflexivity | constructor].
Qed.

Lemma fold_pushNew_labelled {A} (src : string) (conf : Q) (f : A -> string)
    (ms : list A) (res : list Issue) :
  Forall (labelled src conf) res ->
  Forall (labelled src conf) (fold_left (fun res' m => pushNew src conf res' (f m)) ms res).
Proof.
  revert res. induction ms as [|m ms IH]; intros res H; simpl; [exact H|].
  apply IH, pushNew_labelled, H.
Qed.

Lemma customPatterns_labelled (src : string) (conf : Q) (text : string)
    (patterns : list regex) (res : list Issue) :
  Forall (labelled src conf) res ->
  Forall (labelled src conf) (customPatterns src conf text patterns res).
Proof.
  unfold customPatterns. revert res.
  induction patterns as [|p ps IH]; intros res H; simpl; [exact H|].
  apply IH, fold_pushNew_labelled, H.
Qed.

Lemma extractFromBranch_labelled (b : option string) (ps : list regex) :
  Forall (labelled "branch" 1) (extractFromBranch b ps).
Proof.
  unfold extractFromBranch. destruct (negb _); [constructor|].
  apply customPatterns_labelled.
  destruct (exec _ _); [|constructor].
  constructor; [split; reflexivity | constructor].
Qed.

Lemma extractFromCommitMessage_labelled (m : option string) (ps : list regex) :
  Forall (labelled "commit" 1) (extractFromCommitMessage m ps).
Proof.
  unfold extractFromCommitMessage. destruct (negb _); [constructor|].
  apply customPatterns_labelled.
  assert (H0 : Forall (labelled "commit" 1) (@nil Issue)) by constructor.
  revert H0. generalize (@nil Issue).
  induction commitPatterns as [|p cps IH]; intros res H; simpl; [exact H|].
  apply IH, fold_pushNew_labelled, H.
Qed.

Lemma extractFromPrompt_labelled (t : option string) (ps : list regex) :
  Forall (labelled "prompt" (7 # 10)) (extractFromPrompt t ps).
Proof.
  unfold extractFromPrompt. destruct (negb _); [constructor|].
  apply customPatterns_labelled, fold_pushNew_labelled. constructor.
Qed.

Lemma extractFromPath_labelled (t : option string) (ps : list regex) :
  Forall (labelled "directory" (1 # 2)) (extractFromPath t ps).
Proof.
  unfold extractFromPath. destruct (negb _); [constructor|].
  apply customPatterns_labelled, fold_pushNew_labelled. constructor.
Qed.

(** Every issue handed to [updateIssueMap] carries one of the four source
    labels, with the confidence fixed for it. *)
Lemma issueStream_sources (session : TimeCalculator.Session)
    (commits : list GitAnalyzer.Commit) (patterns : list regex) (i : Issue) :
  i ∈ issueStream session commits patterns -> from_a_source i.
Proof.
  unfold issueStream, from_a_source. intros H.
  apply elem_of_app in H as [H|H]; [|apply elem_of_app in H as [H|H]].
  - left. destruct (TimeCalculator.prompts session) as [|p0 ps]; [inversion H|].
    pose proof (extractFromBranch_labelled (Entry.git_branch p0) patterns) as F.
    rewrite Forall_forall in F. exact (F i H).
  - right. left. apply list_elem_of_In, in_concat in H as (l & Hl & Hi).
    apply in_map_iff in Hl as (c & <- & _).
    pose proof (extractFromCommitMessage_labelled
                  (Some (GitAnalyzer.message c)) patterns) as F.
    rewrite Forall_forall in F. apply F, list_elem_of_In, Hi.
  - right. right. apply list_elem_of_In, in_concat in H as (l & Hl & Hi).
    apply in_map_iff in Hl as (p & <- & _).
    apply list_elem_of_In, elem_of_app in Hi as [Hi|Hi].
    + left. pose proof (extractFromPrompt_labelled (Entry.prompt_preview p) patterns) as F.
      rewrite Forall_forall in F. exact (F i Hi).
    + right. pose proof (extractFromPath_labelled (Entry.cwd p) patterns) as F.
      rewrite Forall_forall in F. exact (F i Hi).
Qed.






End IssueExtractorFacts.

(* ===================================================================== *)
(** * Properties of the orchestrator *)
(* ===================================================================== *)
Module ProcessorFacts.
Import Processor Spec.

#[local] Notation "c ;;; k" := (bind c (fun _ => k))
  (at level 100, k at level 200, right associativity).





(** The call of [db.transaction] throws, whatever the callback is. *)
Lemma transaction_throws (body : M unit) : throws (transaction body).
Proof. intros st. unfold transaction, throw. eauto. Qed.

Section PerFile.

Variable env : Env.
Variable config : Config.

(** The [try] block on a file that is not in the ledger and has entries:
    the counters, the call of [db.transaction], then the ledger, then the
    move. *)
Lemma tryFile_entries (logFile : string) (st : State)
    (entries : list Entry.LogEntry) (errs : list LogParser.ParseError) :
  Database.checkProcessed logFile (tables st) = false ->
  parseLogFile env logFile = Some (entries, errs) ->
  entries <> [] ->
  tryFile env config logFile st
  = (transaction (forEach (allSessionsOf env config entries) (persistSession env config)) ;;;
     run (Database.insertLog logFile
            {| Database.entries_count := List.length entries;
               Database.sessions_created :=
                 List.length (allSessionsOf env config entries);
               Database.errors_count := List.length errs |}) ;;;
     (if renameSync env logFile then ret tt
      else throw ("rename failed: " +:+ logFile)) ;;;
     ret Archived)
      (counted (List.length entries)
               (List.length (allSessionsOf env config entries))
               (List.length errs) st).
Proof.
  intros Hc Hp Hne. unfold tryFile. rewrite Hc, Hp.
  destruct entries as [|e es]; [congruence|]. reflexivity.
Qed.

Lemma keeps_ret {A X} (f : Database.Tables -> X) (a : A) : keeps f (ret a).
Proof. intros st. reflexivity. Qed.

Lemma keeps_counts {X} (f : Database.Tables -> X) (a b c d e : nat) :
  keeps f (update (add_counts a b c d e)).
Proof. intros st. reflexivity. Qed.

Lemma keeps_bind {A B X} (f : Database.Tables -> X) (c : M A) (k : A -> M B) :
  keeps f c -> (forall a, keeps f (k a)) -> keeps f (bind c k).
Proof.
  intros Hc Hk st. unfold bind. specialize (Hc st).
  destruct (c st) as [[a|msg] st1]; simpl in *.
  - rewrite (Hk a st1). exact Hc.
  - exact Hc.
Qed.

Lemma keeps_forEach {A X} (f : Database.Tables -> X) (xs : list A) (body : A -> M unit) :
  (forall x, keeps f (body x)) -> keeps f (forEach xs body).
Proof.
  intros H. induction xs as [|x xs IH]; simpl.
  - apply keeps_ret.
  - apply keeps_bind; [apply H | intros _; exact IH].
Qed.

Lemma keeps_run {X} (f : Database.Tables -> X) (stmt : Database.statement) :
  (forall fk t t', stmt fk t = inl t' -> f t' = f t) -> keeps f (run stmt).
Proof.
  intros H st. unfold run.
  destruct (io_budget st) as [[|n]|]; [reflexivity| |];
    destruct (stmt (foreign_keys st) (tables st)) as [t'|msg] eqn:E;
    simpl; eauto.
Qed.

(* the five statements of the callback, on the part [f] of the tables *)
Ltac statement_keeps :=
  intros;
  match goal with H : _ = inl _ |- _ => revert H end;
  unfold Database.insertSession, Database.insertPrompt, Database.insertCommit,
    Database.insertSessionCommit, Database.insertSessionIssue;
  repeat match goal with
         | |- context [match ?x with _ => _ end] => destruct x
         end;
  intros [= <-]; reflexivity.

(** No statement of [persistSession] writes to the ledger. *)
Lemma persistSession_keeps_ledger (session : TimeCalculator.Session) :
  keeps Database.processing_log (persistSession env config session).
Proof.
  unfold persistSession.
  apply keeps_bind; [apply keeps_run; statement_keeps | intros _].
  apply keeps_bind;
    [apply keeps_forEach; intros p; apply keeps_run; statement_keeps | intros _].
  destruct (0 <? _)%nat; [|apply keeps_ret].
  apply keeps_bind.
  { apply keeps_forEach. intros c.
    apply keeps_bind; [apply keeps_run; statement_keeps | intros _].
    apply keeps_run; statement_keeps. }
  intros _. apply keeps_bind; [apply keeps_counts | intros _].
  apply keeps_bind;
    [apply keeps_forEach; intros i; apply keeps_run; statement_keeps | intros _].
  apply keeps_counts.
Qed.









End PerFile.






End ProcessorFacts.

(* ===================================================================== *)
(** * Properties of the log parser *)
(* ===================================================================== *)
Module LogParserFacts.
Import LogParser Spec.

Section Parser.

Variable JSON_parse : string -> json + string.

Lemma parseLines_spec (lines : list string) (i : nat)
    (entries : list RawEntry) (errors : list ParseError) :
  let out := parseLines JSON_parse i lines entries errors in
  List.length (fst out) + List.length (snd out)
  = List.length entries + List.length errors + List.length lines
  /\ (forall e, e ∈ entries -> e ∈ fst out)
  /\ (forall e, e ∈ errors -> e ∈ snd out)
  /\ (forall n text, lines !! n = Some text ->
        match parseLine JSON_parse (i + n) text with
        | inl e => e ∈ fst out
        | inr err => err ∈ snd out
        end).
Proof.
  revert i entries errors. induction lines as [|text lines IH];
    intros i entries errors; simpl.
  - repeat split; auto. intros n t H. inversion H.
  - destruct (parseLine JSON_parse i text) as [e|err] eqn:E.
    + destruct (IH (S i) (entries ++ [e]) errors) as (Hl & He & Hr & Hn).
      rewrite length_app in Hl. simpl in Hl.
      split; [lia|]. split; [|split; [exact Hr|]].
      * intros x Hx. apply He, elem_of_app. left. exact Hx.
      * intros [|n] t Hlk; simpl in Hlk.
        -- injection Hlk as <-. rewrite Nat.add_0_r, E.
           apply He, elem_of_app. right. left.
        -- specialize (Hn n t Hlk). rewrite <- Nat.add_succ_comm. exact Hn.
    + destruct (IH (S i) entries (errors ++ [err])) as (Hl & He & Hr & Hn).
      rewrite length_app in Hl. simpl in Hl.
      split; [lia|]. split; [exact He|]. split.
      * intros x Hx. apply Hr, elem_of_app. left. exact Hx.
      * intros [|n] t Hlk; simpl in Hlk.
        -- injection Hlk as <-. rewrite Nat.add_0_r, E.
           apply Hr, elem_of_app. right. left.
        -- specialize (Hn n t Hlk). rewrite <- Nat.add_succ_comm. exact Hn.
Qed.

(** C9, as the code has it: a line that is valid JSON is rejected if and
    only if its value is [null] or its [timestamp] or its [session_id] is
    absent or falsy ([null], [false], 0, the empty string); an accepted line
    becomes an entry whose [timestamp] and [session_id] are the values of
    the line, unchanged; and every line of the file ends either in
    [entries] or in [errors], whatever happened to the lines before it. *)
Theorem C9_required_fields_truthy (i : nat) (text : string) (v : json) :
  JSON_parse text = inl v ->
  (rejected JSON_parse i text
   <-> v = JNull
       \/ toBoolean (getProp v "timestamp") = false
       \/ toBoolean (getProp v "session_id") = false)
  /\ (forall e, parseLine JSON_parse i text = inl e ->
                Some (timestamp e) = getProp v "timestamp"
                /\ Some (session_id e) = getProp v "session_id")
  /\ (forall lines,
        let out := parseLines JSON_parse 0 lines [] [] in
        List.length (fst out) + List.length (snd out) = List.length lines
        /\ forall n line, lines !! n = Some line ->
             match parseLine JSON_parse n line with
             | inl e => In e (fst out)
             | inr err => In err (snd out)
             end).
Proof.
  intros Hv. split; [|split].
  - unfold rejected, parseLine. rewrite Hv.
    destruct v as [|b|q|s|items|props];
      try (split; [intros _; right; left; reflexivity | intros _; eexists; reflexivity]).
    destruct (toBoolean (getProp (JObj props) "timestamp")) eqn:Et;
      destruct (toBoolean (getProp (JObj props) "session_id")) eqn:Es; simpl;
      split; intros H;
      try (eexists; reflexivity); auto;
      try (destruct H as [err H]; discriminate H);
      destruct H as [H|[H|H]]; discriminate H.
  - intros e He. unfold parseLine in He. rewrite Hv in He.
    destruct v as [|b|q|s|items|props]; try discriminate He.
    destruct (toBoolean (getProp (JObj props) "timestamp")) eqn:Et;
      destruct (toBoolean (getProp (JObj props) "session_id")) eqn:Es;
      simpl in He; try discriminate He.
    injection He as <-. unfold getProp in *. simpl.
    destruct (assoc_last props "timestamp"); [|discriminate Et].
    destruct (assoc_last props "session_id"); [|discriminate Es].
    split; reflexivity.
  - intros lines out.
    destruct (parseLines_spec lines 0 [] []) as (Hl & _ & _ & Hn).
    fold out in Hl, Hn. split; [exact Hl|].
    intros n line Hlk. specialize (Hn n line Hlk). simpl in Hn.
    destruct (parseLine JSON_parse n line); apply list_elem_of_In; exact Hn.
Qed.

End Parser.

(** C9 (counterexample): the line {"timestamp":0,"session_id":"a"} is valid
    JSON and has both fields, yet it is rejected as "Missing required
    fields". *)
Lemma C9_present_but_rejected :
  SampleJSON.JSON_parse line_timestamp_zero
  = inl (JObj [("timestamp", JNum 0); ("session_id", JStr "a")])
  /\ getProp (JObj [("timestamp", JNum 0); ("session_id", JStr "a")]) "timestamp"
     = Some (JNum 0)
  /\ getProp (JObj [("timestamp", JNum 0); ("session_id", JStr "a")]) "session_id"
     = Some (JStr "a")
  /\ parseLine SampleJSON.JSON_parse 0 line_timestamp_zero
     = inr {| line := 1; error := "Missing required fields" |}.
Proof. repeat split; vm_compute; reflexivity. Qed.

Lemma C9_required_fields_truthy_witness :
  SampleJSON.JSON_parse line_valid
  = inl (JObj [("timestamp", JNum (3400000001 # 2)); ("session_id", JStr "a");
               ("cwd", JStr "/w")])
  /\ ~ rejected SampleJSON.JSON_parse 0 line_valid.
Proof.
  assert (H : SampleJSON.JSON_parse line_valid
              = inl (JObj [("timestamp", JNum (3400000001 # 2));
                           ("session_id", JStr "a"); ("cwd", JStr "/w")]))
    by (vm_compute; reflexivity).
  split; [exact H|].
  intros R.
  apply (proj1 (C9_required_fields_truthy SampleJSON.JSON_parse 0 line_valid _ H)) in R.
  destruct R as [R|[R|R]]; discriminate R.
Defined.

End LogParserFacts.

(* ===================================================================== *)
(** * Further properties of the session builder *)
(* ===================================================================== *)
Module SessionFacts.
Import TimeCalculator Spec NumberFacts TimeCalculatorFacts.




Section Shape.

Variable sha256_hex : string -> string.
Variable number_to_string : Q -> string.
Variable gapMinutes : Q.

#[local] Abbreviation body :=
  (loop_body sha256_hex number_to_string (gapMinutes * 60 * 1000)).

Lemma lastCwd_snoc (p0 p : Entry.LogEntry) (l : list Entry.LogEntry) :
  lastCwd p0 (l ++ [p])
  = if truthy (Entry.cwd p) then Entry.cwd p else lastCwd p0 l.
Proof.
  unfold lastCwd. rewrite filter_app.
  destruct (truthy (Entry.cwd p)) eqn:E.
  - rewrite (filter_cons_True _ p) by exact E. rewrite filter_nil, last_snoc.
    reflexivity.
  - rewrite (filter_cons_False _ p) by (rewrite E; discriminate).
    rewrite filter_nil, app_nil_r. reflexivity.
Qed.

Lemma addPrompt_new_shaped (p : Entry.LogEntry) :
  shaped (addPrompt (newSession sha256_hex number_to_string p
                       (Entry.timestamp p * 1000)) p (Entry.timestamp p * 1000)).
Proof.
  split; [reflexivity|]. exists p, []. simpl. repeat split.
  - change [p] with ([] ++ [p]). rewrite lastCwd_snoc. unfold lastCwd. simpl.
    destruct (truthy (Entry.cwd p)); reflexivity.
  - intros a [= <-]. reflexivity.
Qed.

Lemma addPrompt_shaped (c : Session) (p : Entry.LogEntry) :
  shaped c -> shaped (addPrompt c p (Entry.timestamp p * 1000)).
Proof.
  intros [Hn (p0 & ps & Hp & Hs & Ho & Hc & He)].
  split; [reflexivity|]. exists p0, (ps ++ [p]). simpl. rewrite Hp.
  repeat split; try assumption.
  - change (p0 :: ps ++ [p]) with ((p0 :: ps) ++ [p]).
    rewrite lastCwd_snoc, Hc. reflexivity.
  - intros a Ha. change (p0 :: ps ++ [p]) with ((p0 :: ps) ++ [p]) in Ha.
    rewrite last_snoc in Ha. injection Ha as <-. reflexivity.
Qed.

Lemma finalize_shaped (c : Session) :
  shaped c -> shaped (finalizePrevious c) /\ shaped (finalizeLast c).
Proof. intros H. split; exact H. Qed.

Lemma loop_body_shaped (st : loop_state) (p : Entry.LogEntry) :
  shaped_state st -> shaped_state (body st p).
Proof.
  destruct st as [ss [c|]]; unfold shaped_state; simpl; intros [Hss Hc].
  - destruct (Qgtb _ _); simpl.
    + split; [|apply addPrompt_new_shaped].
      apply Forall_app. split; [exact Hss|].
      constructor; [apply finalize_shaped, Hc | constructor].
    + split; [exact Hss | apply addPrompt_shaped, Hc].
  - split; [exact Hss | apply addPrompt_new_shaped].
Qed.

Lemma fold_loop_shaped (l : list Entry.LogEntry) (st : loop_state) :
  shaped_state st -> shaped_state (fold_left body l st).
Proof.
  revert st. induction l as [|p l IH]; intros st H; simpl; [exact H|].
  apply IH, loop_body_shaped, H.
Qed.

Lemma groupSessions_shaped (entries : list Entry.LogEntry) :
  Forall shaped (groupSessions sha256_hex number_to_string entries gapMinutes).
Proof.
  destruct entries as [|e0 es] eqn:Eq; [constructor|]. rewrite <- Eq.
  rewrite groupSessions_nonempty by (rewrite Eq; discriminate).
  pose proof (fold_loop_shaped (sort_by_time entries) ([], None)
                (conj (Forall_nil_2 _) I)) as H.
  destruct (fold_left body (sort_by_time entries) ([], None)) as [ss [cur|]];
    destruct H as [Hss Hc]; simpl in *; [|exact Hss].
  apply Forall_app. split; [exact Hss|].
  constructor; [apply finalize_shaped, Hc | constructor].
Qed.

(** X1: every session returned by [groupSessions] has at least one entry
    and its [prompt_count] is the number of its entries; the counts of the
    sessions add up to the number of input entries, so there are never more
    sessions than entries. *)
Theorem prompt_counts_add_up (entries : list Entry.LogEntry) :
  let out := groupSessions sha256_hex number_to_string entries gapMinutes in
  Forall (fun s => prompt_count s = List.length (prompts s)
                   /\ (0 < prompt_count s)%nat) out
  /\ list_sum (map prompt_count out) = List.length entries
  /\ (List.length out <= List.length entries)%nat.
Proof.
  intros out.
  pose proof (groupSessions_shaped entries) as Hs. fold out in Hs.
  destruct (groupSessions_groups sha256_hex number_to_string gapMinutes entries)
    as (Hcat & _ & _). fold out in Hcat.
  assert (H1 : Forall (fun s => prompt_count s = List.length (prompts s)
                                /\ (0 < prompt_count s)%nat) out).
  { eapply Forall_impl; [exact Hs|].
    intros s [Hn (p & ps & Hp & _)]. split; [exact Hn|].
    rewrite Hn, Hp. simpl. lia. }
  assert (H2 : list_sum (map prompt_count out) = List.length entries).
  { rewrite (Permutation_length (sort_by_time_perm entries)), <- Hcat.
    rewrite length_concat, map_map. f_equal.
    clear -H1. induction H1 as [|s l [Hs _] _ IH]; simpl; [reflexivity|].
    rewrite Hs, IH. reflexivity. }
  split; [exact H1|]. split; [exact H2|].
  rewrite <- H2. clear -H1.
  induction H1 as [|s l [_ Hs] _ IH]; simpl; lia.
Qed.


(** X3: the [cwd] of a returned session is the cwd of its last entry that
    has a non-empty one; when no entry has one it is the cwd of the first
    entry. *)
Theorem session_cwd_last_wins (entries : list Entry.LogEntry) (s : Session) :
  In s (groupSessions sha256_hex number_to_string entries gapMinutes) ->
  exists first rest,
    prompts s = first :: rest
    /\ cwd s
       = match last (filter (fun p => truthy (Entry.cwd p) = true) (prompts s)) with
         | Some q => Entry.cwd q
         | None => Entry.cwd first
         end.
Proof.
  intros Hin. apply list_elem_of_In in Hin.
  pose proof (groupSessions_shaped entries) as Hs.
  rewrite Forall_forall in Hs.
  destruct (Hs s Hin) as [_ (p & ps & Hp & _ & _ & Hc & _)].
  exists p, ps. split; [exact Hp|]. rewrite Hc, Hp. reflexivity.
Qed.

End Shape.


Lemma session_cwd_last_wins_witness :
  In cwd_session (groupSessions id_digest show_Q cwd_scenario 30)
  /\ cwd cwd_session = Some "/b"
  /\ exists first rest,
       prompts cwd_session = first :: rest
       /\ cwd cwd_session
          = match last (filter (fun p => truthy (Entry.cwd p) = true)
                          (prompts cwd_session)) with
            | Some q => Entry.cwd q
            | None => Entry.cwd first
            end.
Proof.
  assert (H : In cwd_session (groupSessions id_digest show_Q cwd_scenario 30))
    by (vm_compute; left; reflexivity).
  split; [exact H|]. split; [reflexivity|].
  exact (session_cwd_last_wins id_digest show_Q 30 cwd_scenario cwd_session H).
Defined.

End SessionFacts.

(* ===================================================================== *)
(** * Further properties of the issue extractor *)
(* ===================================================================== *)
Module ExtractorFacts.
Import Regex IssueExtractor Spec NumberFacts IssueExtractorFacts.

Lemma to_upper_not_lower (c : ascii) : is_lower (to_upper c) = false.
Proof. destruct c as [[] [] [] [] [] [] [] []]; reflexivity. Qed.

Lemma toUpperCase_upper (l : list ascii) : upper_case (toUpperCase l).
Proof.
  unfold upper_case, toUpperCase.
  rewrite String.list_ascii_of_string_of_list_ascii.
  induction l as [|c l IH]; simpl; constructor; [apply to_upper_not_lower | exact IH].
Qed.

Lemma existsb_key_false (key : string) (l : list Issue) :
  existsb (fun r => String.eqb (issueKey r) key) l = false ->
  key ∉ map issueKey l.
Proof.
  induction l as [|x l IH]; simpl; intros H Hin; [inversion Hin|].
  apply orb_false_iff in H as [H1 H2]. apply String.eqb_neq in H1.
  apply elem_of_cons in Hin as [Hin|Hin]; [congruence | exact (IH H2 Hin)].
Qed.

Lemma pushNew_clean (src : string) (conf : Q) (res : list Issue) (l : list ascii) :
  clean src conf res -> clean src conf (pushNew src conf res (toUpperCase l)).
Proof.
  intros [Hnd Hf]. unfold pushNew. destruct (existsb _ _) eqn:E; [split; assumption|].
  split.
  - rewrite map_app. simpl. apply NoDup_app. split; [exact Hnd|]. split.
    + intros x Hx Hx'. apply list_elem_of_singleton in Hx'. subst.
      exact (existsb_key_false _ _ E Hx).
    + apply NoDup_singleton.
  - apply Forall_app. split; [exact Hf|]. constructor; [|constructor].
    split; [split; reflexivity | apply toUpperCase_upper].
Qed.

Lemma fold_pushNew_clean {A} (src : string) (conf : Q) (f : A -> list ascii)
    (ms : list A) (res : list Issue) :
  clean src conf res ->
  clean src conf (fold_left (fun res' m => pushNew src conf res' (toUpperCase (f m))) ms res).
Proof.
  revert res. induction ms as [|m ms IH]; intros res H; simpl; [exact H|].
  apply IH, pushNew_clean, H.
Qed.

Lemma customPatterns_clean (src : string) (conf : Q) (text : string)
    (patterns : list regex) (res : list Issue) :
  clean src conf res -> clean src conf (customPatterns src conf text patterns res).
Proof.
  unfold customPatterns. revert res.
  induction patterns as [|p ps IH]; intros res H; simpl; [exact H|].
  apply IH, (fold_pushNew_clean src conf m1_or_m0), H.
Qed.

Lemma clean_nil (src : string) (conf : Q) : clean src conf [].
Proof. split; constructor. Qed.

Lemma extractFromBranch_clean (text : option string) (patterns : list regex) :
  clean "branch" 1 (extractFromBranch text patterns).
Proof.
  unfold extractFromBranch. destruct (negb _); [apply clean_nil|].
  apply customPatterns_clean. destruct (exec _ _); [|apply clean_nil].
  split; [apply NoDup_singleton|]. constructor; [|constructor].
  split; [split; reflexivity | apply toUpperCase_upper].
Qed.

Lemma extractFromCommitMessage_clean (text : option string) (patterns : list regex) :
  clean "commit" 1 (extractFromCommitMessage text patterns).
Proof.
  unfold extractFromCommitMessage. destruct (negb _); [apply clean_nil|].
  apply customPatterns_clean.
  generalize (clean_nil "commit" 1). generalize (@nil Issue).
  induction commitPatterns as [|p cps IH]; intros res H; simpl; [exact H|].
  apply IH, (fold_pushNew_clean "commit" 1 m1), H.
Qed.

Lemma extractFromPrompt_clean (text : option string) (patterns : list regex) :
  clean "prompt" (7 # 10) (extractFromPrompt text patterns).
Proof.
  unfold extractFromPrompt. destruct (negb _); [apply clean_nil|].
  apply customPatterns_clean, (fold_pushNew_clean "prompt" (7 # 10) m1), clean_nil.
Qed.

Lemma extractFromPath_clean (text : option string) (patterns : list regex) :
  clean "directory" (1 # 2) (extractFromPath text patterns).
Proof.
  unfold extractFromPath. destruct (negb _); [apply clean_nil|].
  apply customPatterns_clean, (fold_pushNew_clean "directory" (1 # 2) m1), clean_nil.
Qed.

(** X6: each of the four extractors returns at most one record per key;
    every record carries the source label and the confidence of the
    extractor, so it passes both CHECK constraints of [session_issues]; and
    no returned key contains a lower-case letter, custom patterns
    included. *)
Theorem extractors_return_clean_records (text : option string) (patterns : list regex) :
  clean "branch" 1 (extractFromBranch text patterns)
  /\ clean "commit" 1 (extractFromCommitMessage text patterns)
  /\ clean "prompt" (7 # 10) (extractFromPrompt text patterns)
  /\ clean "directory" (1 # 2) (extractFromPath text patterns)
  /\ Forall (fun i => Database.check_source (source i) = true
                      /\ Database.check_confidence (confidence i) = true)
       (extractFromBranch text patterns ++ extractFromCommitMessage text patterns
        ++ extractFromPrompt text patterns ++ extractFromPath text patterns).
Proof.
  pose proof (extractFromBranch_clean text patterns) as Hb.
  pose proof (extractFromCommitMessage_clean text patterns) as Hc.
  pose proof (extractFromPrompt_clean text patterns) as Hp.
  pose proof (extractFromPath_clean text patterns) as Hd.
  repeat split; try apply Hb; try apply Hc; try apply Hp; try apply Hd.
  destruct Hb as [_ Hb], Hc as [_ Hc], Hp as [_ Hp], Hd as [_ Hd].
  repeat (apply Forall_app; split);
    (eapply Forall_impl; [eassumption|]);
    intros i [[-> ->] _]; split; reflexivity.
Qed.

Lemma issueStream_upper (session : TimeCalculator.Session)
    (commits : list GitAnalyzer.Commit) (patterns : list regex) (i : Issue) :
  i ∈ issueStream session commits patterns -> upper_case (issueKey i).
Proof.
  unfold issueStream. intros H.
  apply elem_of_app in H as [H|H]; [|apply elem_of_app in H as [H|H]].
  - destruct (TimeCalculator.prompts session) as [|p0 ps]; [inversion H|].
    destruct (extractFromBranch_clean (Entry.git_branch p0) patterns) as [_ F].
    rewrite Forall_forall in F. apply (F i H).
  - apply list_elem_of_In, in_concat in H as (l & Hl & Hi).
    apply in_map_iff in Hl as (c & <- & _).
    destruct (extractFromCommitMessage_clean (Some (GitAnalyzer.message c)) patterns)
      as [_ F]. rewrite Forall_forall in F. apply F, list_elem_of_In, Hi.
  - apply list_elem_of_In, in_concat in H as (l & Hl & Hi).
    apply in_map_iff in Hl as (p & <- & _).
    apply list_elem_of_In, elem_of_app in Hi as [Hi|Hi].
    + destruct (extractFromPrompt_clean (Entry.prompt_preview p) patterns) as [_ F].
      rewrite Forall_forall in F. apply (F i Hi).
    + destruct (extractFromPath_clean (Entry.cwd p) patterns) as [_ F].
      rewrite Forall_forall in F. apply (F i Hi).
Qed.

Lemma map_get_member (m : issueMap) (k : string) (v : Issue) :
  NoDup (map fst m) -> (k, v) ∈ m -> map_get m k = Some v.
Proof.
  induction m as [|[k0 v0] m IH]; simpl; intros Hnd Hin; [inversion Hin|].
  inversion Hnd as [|? ? Hnotin Hnd']; subst.
  apply elem_of_cons in Hin as [[= <- <-]|Hin].
  - rewrite String.eqb_refl. reflexivity.
  - destruct (String.eqb_spec k0 k) as [->|Hne]; [|apply IH; assumption].
    exfalso. apply Hnotin. apply list_elem_of_fmap. exists (k, v). split; [reflexivity | exact Hin].
Qed.

Lemma map_get_Some_member (m : issueMap) (k : string) (v : Issue) :
  map_get m k = Some v -> (k, v) ∈ m.
Proof.
  induction m as [|[k0 v0] m IH]; simpl; intros H; [discriminate|].
  destruct (String.eqb_spec k0 k) as [->|Hne].
  - injection H as <-. left.
  - right. apply IH, H.
Qed.

(* every returned record carries the key of an issue of the stream *)
Lemma session_keys_found (session : TimeCalculator.Session)
    (commits : list GitAnalyzer.Commit) (patterns : list regex) (r : Issue) :
  r ∈ extractFromSession session commits patterns ->
  exists i, i ∈ issueStream session commits patterns /\ issueKey i = issueKey r.
Proof.
  rewrite extractFromSession_stream.
  set (stream := issueStream session commits patterns).
  set (m := fold_left updateIssueMap stream []).
  assert (Hok : map_ok m) by (apply fold_updateIssueMap_ok; split; constructor).
  destruct Hok as [Hnd Hk]. intros Hr.
  apply list_elem_of_fmap in Hr as ([k v] & -> & Hin). simpl.
  pose proof (map_get_member _ _ _ Hnd Hin) as Hg.
  unfold m in Hg. rewrite map_get_fold in Hg. simpl in Hg.
  destruct (occurrences k stream) as [|i0 occ] eqn:Eo; [discriminate Hg|].
  destruct (resolve_fold (i0 :: occ) ltac:(discriminate))
    as (r & Hr & _ & (w & Hw & _ & Hwk) & _).
  rewrite Hr in Hg. injection Hg as ->.
  rewrite <- Eo in Hw. apply list_elem_of_filter in Hw as [_ Hw].
  exists w. split; assumption.
Qed.

(** X7: the list [extractFromSession] returns has no two records with the
    same key; its keys are exactly the keys found by the extractors on the
    branch, the commits, the previews and the directories of the session;
    every key is in upper case and every confidence is 1.0, 0.7 or 0.5,
    inside the range the schema admits. *)
Theorem session_issue_list (session : TimeCalculator.Session)
    (commits : list GitAnalyzer.Commit) (patterns : list regex) :
  let out := extractFromSession session commits patterns in
  let stream := issueStream session commits patterns in
  NoDup (map issueKey out)
  /\ (forall k, In k (map issueKey out) <-> exists i, In i stream /\ issueKey i = k)
  /\ Forall (fun r => upper_case (issueKey r)
                      /\ (confidence r = 1%Q \/ confidence r = (7 # 10)%Q
                          \/ confidence r = (1 # 2)%Q)
                      /\ Database.check_confidence (confidence r) = true) out.
Proof.
  intros out stream. unfold out. rewrite extractFromSession_stream. fold stream.
  set (m := fold_left updateIssueMap stream []).
  assert (Hok : map_ok m) by (apply fold_updateIssueMap_ok; split; constructor).
  destruct Hok as [Hnd Hk].
  assert (Hkeys : map issueKey (map snd m) = map fst m).
  { rewrite map_map. clear -Hk. induction Hk as [|kv l H _ IH]; simpl; [reflexivity|].
    rewrite H, IH. reflexivity. }
  assert (Hget : forall k, map_get m k = fold_left resolve (occurrences k stream) None).
  { intros k. unfold m. rewrite map_get_fold. reflexivity. }
  split; [rewrite Hkeys; exact Hnd|]. split.
  - intros k. rewrite Hkeys. split.
    + intros Hin. apply list_elem_of_In, list_elem_of_fmap in Hin as ([k' v] & -> & Hin).
      simpl. pose proof (map_get_member _ _ _ Hnd Hin) as Hg. rewrite Hget in Hg.
      destruct (occurrences k' stream) as [|i occ] eqn:Eo; [discriminate Hg|].
      exists i. assert (Hi : i ∈ occurrences k' stream) by (rewrite Eo; left).
      apply list_elem_of_filter in Hi as [Hi1 Hi2].
      split; [apply list_elem_of_In, Hi2 | exact Hi1].
    + intros (i & Hi & Hik).
      assert (Ho : occurrences k stream <> []).
      { intros E. assert (Hio : i ∈ occurrences k stream)
          by (apply list_elem_of_filter; split; [exact Hik | apply list_elem_of_In, Hi]).
        rewrite E in Hio. inversion Hio. }
      destruct (resolve_fold _ Ho) as (r & Hr & _).
      rewrite <- Hget in Hr. apply map_get_Some_member in Hr.
      apply list_elem_of_In, list_elem_of_fmap. exists (k, r). split; [reflexivity | exact Hr].
  - apply Forall_forall. intros r Hr.
    apply list_elem_of_fmap in Hr as ([k v] & -> & Hin). simpl.
    pose proof (map_get_member _ _ _ Hnd Hin) as Hg. rewrite Hget in Hg.
    destruct (occurrences k stream) as [|i0 occ] eqn:Eo; [discriminate Hg|].
    destruct (resolve_fold (i0 :: occ) ltac:(discriminate))
      as (r & Hr & _ & (w & Hw & Hwc & Hwk) & _).
    rewrite Hr in Hg. injection Hg as ->.
    rewrite <- Eo in Hw. apply list_elem_of_filter in Hw as [_ Hw].
    rewrite <- Hwk, <- Hwc. split; [exact (issueStream_upper _ _ _ _ Hw)|].
    destruct (issueStream_sources _ _ _ _ Hw) as [[_ C]|[[_ C]|[[_ C]|[_ C]]]];
      rewrite C; split; auto.
Qed.

End ExtractorFacts.

(* ===================================================================== *)
(** * The matcher on the default key patterns *)
(* ===================================================================== *)
Module RegexFacts.
Import Regex IssueExtractor Spec.

Lemma exec_at_Rep (cls : ascii -> bool) (lo : nat) (hi : option nat) (r : regex)
    (prev : option ascii) (s : list ascii) (pos : nat) (cap : caps) :
  exec_at (Rep cls lo hi :: r) prev s pos cap
  = rep_k cls lo hi (fun p s' pos' => exec_at r p s' pos' cap) 0 prev s pos.
Proof. reflexivity. Qed.

(** What a successful repetition has consumed. *)
Lemma rep_k_sound (cls : ascii -> bool) (lo : nat) (hi : option nat)
    (k : option ascii -> list ascii -> nat -> option (nat * caps))
    (s : list ascii) (n : nat) (prev : option ascii) (pos : nat) (res : nat * caps) :
  rep_k cls lo hi k n prev s pos = Some res ->
  exists taken rest prev',
    s = taken ++ rest
    /\ Forall (fun c => cls c = true) taken
    /\ (lo <= n + List.length taken)%nat
    /\ (forall h, hi = Some h -> (n <= h)%nat -> (n + List.length taken <= h)%nat)
    /\ k prev' rest (pos + List.length taken) = Some res.
Proof.
  revert n prev pos. induction s as [|ch s IH]; intros n prev pos H; simpl in H.
  - destruct (lo <=? n)%nat eqn:E; [|discriminate].
    apply Nat.leb_le in E. exists [], [], prev. simpl.
    rewrite !Nat.add_0_r. repeat split; auto.
  - assert (Hstop : (if (lo <=? n)%nat then k prev (ch :: s) pos else None) = Some res ->
                    exists taken rest prev',
                      ch :: s = taken ++ rest
                      /\ Forall (fun c => cls c = true) taken
                      /\ (lo <= n + List.length taken)%nat
                      /\ (forall h, hi = Some h -> (n <= h)%nat ->
                                    (n + List.length taken <= h)%nat)
                      /\ k prev' rest (pos + List.length taken) = Some res).
    { intros Hs. destruct (lo <=? n)%nat eqn:E; [|discriminate].
      apply Nat.leb_le in E. exists [], (ch :: s), prev. simpl.
      rewrite !Nat.add_0_r. repeat split; auto. }
    destruct (cls ch && below n hi) eqn:Ec; [|exact (Hstop H)].
    destruct (rep_k cls lo hi k (S n) (Some ch) s (S pos)) as [r1|] eqn:Er;
      [|exact (Hstop H)].
    injection H as <-. apply andb_true_iff in Ec as [Ec Eb].
    destruct (IH _ _ _ Er) as (taken & rest & prev' & -> & Hf & Hlo & Hhi & Hk).
    exists (ch :: taken), rest, prev'. simpl.
    replace (pos + S (List.length taken))%nat with (S pos + List.length taken)%nat by lia.
    repeat split; auto; try lia.
    intros h Hh Hn. specialize (Hhi h Hh). subst hi. simpl in Eb.
    apply Nat.ltb_lt in Eb. lia.
Qed.

(** A repetition followed by something that cannot take another character
    consumes exactly the characters of its class. *)
Lemma rep_k_complete (cls : ascii -> bool) (lo : nat) (hi : option nat)
    (k : option ascii -> list ascii -> nat -> option (nat * caps))
    (taken rest : list ascii) (n : nat) (prev : option ascii) (pos : nat)
    (res : nat * caps) :
  (forall p p' s' pos', k p s' pos' = k p' s' pos') ->
  Forall (fun c => cls c = true) taken ->
  (lo <= n + List.length taken)%nat ->
  (forall h, hi = Some h -> (n + List.length taken <= h)%nat) ->
  (rest = [] \/ (exists c r', rest = c :: r' /\ cls c = false)
   \/ hi = Some (n + List.length taken)%nat) ->
  k None rest (pos + List.length taken) = Some res ->
  rep_k cls lo hi k n prev (taken ++ rest) pos = Some res.
Proof.
  intros Hk Hf. revert n prev pos.
  induction Hf as [|c taken Hc Hf IH]; intros n prev pos Hlo Hhi Hend Hres; simpl in *.
  - rewrite !Nat.add_0_r in *. apply Nat.leb_le in Hlo.
    destruct rest as [|ch rest]; simpl; rewrite Hlo.
    + rewrite (Hk prev None). exact Hres.
    + assert (E : cls ch && below n hi = false).
      { destruct Hend as [Hend|[(c & r' & [= <- <-] & Hc)|Hend]];
          [discriminate | rewrite Hc; reflexivity |].
        rewrite Hend. simpl. rewrite Nat.ltb_irrefl. apply andb_false_r. }
      rewrite E, (Hk prev None). exact Hres.
  - assert (Eb : below n hi = true).
    { destruct hi as [h|]; [|reflexivity]. simpl. apply Nat.ltb_lt.
      specialize (Hhi h eq_refl). lia. }
    rewrite Hc, Eb. simpl.
    rewrite (IH (S n) (Some c) (S pos)); [reflexivity | lia | | |].
    + intros h Hh. specialize (Hhi h Hh). lia.
    + destruct Hend as [Hend|[Hend|Hend]]; auto.
      right. right. rewrite Hend. f_equal. lia.
    + replace (S pos + List.length taken)%nat with (pos + S (List.length taken))%nat by lia.
      exact Hres.
Qed.

(* what follows the group cannot change the positions of the group *)
Lemma groupless_caps (r : regex) (prev : option ascii) (s : list ascii)
    (pos : nat) (cap : caps) (e : nat) (cap' : caps) :
  groupless r -> exec_at r prev s pos cap = Some (e, cap') -> cap' = cap.
Proof.
  intros Hg. revert prev s pos.
  induction Hg as [|a r [Ho Hc] _ IH]; intros prev s pos H.
  - simpl in H. injection H as _ <-. reflexivity.
  - destruct a as [cls lo hi| | | |]; try congruence.
    + rewrite exec_at_Rep in H.
      apply rep_k_sound in H as (taken & rest & prev' & _ & _ & _ & _ & H).
      exact (IH _ _ _ H).
    + simpl in H. destruct (boundary prev s); [exact (IH _ _ _ H) | discriminate].
    + simpl in H. destruct (pos =? 0)%nat; [exact (IH _ _ _ H) | discriminate].
Qed.

(* what precedes the group consumes a prefix of the text *)
Lemma prefix_consumed (pre r : regex) (prev : option ascii) (s : list ascii)
    (pos : nat) (cap : caps) (res : nat * caps) :
  groupless pre ->
  exec_at (pre ++ r) prev s pos cap = Some res ->
  exists taken rest prev',
    s = taken ++ rest
    /\ exec_at r prev' rest (pos + List.length taken) cap = Some res.
Proof.
  intros Hg. revert prev s pos.
  induction Hg as [|a pre [Ho Hc] _ IH]; intros prev s pos H.
  - exists [], s, prev. simpl. rewrite Nat.add_0_r. split; [reflexivity | exact H].
  - destruct a as [cls lo hi| | | |]; try congruence.
    + change (exec_at (Rep cls lo hi :: (pre ++ r)) prev s pos cap = Some res) in H.
      rewrite exec_at_Rep in H.
      apply rep_k_sound in H as (t1 & rest1 & prev1 & -> & _ & _ & _ & H).
      destruct (IH _ _ _ H) as (t2 & rest & prev2 & -> & H2).
      exists (t1 ++ t2), rest, prev2. rewrite <- app_assoc, length_app.
      split; [reflexivity|]. rewrite Nat.add_assoc. exact H2.
    + simpl in H. destruct (boundary prev s); [exact (IH _ _ _ H) | discriminate].
    + simpl in H. destruct (pos =? 0)%nat; [exact (IH _ _ _ H) | discriminate].
Qed.

Lemma all_hyphen (l : list ascii) :
  Forall (fun c => Ascii.eqb "-" c = true) l -> List.length l = 1%nat -> l = ["-"%char].
Proof.
  destruct l as [|c [|d l]]; intros H Hl; try discriminate Hl.
  inversion H as [|? ? Hc _]; subst. apply Ascii.eqb_eq in Hc. subst. reflexivity.
Qed.

(** What the key part of a pattern has consumed when the match succeeds. *)
Lemma keyBody_sound (cls : ascii -> bool) (r : regex) (prev : option ascii)
    (s : list ascii) (pos : nat) (cap : caps) (res : nat * caps) :
  exec_at (keyBody cls ++ r) prev s pos cap = Some res ->
  exists L D rest prev',
    s = L ++ "-"%char :: D ++ rest
    /\ (1 <= List.length L <= 3)%nat
    /\ Forall (fun c => cls c = true) L
    /\ D <> []
    /\ Forall (fun c => is_digit c = true) D
    /\ exec_at r prev' rest (pos + List.length L + 1 + List.length D) cap = Some res.
Proof.
  intros H.
  change (exec_at (Rep cls 1 (Some 3%nat) :: Lit "-" :: Plus is_digit :: r)
            prev s pos cap = Some res) in H.
  rewrite exec_at_Rep in H.
  apply rep_k_sound in H as (L & s1 & p1 & -> & HL & HLlo & HLhi & H).
  unfold Lit in H. rewrite exec_at_Rep in H.
  apply rep_k_sound in H as (M & s2 & p2 & -> & HM & HMlo & HMhi & H).
  unfold Plus in H. rewrite exec_at_Rep in H.
  apply rep_k_sound in H as (D & rest & p3 & -> & HD & HDlo & _ & H).
  specialize (HLhi 3%nat eq_refl ltac:(lia)).
  specialize (HMhi 1%nat eq_refl ltac:(lia)).
  assert (EM : M = ["-"%char]) by (apply all_hyphen; [exact HM | lia]).
  subst M. simpl in *.
  exists L, D, rest, p3. repeat split; auto; try lia.
  intros ->. simpl in HDlo. lia.
Qed.

(** The text of the capture group of a default pattern: one to three
    letters, a hyphen, digits. *)
Lemma group_shape (pre post : regex) (cls : ascii -> bool) (prev : option ascii)
    (s : list ascii) (pos : nat) (res : nat * caps) :
  groupless pre -> groupless post ->
  (forall c, cls c = true -> icase is_upper c = true) ->
  exec_at (pre ++ GOpen :: keyBody cls ++ GClose :: post) prev s pos (None, None)
  = Some res ->
  key_shape (m1 (mk_match s pos res)).
Proof.
  intros Hpre Hpost Hcls H.
  apply prefix_consumed in H as (t & s1 & p1 & -> & H); [|exact Hpre].
  simpl in H.
  change (exec_at (keyBody cls ++ GClose :: post) p1 s1 (pos + List.length t)
            (Some (pos + List.length t)%nat, None) = Some res) in H.
  apply keyBody_sound in H as (L & D & rest & p2 & -> & HL & HLc & HD & HDc & H).
  simpl in H. destruct res as [e cap'].
  apply groupless_caps in H; [|exact Hpost]. subst cap'.
  unfold m1, mk_match. simpl.
  replace (pos + List.length t + List.length L + 1 + List.length D
           - (pos + List.length t))%nat
    with (List.length (L ++ "-"%char :: D)) by (rewrite length_app; simpl; lia).
  replace (pos + List.length t - pos)%nat with (List.length t) by lia.
  rewrite drop_app_length.
  replace (L ++ "-"%char :: D ++ rest) with ((L ++ "-"%char :: D) ++ rest)
    by (rewrite <- app_assoc; reflexivity).
  rewrite take_app_length.
  exists L, D. repeat split; auto; try lia.
  eapply Forall_impl; [exact HLc | exact Hcls].
Qed.

(* every match object comes from a successful attempt at some position *)
Lemma matchAll_from_members (r : regex) (s : list ascii) (prev : option ascii)
    (pos skip : nat) (m : rmatch) :
  m ∈ matchAll_from r prev s pos skip ->
  exists prev' s' pos' res,
    exec_at r prev' s' pos' (None, None) = Some res /\ m = mk_match s' pos' res.
Proof.
  revert prev pos skip. induction s as [|ch s IH]; intros prev pos skip H; simpl in H.
  - destruct (skip =? 0)%nat; [|inversion H].
    destruct (exec_at r prev [] pos (None, None)) as [res|] eqn:E; [|inversion H].
    apply list_elem_of_singleton in H. subst m.
    exists prev, [], pos, res. split; [exact E | reflexivity].
  - destruct (if (skip =? 0)%nat then exec_at r prev (ch :: s) pos (None, None) else None)
      as [res|] eqn:E.
    + apply elem_of_cons in H as [->|H]; [|exact (IH _ _ _ H)].
      destruct (skip =? 0)%nat; [|discriminate].
      exists prev, (ch :: s), pos, res. split; [exact E | reflexivity].
    + exact (IH _ _ _ H).
Qed.

Lemma exec_from_member (r : regex) (s : list ascii) (prev : option ascii)
    (pos : nat) (m : rmatch) :
  exec_from r prev s pos = Some m ->
  exists prev' s' pos' res,
    exec_at r prev' s' pos' (None, None) = Some res /\ m = mk_match s' pos' res.
Proof.
  revert prev pos. induction s as [|ch s IH]; intros prev pos H; simpl in H.
  - destruct (exec_at r prev [] pos (None, None)) as [res|] eqn:E; [|discriminate].
    injection H as <-. exists prev, [], pos, res. split; [exact E | reflexivity].
  - destruct (exec_at r prev (ch :: s) pos (None, None)) as [res|] eqn:E.
    + injection H as <-. exists prev, (ch :: s), pos, res. split; [exact E | reflexivity].
    + exact (IH _ _ H).
Qed.

Lemma rep_k_prev (cls : ascii -> bool) (lo : nat) (hi : option nat)
    (k : option ascii -> list ascii -> nat -> option (nat * caps))
    (s : list ascii) (n : nat) (p p' : option ascii) (pos : nat) :
  (forall q q' s' pos', k q s' pos' = k q' s' pos') ->
  rep_k cls lo hi k n p s pos = rep_k cls lo hi k n p' s pos.
Proof.
  intros Hk. destruct s as [|ch s]; simpl; rewrite (Hk p p'); reflexivity.
Qed.

Lemma icase_upper_to_upper (c : ascii) :
  icase is_upper c = true -> icase is_upper (to_upper c) = true.
Proof. destruct c as [[] [] [] [] [] [] [] []]; intros H; try reflexivity; discriminate H. Qed.

Lemma digit_to_upper (c : ascii) : is_digit c = true -> to_upper c = c.
Proof. destruct c as [[] [] [] [] [] [] [] []]; intros H; try reflexivity; discriminate H. Qed.

Lemma key_shape_upper (g : list ascii) : key_shape g -> key_shape (map to_upper g).
Proof.
  intros (L & D & -> & HL & HLc & HD & HDc).
  exists (map to_upper L), D. rewrite map_app. simpl.
  repeat split; try (rewrite length_map; lia); auto.
  - f_equal. f_equal. clear HD. induction HDc as [|c D Hc _ IH]; simpl; [reflexivity|].
    rewrite (digit_to_upper c Hc), IH. reflexivity.
  - clear HL. induction HLc as [|c L Hc _ IH]; simpl; constructor;
      [apply icase_upper_to_upper, Hc | exact IH].
Qed.

Lemma length_string_of_list (l : list ascii) :
  String.length (String.string_of_list_ascii l) = List.length l.
Proof. induction l as [|c l IH]; simpl; [reflexivity | rewrite IH; reflexivity]. Qed.

(** [isValidIssueKey] accepts every text of that shape. *)
Lemma shape_is_valid (g : list ascii) :
  key_shape g -> isValidIssueKey (String.string_of_list_ascii g) = true.
Proof.
  intros (L & D & -> & HL & HLc & HD & HDc). unfold isValidIssueKey.
  rewrite String.list_ascii_of_string_of_list_ascii, length_string_of_list.
  set (g := L ++ "-"%char :: D).
  assert (E : exec_at ([Bol] ++ keyBody (icase is_upper)) None g 0 (None, None)
              = Some (List.length g, (None, None))).
  { change (exec_at (Rep (icase is_upper) 1 (Some 3%nat) :: Lit "-" :: Plus is_digit :: [])
              None g 0 (None, None) = Some (List.length g, (None, None))).
    rewrite exec_at_Rep. unfold g. apply rep_k_complete; auto; try lia.
    - intros p p' s' pos'. unfold Lit. rewrite !exec_at_Rep.
      apply rep_k_prev. intros q q' s2 pos2. unfold Plus. rewrite !exec_at_Rep.
      apply rep_k_prev. reflexivity.
    - intros h [= <-]. lia.
    - right. left. exists "-"%char, D. split; reflexivity.
    - unfold Lit. rewrite exec_at_Rep.
      apply (rep_k_complete _ _ _ _ ["-"%char] D); auto.
      + intros q q' s2 pos2. unfold Plus. rewrite !exec_at_Rep.
        apply rep_k_prev. reflexivity.
      + intros h [= <-]. simpl. lia.
      + unfold Plus. rewrite exec_at_Rep.
        rewrite <- (app_nil_r D) at 1.
        apply rep_k_complete; auto.
        * destruct D; [congruence | simpl; lia].
        * intros h Hh. discriminate Hh.
        * simpl. f_equal. f_equal. rewrite length_app. simpl. lia. }
  rewrite E. apply Nat.eqb_refl.
Qed.

Lemma group_is_valid (g : list ascii) :
  key_shape g -> isValidIssueKey (toUpperCase g) = true.
Proof. intros H. apply shape_is_valid, key_shape_upper, H. Qed.

End RegexFacts.

(* ===================================================================== *)
(** * Keys found by the default patterns *)
(* ===================================================================== *)
Module DefaultKeyFacts.
Import Regex IssueExtractor Spec RegexFacts.

Lemma groupless_one (a : atom) : a <> GOpen -> a <> GClose -> groupless [a].
Proof. intros H1 H2. constructor; [split; assumption | constructor]. Qed.

Lemma upper_icase (c : ascii) : is_upper c = true -> icase is_upper c = true.
Proof. intros H. unfold icase. rewrite H. reflexivity. Qed.

(* the group of every match of a default pattern has the shape of a key *)
Lemma default_group_shape (r : regex) (prev : option ascii) (s : list ascii)
    (pos : nat) (res : nat * caps) :
  r = branchPattern \/ r = promptPattern \/ r = pathPattern \/ In r commitPatterns ->
  exec_at r prev s pos (None, None) = Some res ->
  key_shape (m1 (mk_match s pos res)).
Proof.
  intros [->|[->|[->|[<-|[<-|[<-|[]]]]]]] H.
  - apply (group_shape [WordB] [WordB] (icase is_upper) prev);
      [apply groupless_one; discriminate | apply groupless_one; discriminate
      | auto | exact H].
  - apply (group_shape [WordB] [WordB] is_upper prev);
      [apply groupless_one; discriminate | apply groupless_one; discriminate
      | exact upper_icase | exact H].
  - apply (group_shape [Lit "/"] [Lit "/"] is_upper prev);
      [apply groupless_one; discriminate | apply groupless_one; discriminate
      | exact upper_icase | exact H].
  - apply (group_shape [Lit "["] [Lit "]"] is_upper prev);
      [apply groupless_one; discriminate | apply groupless_one; discriminate
      | exact upper_icase | exact H].
  - apply (group_shape [Bol] [Lit ":"] is_upper prev);
      [apply groupless_one; discriminate | apply groupless_one; discriminate
      | exact upper_icase | exact H].
  - apply (group_shape [Bol] [Rep is_space 1 (Some 1%nat)] is_upper prev);
      [apply groupless_one; discriminate | apply groupless_one; discriminate
      | exact upper_icase | exact H].
Qed.

Lemma fold_pushNew_valid (src : string) (conf : Q) (ms : list rmatch)
    (res : list Issue) :
  (forall m, m ∈ ms -> key_shape (m1 m)) ->
  Forall (fun i => isValidIssueKey (issueKey i) = true) res ->
  Forall (fun i => isValidIssueKey (issueKey i) = true)
    (fold_left (fun res' m => pushNew src conf res' (toUpperCase (m1 m))) ms res).
Proof.
  revert res. induction ms as [|m ms IH]; intros res Hm H; simpl; [exact H|].
  apply IH; [intros m' Hm'; apply Hm; right; exact Hm'|].
  unfold pushNew. destruct (existsb _ _); [exact H|].
  apply Forall_app. split; [exact H|]. constructor; [|constructor].
  simpl. apply group_is_valid, Hm. left.
Qed.

Lemma matchAll_shape (r : regex) (text : string) (m : rmatch) :
  r = branchPattern \/ r = promptPattern \/ r = pathPattern \/ In r commitPatterns ->
  m ∈ matchAll r text -> key_shape (m1 m).
Proof.
  intros Hr Hm. apply matchAll_from_members in Hm as (p & s & pos & res & E & ->).
  exact (default_group_shape r p s pos res Hr E).
Qed.

Lemma fold_patterns_valid (src : string) (conf : Q) (text : string)
    (pats : list regex) (res : list Issue) :
  (forall r, In r pats -> forall m, m ∈ matchAll r text -> key_shape (m1 m)) ->
  Forall (fun i => isValidIssueKey (issueKey i) = true) res ->
  Forall (fun i => isValidIssueKey (issueKey i) = true)
    (fold_left
       (fun res0 pattern =>
          fold_left (fun res' m => pushNew src conf res' (toUpperCase (m1 m)))
                    (matchAll pattern text) res0)
       pats res).
Proof.
  revert res. induction pats as [|p pats IH]; intros res H Hres; simpl; [exact Hres|].
  apply IH.
  - intros r Hr. apply H. right. exact Hr.
  - apply fold_pushNew_valid; [apply H; left; reflexivity | exact Hres].
Qed.

Lemma extractFromBranch_valid (text : option string) :
  Forall (fun i => isValidIssueKey (issueKey i) = true) (extractFromBranch text []).
Proof.
  unfold extractFromBranch. destruct (negb _); [constructor|]. simpl.
  destruct (exec branchPattern _) as [m|] eqn:E; [|constructor].
  constructor; [|constructor]. simpl. apply group_is_valid.
  apply exec_from_member in E as (p & s & pos & res & E & ->).
  apply (default_group_shape branchPattern p s pos res); auto.
Qed.

Lemma extractFromCommitMessage_valid (text : option string) :
  Forall (fun i => isValidIssueKey (issueKey i) = true)
         (extractFromCommitMessage text []).
Proof.
  unfold extractFromCommitMessage. destruct (negb _); [constructor|].
  unfold customPatterns. cbn [fold_left].
  apply (fold_patterns_valid "commit" 1 (default "" text) commitPatterns);
    [|constructor].
  intros r Hr m Hm. apply (matchAll_shape r (default "" text)); auto.
Qed.

Lemma extractFromPrompt_valid (text : option string) :
  Forall (fun i => isValidIssueKey (issueKey i) = true) (extractFromPrompt text []).
Proof.
  unfold extractFromPrompt. destruct (negb _); [constructor|]. simpl.
  apply fold_pushNew_valid; [|constructor].
  intros m Hm. apply (matchAll_shape promptPattern (default "" text)); auto.
Qed.

Lemma extractFromPath_valid (text : option string) :
  Forall (fun i => isValidIssueKey (issueKey i) = true) (extractFromPath text []).
Proof.
  unfold extractFromPath. destruct (negb _); [constructor|]. simpl.
  apply fold_pushNew_valid; [|constructor].
  intros m Hm. apply (matchAll_shape pathPattern (default "" text)); auto.
Qed.

(** X8: without custom patterns every key returned by the four extractors
    is accepted by [isValidIssueKey]: it is one to three letters, a hyphen
    and digits, in upper case.  A key with four or more letters is therefore
    never extracted by the default patterns. *)
Theorem default_keys_are_valid (text : option string) :
  Forall (fun i => isValidIssueKey (issueKey i) = true)
    (extractFromBranch text [] ++ extractFromCommitMessage text []
     ++ extractFromPrompt text [] ++ extractFromPath text []).
Proof.
  repeat (apply Forall_app; split).
  - apply extractFromBranch_valid.
  - apply extractFromCommitMessage_valid.
  - apply extractFromPrompt_valid.
  - apply extractFromPath_valid.
Qed.

(** X9: without custom patterns every record [extractFromSession] returns
    has a key that [isValidIssueKey] accepts. *)
Theorem session_default_keys_are_valid (session : TimeCalculator.Session)
    (commits : list GitAnalyzer.Commit) :
  Forall (fun r => isValidIssueKey (issueKey r) = true)
         (extractFromSession session commits []).
Proof.
  apply Forall_forall. intros r Hr.
  destruct (ExtractorFacts.session_keys_found session commits [] r Hr) as (i & Hi & <-).
  clear Hr r. unfold issueStream in Hi.
  apply elem_of_app in Hi as [H|H]; [|apply elem_of_app in H as [H|H]].
  - destruct (TimeCalculator.prompts session) as [|p0 ps]; [inversion H|].
    pose proof (extractFromBranch_valid (Entry.git_branch p0)) as F.
    rewrite Forall_forall in F. exact (F i H).
  - apply list_elem_of_In, in_concat in H as (l & Hl & Hi).
    apply in_map_iff in Hl as (c & <- & _).
    pose proof (extractFromCommitMessage_valid (Some (GitAnalyzer.message c))) as F.
    rewrite Forall_forall in F. apply F, list_elem_of_In, Hi.
  - apply list_elem_of_In, in_concat in H as (l & Hl & Hi).
    apply in_map_iff in Hl as (p & <- & _).
    apply list_elem_of_In, elem_of_app in Hi as [Hi|Hi].
    + pose proof (extractFromPrompt_valid (Entry.prompt_preview p)) as F.
      rewrite Forall_forall in F. exact (F i Hi).
    + pose proof (extractFromPath_valid (Entry.cwd p)) as F.
      rewrite Forall_forall in F. exact (F i Hi).
Qed.

End DefaultKeyFacts.

(* ===================================================================== *)
(** * Properties of the commit correlator *)
(* ===================================================================== *)
Module GitAnalyzerFacts.
Import GitAnalyzer Spec.

Lemma existsb_eqb_iff (p : string) (seen : list string) :
  existsb (String.eqb p) seen = true <-> p ∈ seen.
Proof.
  induction seen as [|x seen IH]; simpl.
  - split; [discriminate | intros H; inversion H].
  - rewrite orb_true_iff, IH, elem_of_cons, String.eqb_eq. tauto.
Qed.

Lemma unique_spec (paths seen : list string) :
  NoDup (unique seen paths)
  /\ forall p, p ∈ unique seen paths <-> p ∈ paths /\ p ∉ seen.
Proof.
  revert seen. induction paths as [|x paths IH]; intros seen; simpl.
  - split; [constructor|]. intros p. split; [intros H; inversion H | intros [H _]; inversion H].
  - destruct (existsb (String.eqb x) seen) eqn:E.
    + destruct (IH seen) as [Hnd Hin]. split; [exact Hnd|].
      apply existsb_eqb_iff in E. intros p. rewrite Hin, elem_of_cons.
      split; [tauto|]. intros [[->|H] Hn]; [contradiction | tauto].
    + destruct (IH (x :: seen)) as [Hnd Hin].
      assert (Hx : x ∉ seen).
      { intros H. apply existsb_eqb_iff in H. congruence. }
      split.
      * constructor; [|exact Hnd]. rewrite Hin. intros [_ H]. apply H. left.
      * intros p. rewrite !elem_of_cons, Hin, elem_of_cons.
        destruct (decide (p = x)) as [->|Hne]; [tauto|]. tauto.
Qed.

Lemma insert_commit_perm (c : Commit) (l : list Commit) :
  Permutation (c :: l) (insert_commit c l).
Proof.
  induction l as [|d l IH]; simpl; [reflexivity|].
  destruct (_ <=? _)%Z; [reflexivity|]. rewrite <- IH. apply perm_swap.
Qed.

Lemma insert_commit_ascending (c : Commit) (l : list Commit) :
  chained commit_ascending l -> chained commit_ascending (insert_commit c l).
Proof.
  induction l as [|d l IH]; simpl; [trivial|].
  intros H. destruct (timestamp c <=? timestamp d)%Z eqn:E.
  - split; [apply Z.leb_le; exact E | exact H].
  - assert (Hdc : commit_ascending d c).
    { unfold commit_ascending. apply Z.leb_gt in E. lia. }
    destruct l as [|f l]; simpl in *.
    + split; [exact Hdc | exact I].
    + destruct H as [Hdf H]. specialize (IH H).
      destruct (timestamp c <=? timestamp f)%Z; simpl in *.
      * split; [exact Hdc | exact IH].
      * split; [exact Hdf | exact IH].
Qed.

(** X10: [getCommitsFromRepos] asks every distinct non-empty path once:
    its result is a rearrangement of the commits of these paths, ordered by
    ascending timestamp; empty and missing paths are ignored. *)
Theorem commits_from_distinct_repos (getCommits : string -> Z -> Z -> list Commit)
    (repoPaths : list (option string)) (startTime endTime : Z) :
  let repos :=
    unique [] (map (default "") (filter (fun p => truthy p = true) repoPaths)) in
  let out := getCommitsFromRepos getCommits repoPaths startTime endTime in
  NoDup repos
  /\ (forall p, In p repos <-> p <> "" /\ In (Some p) repoPaths)
  /\ Permutation out (concat (map (fun p => getCommits p startTime endTime) repos))
  /\ chained commit_ascending out.
Proof.
  intros repos out.
  destruct (unique_spec (map (default "") (filter (fun p => truthy p = true) repoPaths)) [])
    as [Hnd Hin]. fold repos in Hnd, Hin.
  split; [exact Hnd|]. split; [|split].
  - intros p. rewrite <- list_elem_of_In, Hin. split.
    + intros [H _]. apply list_elem_of_fmap in H as (o & -> & Ho).
      apply list_elem_of_filter in Ho as [Ht Ho].
      destruct o as [q|]; [|discriminate Ht]. simpl. split.
      * intros ->. discriminate Ht.
      * apply list_elem_of_In, Ho.
    + intros [Hne Hp]. split; [|intros H; inversion H].
      apply list_elem_of_fmap. exists (Some p). split; [reflexivity|].
      apply list_elem_of_filter. split; [|apply list_elem_of_In, Hp].
      simpl. apply String.eqb_neq in Hne. rewrite Hne. reflexivity.
  - unfold out, getCommitsFromRepos. fold repos.
    induction (concat (map (fun p => getCommits p startTime endTime) repos))
      as [|c l IH]; simpl; [reflexivity|].
    rewrite <- insert_commit_perm. constructor. exact IH.
  - unfold out, getCommitsFromRepos. fold repos.
    induction (concat (map (fun p => getCommits p startTime endTime) repos))
      as [|c l IH]; simpl; [exact I|].
    apply insert_commit_ascending, IH.
Qed.

End GitAnalyzerFacts.

(* ===================================================================== *)
(** * Further properties of the log parser *)
(* ===================================================================== *)
Module GroupingFacts.
Import LogParser Spec.

Lemma group_push_keys (m : list (string * list Entry.LogEntry)) (e : Entry.LogEntry) :
  map fst (group_push m e)
  = if bool_decide (Entry.session_id e ∈ map fst m) then map fst m
    else map fst m ++ [Entry.session_id e].
Proof.
  induction m as [|[k es] m IH].
  - cbn [group_push map fst app]. case_bool_decide as H; [inversion H | reflexivity].
  - cbn [group_push]. destruct (String.eqb_spec k (Entry.session_id e)) as [->|Hne].
    + clear IH. cbn [map fst].
      case_bool_decide as H; [reflexivity|]. exfalso. apply H. left.
    + cbn [map fst]. rewrite IH. clear IH. cbn [map fst].
      case_bool_decide as H; case_bool_decide as H'; try reflexivity.
      * exfalso. apply H'. right. exact H.
      * exfalso. apply elem_of_cons in H' as [H'|H']; [congruence | contradiction].
Qed.

Lemma group_push_members (m : list (string * list Entry.LogEntry))
    (e : Entry.LogEntry) (k : string) (es : list Entry.LogEntry) :
  NoDup (map fst m) ->
  (k, es) ∈ group_push m e ->
  ((k, es) ∈ m /\ k <> Entry.session_id e)
  \/ (k = Entry.session_id e /\ exists es0, (k, es0) ∈ m /\ es = es0 ++ [e])
  \/ (k = Entry.session_id e /\ (k ∉ map fst m) /\ es = [e]).
Proof.
  induction m as [|[k0 es0] m IH]; simpl; intros Hnd H.
  - apply list_elem_of_singleton in H. injection H as -> ->.
    right. right. repeat split. intros H; inversion H.
  - inversion Hnd as [|? ? Hnotin Hnd']; subst.
    destruct (String.eqb_spec k0 (Entry.session_id e)) as [->|Hne].
    + apply elem_of_cons in H as [[= -> ->]|H].
      * right. left. split; [reflexivity|]. exists es0. split; [left | reflexivity].
      * left. split; [right; exact H|]. intros ->. apply Hnotin.
        apply list_elem_of_fmap. exists (Entry.session_id e, es). split; [reflexivity | exact H].
    + apply elem_of_cons in H as [[= -> ->]|H].
      * left. split; [left | congruence].
      * destruct (IH Hnd' H) as [[H1 H2]|[[H1 (x & H2 & H3)]|[H1 [H2 H3]]]].
        -- left. split; [right; exact H1 | exact H2].
        -- right. left. split; [exact H1|]. exists x. split; [right; exact H2 | exact H3].
        -- right. right. repeat split; auto.
           intros H'. apply elem_of_cons in H' as [H'|H']; [congruence | contradiction].
Qed.

Lemma group_push_perm (m : list (string * list Entry.LogEntry)) (e : Entry.LogEntry) :
  Permutation (concat (map snd (group_push m e))) (concat (map snd m) ++ [e]).
Proof.
  induction m as [|[k es] m IH]; simpl; [reflexivity|].
  destruct (String.eqb k (Entry.session_id e)); simpl.
  - rewrite <- !app_assoc. apply Permutation_app_head. apply Permutation_app_comm.
  - rewrite IH, app_assoc. reflexivity.
Qed.

Lemma with_key_snoc (k : string) (l : list Entry.LogEntry) (e : Entry.LogEntry) :
  with_key k (l ++ [e])
  = with_key k l ++ (if decide (Entry.session_id e = k) then [e] else []).
Proof.
  unfold with_key. rewrite filter_app. reflexivity.
Qed.

Lemma group_push_inv (done : list Entry.LogEntry)
    (m : list (string * list Entry.LogEntry)) (e : Entry.LogEntry) :
  groups_inv done m -> groups_inv (done ++ [e]) (group_push m e).
Proof.
  intros (Hnd & Hm & Hk & Hp). split; [|split; [|split]].
  - rewrite group_push_keys. destruct (decide (Entry.session_id e ∈ map fst m)) as [H|H].
    + rewrite bool_decide_eq_true_2 by exact H. exact Hnd.
    + rewrite bool_decide_eq_false_2 by exact H.
      apply NoDup_app. split; [exact Hnd|]. split; [|apply NoDup_singleton].
      intros x Hx Hx'. apply list_elem_of_singleton in Hx'. subst. contradiction.
  - intros k es H. rewrite with_key_snoc.
    destruct (group_push_members m e k es Hnd H)
      as [[H1 H2]|[[H1 (es0 & H2 & H3)]|[H1 [H2 H3]]]].
    + destruct (Hm k es H1) as [Hne ->].
      rewrite decide_False by congruence. rewrite app_nil_r. split; [exact Hne | reflexivity].
    + destruct (Hm k es0 H2) as [_ ->]. subst es.
      rewrite decide_True by congruence. split; [|reflexivity].
      intros E. apply app_eq_nil in E as [_ E]. discriminate E.
    + subst es. rewrite decide_True by congruence. split; [discriminate|].
      assert (E : with_key k done = []).
      { unfold with_key. destruct (filter _ done) as [|x l] eqn:Ef; [reflexivity|].
        exfalso. assert (Hx : x ∈ filter (fun e0 => Entry.session_id e0 = k) done)
          by (rewrite Ef; left).
        apply list_elem_of_filter in Hx as [Hx1 Hx2]. apply H2. rewrite <- Hx1.
        apply Hk, Hx2. }
      rewrite E. reflexivity.
  - intros x Hx. rewrite group_push_keys.
    destruct (decide (Entry.session_id e ∈ map fst m)) as [H|H].
    + rewrite bool_decide_eq_true_2 by exact H.
      apply elem_of_app in Hx as [Hx|Hx]; [apply Hk, Hx|].
      apply list_elem_of_singleton in Hx. subst. exact H.
    + rewrite bool_decide_eq_false_2 by exact H.
      apply elem_of_app in Hx as [Hx|Hx]; apply elem_of_app.
      * left. apply Hk, Hx.
      * right. apply list_elem_of_singleton in Hx. subst. left.
  - rewrite group_push_perm, Hp. reflexivity.
Qed.

Lemma groupBySession_inv (entries : list Entry.LogEntry) :
  groups_inv entries (groupBySession entries).
Proof.
  unfold groupBySession.
  assert (H : forall l done m, groups_inv done m ->
                groups_inv (done ++ l) (fold_left group_push l m)).
  { induction l as [|e l IH]; intros done m Hm; simpl.
    - rewrite app_nil_r. exact Hm.
    - change (e :: l) with ([e] ++ l). rewrite app_assoc.
      apply IH, group_push_inv, Hm. }
  apply (H entries [] []). split; [constructor|]. split; [|split].
  - intros k es Hin. inversion Hin.
  - intros e He. inversion He.
  - reflexivity.
Qed.

(** X11: [groupBySession] puts every entry in exactly one group: the keys
    of the groups are distinct, every key of the input has a group, no
    group is empty, and the group of a key holds the entries of that key in
    their input order. *)
Theorem groups_partition_entries (entries : list Entry.LogEntry) :
  let groups := groupBySession entries in
  NoDup (map fst groups)
  /\ (forall e, In e entries -> In (Entry.session_id e) (map fst groups))
  /\ (forall k es, In (k, es) groups ->
        es <> [] /\ es = filter (fun e => Entry.session_id e = k) entries)
  /\ Permutation (concat (map snd groups)) entries.
Proof.
  intros groups. destruct (groupBySession_inv entries) as (Hnd & Hm & Hk & Hp).
  fold groups in Hnd, Hm, Hk, Hp.
  split; [exact Hnd|]. split; [|split; [|exact Hp]].
  - intros e He. apply list_elem_of_In, Hk, list_elem_of_In, He.
  - intros k es H. apply Hm, list_elem_of_In, H.
Qed.

End GroupingFacts.

(* ===================================================================== *)
(** * Further properties of the orchestrator: the ledger, reruns and the
      rows of an archived file *)
(* ===================================================================== *)
Module PipelineFacts.
Import Processor Spec ProcessorFacts.

#[local] Notation "c ;;; k" := (bind c (fun _ => k))
  (at level 100, k at level 200, right associativity).

Lemma stays_ret {A X} (f : State -> X) (a : A) : stays f (ret a).
Proof. intros st. reflexivity. Qed.

Lemma stays_bind {A B X} (f : State -> X) (c : M A) (k : A -> M B) :
  stays f c -> (forall a, stays f (k a)) -> stays f (bind c k).
Proof.
  intros Hc Hk st. unfold bind. specialize (Hc st).
  destruct (c st) as [[a|msg] st1]; simpl in *.
  - rewrite (Hk a st1). exact Hc.
  - exact Hc.
Qed.

Lemma stays_forEach {A X} (f : State -> X) (xs : list A) (body : A -> M unit) :
  (forall x, stays f (body x)) -> stays f (forEach xs body).
Proof.
  intros H. induction xs as [|x xs IH]; simpl.
  - apply stays_ret.
  - apply stays_bind; [apply H | intros _; exact IH].
Qed.

(* a statement changes the connection, never the counters of the batch *)
Lemma stays_run {X} (f : State -> X) (stmt : Database.statement) :
  (forall st t b, f (with_tables st t b) = f st) -> stays f (run stmt).
Proof.
  intros H st. unfold run.
  destruct (io_budget st) as [[|n]|]; [reflexivity| |];
    destruct (stmt (foreign_keys st) (tables st)); simpl; apply H.
Qed.

Lemma stays_transaction {X} (f : State -> X) (body : M unit) :
  stays f (transaction body).
Proof. intros st. reflexivity. Qed.

Section Pipeline.

Variable env : Env.
Variable config : Config.

(* [persistSession] counts commits and issues only *)
Lemma persistSession_stays {X} (f : State -> X) (session : TimeCalculator.Session) :
  (forall st t b, f (with_tables st t b) = f st) ->
  (forall st c i, f (add_counts 0 0 c i 0 st) = f st) ->
  stays f (persistSession env config session).
Proof.
  intros Ht Hc. unfold persistSession.
  apply stays_bind; [apply stays_run, Ht | intros _].
  apply stays_bind; [apply stays_forEach; intros p; apply stays_run, Ht | intros _].
  destruct (0 <? _)%nat; [|apply stays_ret].
  apply stays_bind.
  { apply stays_forEach. intros c.
    apply stays_bind; [apply stays_run, Ht | intros _]. apply stays_run, Ht. }
  intros _. apply stays_bind; [intros st; apply Hc | intros _].
  apply stays_bind; [apply stays_forEach; intros i; apply stays_run, Ht | intros _].
  intros st; apply Hc.
Qed.

(* the call that should run the writes of a file leaves the ledger alone *)
Lemma writes_keep_ledger (sessions : list TimeCalculator.Session) (st : State) :
  ledger (snd (transaction (forEach sessions (persistSession env config)) st))
  = ledger st.
Proof. reflexivity. Qed.

(* the statement that marks a file *)
Lemma run_insertLog (file : string) (row : Database.LogRow) (st : State) :
  match run (Database.insertLog file row) st with
  | (Ok _, st') =>
      ledger st !! file = None
      /\ ledger st' = <[file := row]> (ledger st)
      /\ Database.prompts (tables st') = Database.prompts (tables st)
      /\ exists t b, st' = with_tables st t b
  | (Throw _, st') => ledger st' = ledger st
  end.
Proof.
  unfold run, ledger.
  destruct (io_budget st) as [[|n]|]; [reflexivity| |];
    unfold Database.insertLog;
    destruct (Database.processing_log (tables st) !! file) eqn:E; simpl;
    try reflexivity; repeat split; eauto.
Qed.

Lemma tryFile_skip (logFile : string) (st : State) :
  Database.checkProcessed logFile (tables st) = true ->
  tryFile env config logFile st = (Ok Skipped, st).
Proof. intros H. unfold tryFile. rewrite H. reflexivity. Qed.

Lemma tryFile_empty (logFile : string) (st : State)
    (errs : list LogParser.ParseError) :
  Database.checkProcessed logFile (tables st) = false ->
  parseLogFile env logFile = Some ([], errs) ->
  tryFile env config logFile st
  = (run (Database.insertLog logFile
            {| Database.entries_count := 0; Database.sessions_created := 0;
               Database.errors_count := List.length errs |}) ;;;
     ret MarkedEmpty)
      (add_counts 0 0 0 0 0 (add_counts 0 0 0 0 (List.length errs) st)).
Proof. intros Hc Hp. unfold tryFile. rewrite Hc, Hp. reflexivity. Qed.

Lemma checkProcessed_ledger (logFile : string) (st : State) :
  Database.checkProcessed logFile (tables st) = true <-> is_Some (ledger st !! logFile).
Proof. unfold Database.checkProcessed, ledger. apply bool_decide_eq_true. Qed.

Lemma checkProcessed_false (logFile : string) (st : State) :
  Database.checkProcessed logFile (tables st) = false <-> ledger st !! logFile = None.
Proof.
  unfold Database.checkProcessed, ledger. rewrite bool_decide_eq_false.
  rewrite <- eq_None_not_Some. reflexivity.
Qed.

(** What one file does to the ledger, by outcome. *)
Lemma processFile_ledger (logFile : string) (st : State) :
  match processFile env config logFile st with
  | (Skipped, st') => st' = st /\ is_Some (ledger st !! logFile)
  | (MarkedEmpty, st') | (Archived, st') =>
      ledger st !! logFile = None
      /\ exists row, ledger st' = <[logFile := row]> (ledger st)
  | (Failed _, st') =>
      ledger st' = ledger st
      \/ (ledger st !! logFile = None
          /\ exists row, ledger st' = <[logFile := row]> (ledger st))
  end.
Proof.
  destruct (Database.checkProcessed logFile (tables st)) eqn:Hc.
  { unfold processFile. rewrite (tryFile_skip _ _ Hc).
    split; [reflexivity | apply checkProcessed_ledger, Hc]. }
  pose proof (proj1 (checkProcessed_false _ _) Hc) as Hn.
  destruct (parseLogFile env logFile) as [[entries errs]|] eqn:Hp.
  2:{ unfold processFile, tryFile. rewrite Hc, Hp. left. reflexivity. }
  destruct entries as [|e es].
  - unfold processFile. rewrite (tryFile_empty _ _ _ Hc Hp). unfold bind.
    match goal with |- context [run (Database.insertLog _ ?r) ?x] =>
      pose proof (run_insertLog logFile r x) as R;
      destruct (run (Database.insertLog logFile r) x) as [[[]|msg] st1]
    end.
    + destruct R as (_ & R & _). simpl. split; [exact Hn|]. eexists. exact R.
    + left. exact R.
  - unfold processFile.
    rewrite (tryFile_entries env config logFile st (e :: es) errs Hc Hp) by discriminate.
    unfold bind at 1.
    match goal with |- context [transaction ?b ?x] =>
      pose proof (writes_keep_ledger (allSessionsOf env config (e :: es)) x) as W;
      destruct (transaction b x) as [[[]|msg] st1]
    end; simpl in W; [|left; exact W].
    unfold bind at 1.
    match goal with |- context [run (Database.insertLog _ ?r) ?x] =>
      pose proof (run_insertLog logFile r x) as R;
      destruct (run (Database.insertLog logFile r) x) as [[[]|msg] st2]
    end.
    + destruct R as (_ & R & _). rewrite W in R. unfold bind.
      destruct (renameSync env logFile); simpl.
      * split; [exact Hn|]. eexists. exact R.
      * right. split; [exact Hn|]. eexists. exact R.
    + left. exact (eq_trans R W).
Qed.

(* a row of the ledger outlives every file *)
Lemma processFile_keeps_row (logFile : string) (st : State)
    (f : string) (row : Database.LogRow) :
  ledger st !! f = Some row ->
  ledger (snd (processFile env config logFile st)) !! f = Some row.
Proof.
  intros H. pose proof (processFile_ledger logFile st) as L.
  destruct (processFile env config logFile st) as [o st']. simpl.
  assert (K : forall r, ledger st !! logFile = None ->
                        ledger st' = <[logFile := r]> (ledger st) ->
                        ledger st' !! f = Some row).
  { intros r Hn E. rewrite E. rewrite lookup_insert_ne; [exact H|].
    intros <-. rewrite H in Hn. discriminate Hn. }
  destruct o as [| | |msg].
  - destruct L as [-> _]. exact H.
  - destruct L as (Hn & r & E). exact (K r Hn E).
  - destruct L as (Hn & r & E). exact (K r Hn E).
  - destruct L as [E|(Hn & r & E)]; [rewrite E; exact H | exact (K r Hn E)].
Qed.

Lemma processFiles_keeps_row (logFiles : list string) (st : State)
    (f : string) (row : Database.LogRow) :
  ledger st !! f = Some row ->
  ledger (snd (processFiles env config logFiles st)) !! f = Some row.
Proof.
  revert st. induction logFiles as [|g rest IH]; intros st H; simpl; [exact H|].
  pose proof (processFile_keeps_row g st f row H) as H1.
  destruct (processFile env config g st) as [o st1]. simpl in H1.
  specialize (IH st1 H1).
  destruct (processFiles env config rest st1) as [os st2]. exact IH.
Qed.

(** X12: the ledger only grows.  One file leaves the rows of all other
    files as they are, and a row that is in the ledger is still there,
    unchanged, after any batch of files, whatever their outcomes. *)
Theorem ledger_rows_are_kept (logFiles : list string) (st : State) :
  (forall logFile f, f <> logFile ->
     ledger (snd (processFile env config logFile st)) !! f = ledger st !! f)
  /\ (forall f row,
        Database.processing_log (tables st) !! f = Some row ->
        Database.processing_log
          (tables (snd (processFiles env config logFiles st))) !! f = Some row).
Proof.
  split.
  - intros logFile f Hne. pose proof (processFile_ledger logFile st) as L.
    destruct (processFile env config logFile st) as [o st']. simpl.
    assert (K : forall r, ledger st' = <[logFile := r]> (ledger st) ->
                          ledger st' !! f = ledger st !! f).
    { intros r E. rewrite E. apply lookup_insert_ne. congruence. }
    destruct o as [| | |msg].
    + destruct L as [-> _]. reflexivity.
    + destruct L as (_ & r & E). exact (K r E).
    + destruct L as (_ & r & E). exact (K r E).
    + destruct L as [E|(_ & r & E)]; [rewrite E; reflexivity | exact (K r E)].
  - intros f row H. apply (processFiles_keeps_row logFiles st f row H).
Qed.

(* after a batch, every file that did not fail is in the ledger *)
Lemma processFiles_marks (logFiles : list string) (st : State) :
  Forall succeeded (fst (processFiles env config logFiles st)) ->
  Forall (fun f => is_Some (ledger (snd (processFiles env config logFiles st)) !! f))
         logFiles.
Proof.
  revert st. induction logFiles as [|g rest IH]; intros st; simpl; [constructor|].
  pose proof (processFile_ledger g st) as L.
  destruct (processFile env config g st) as [o st1] eqn:E1.
  specialize (IH st1).
  pose proof (fun row => processFiles_keeps_row rest st1 g row) as K.
  destruct (processFiles env config rest st1) as [os st2]. simpl in *.
  intros H. inversion H as [|? ? Ho Hos]; subst.
  constructor; [|apply IH, Hos].
  destruct o as [| | |msg]; [| | |destruct Ho].
  - destruct L as [-> [row Hr]]. rewrite (K row Hr). eauto.
  - destruct L as (_ & r & E). rewrite (K r); [eauto|]. rewrite E. apply lookup_insert_eq.
  - destruct L as (_ & r & E). rewrite (K r); [eauto|]. rewrite E. apply lookup_insert_eq.
Qed.

Lemma processFiles_all_marked (logFiles : list string) (st : State) :
  Forall (fun f => is_Some (ledger st !! f)) logFiles ->
  processFiles env config logFiles st = (map (fun _ => Skipped) logFiles, st).
Proof.
  induction 1 as [|g rest Hg _ IH]; simpl; [reflexivity|].
  unfold processFile. rewrite (tryFile_skip g st) by (apply checkProcessed_ledger, Hg).
  rewrite IH. reflexivity.
Qed.

(** X13: a pass in which no file failed is not repeated: a second pass
    over the same files skips every one of them and changes nothing, neither
    a table nor a counter. *)
Theorem second_pass_skips_everything (logFiles : list string) (st : State) :
  let first := processFiles env config logFiles st in
  Forall succeeded (fst first) ->
  processFiles env config logFiles (snd first)
  = (map (fun _ => Skipped) logFiles, snd first).
Proof.
  intros first H. apply processFiles_all_marked, processFiles_marks, H.
Qed.

(** The counters of a file that was read, whatever became of it. *)
Lemma tryFile_counters {X} (f : State -> X) (logFile : string) (st : State)
    (entries : list Entry.LogEntry) (errs : list LogParser.ParseError) :
  (forall st t b, f (with_tables st t b) = f st) ->
  (forall st c i, f (add_counts 0 0 c i 0 st) = f st) ->
  Database.checkProcessed logFile (tables st) = false ->
  parseLogFile env logFile = Some (entries, errs) ->
  f (snd (tryFile env config logFile st))
  = f (counted (List.length entries) (List.length (allSessionsOf env config entries))
               (List.length errs) st).
Proof.
  intros Ht Hc Hck Hp. destruct entries as [|e es].
  - rewrite (tryFile_empty _ _ _ Hck Hp).
    etransitivity.
    { apply (stays_bind f); [apply stays_run, Ht | intros _; apply stays_ret]. }
    unfold counted. symmetry. apply (Hc _ 0 0).
  - rewrite (tryFile_entries env config logFile st (e :: es) errs Hck Hp) by discriminate.
    apply (stays_bind f).
    { apply stays_transaction. }
    intros _. apply stays_bind; [apply stays_run, Ht | intros _].
    apply stays_bind; [|intros _; apply stays_ret].
    destruct (renameSync env logFile); intros st1; reflexivity.
Qed.

(* the [try] block returns when the file is skipped, marked or archived *)
Lemma tryFile_returns (logFile : string) (st : State) (o : Outcome) :
  fst (tryFile env config logFile st) = Ok o -> failure_count o = 0.
Proof.
  unfold tryFile.
  destruct (Database.checkProcessed logFile (tables st)); [intros [= <-]; reflexivity|].
  destruct (parseLogFile env logFile) as [[[|e es] errs]|]; unfold bind, update; simpl.
  - destruct (run _ _) as [[[]|msg] st1]; [intros [= <-]; reflexivity | discriminate].
  - discriminate.
  - discriminate.
Qed.

(** X14: the summary counts a file as soon as it has been read: its
    entries, its sessions and its parse errors are added to the counters
    whatever the outcome; a failure adds one more error.  So the entries
    and sessions of a file that failed are counted although none of them
    is stored. *)
Theorem file_is_counted_whatever_happens (logFile : string) (st : State)
    (entries : list Entry.LogEntry) (errs : list LogParser.ParseError) :
  Database.checkProcessed logFile (tables st) = false ->
  parseLogFile env logFile = Some (entries, errs) ->
  let outcome := fst (processFile env config logFile st) in
  let st' := snd (processFile env config logFile st) in
  totalEntries st' = totalEntries st + List.length entries
  /\ totalSessions st' = totalSessions st + List.length (allSessionsOf env config entries)
  /\ errors st' = errors st + List.length errs + failure_count outcome.
Proof.
  intros Hck Hp outcome st'.
  pose proof (tryFile_counters totalEntries logFile st entries errs
                (fun _ _ _ => eq_refl) (fun s _ _ => Nat.add_0_r (totalEntries s))
                Hck Hp) as H1.
  pose proof (tryFile_counters totalSessions logFile st entries errs
                (fun _ _ _ => eq_refl) (fun s _ _ => Nat.add_0_r (totalSessions s))
                Hck Hp) as H2.
  pose proof (tryFile_counters errors logFile st entries errs
                (fun _ _ _ => eq_refl) (fun s _ _ => Nat.add_0_r (errors s))
                Hck Hp) as H3.
  unfold outcome, st', processFile.
  pose proof (tryFile_returns logFile st) as Ho.
  destruct (tryFile env config logFile st) as [[o|msg] st1]; simpl in *;
    rewrite H1, H2, H3; [rewrite (Ho o eq_refl)|]; lia.
Qed.

(* ---------------------------------------------------------------- *)
(* references between the tables *)

Lemma triple_ret {A} (P R : Database.Tables -> Prop) (a : A) :
  table_triple P (ret a) P R.
Proof. intros st H. exact H. Qed.

Lemma triple_counts (P R : Database.Tables -> Prop) (a b c d e : nat) :
  table_triple P (update (add_counts a b c d e)) P R.
Proof. intros st H. exact H. Qed.

Lemma triple_bind {A B} (P Q Q' R : Database.Tables -> Prop) (c : M A) (k : A -> M B) :
  table_triple P c Q R -> (forall a, table_triple Q (k a) Q' R) ->
  table_triple P (bind c k) Q' R.
Proof.
  intros Hc Hk st H. unfold bind. specialize (Hc st H).
  destruct (c st) as [[a|msg] st1]; [apply Hk, Hc | exact Hc].
Qed.

Lemma triple_forEach {A} (P R : Database.Tables -> Prop) (xs : list A)
    (body : A -> M unit) :
  (forall x, table_triple P (body x) P R) -> table_triple P (forEach xs body) P R.
Proof.
  intros H. induction xs as [|x xs IH]; simpl; [apply triple_ret|].
  eapply triple_bind; [apply H | intros _; exact IH].
Qed.

Lemma triple_run (P Q R : Database.Tables -> Prop) (stmt : Database.statement) :
  (forall fk t t', P t -> stmt fk t = inl t' -> Q t') ->
  (forall t, P t -> R t) ->
  table_triple P (run stmt) Q R.
Proof.
  intros Hok Hthrow st H. unfold run.
  destruct (io_budget st) as [[|n]|]; [apply Hthrow, H| |];
    destruct (stmt (foreign_keys st) (tables st)) as [t'|msg] eqn:E; simpl;
    eauto.
Qed.


Lemma triple_weaken {A} (P Q Q' R : Database.Tables -> Prop) (c : M A) :
  table_triple P c Q R -> (forall t, Q t -> Q' t) -> table_triple P c Q' R.
Proof.
  intros Hc Hq st H. specialize (Hc st H).
  destruct (c st) as [[a|msg] st1]; [apply Hq, Hc | exact Hc].
Qed.

Lemma insertSession_refs (sid : string) (st en : Z) (dir : option string)
    (dur : option Q) (cnt : nat) (fk : bool) (t t' : Database.Tables) :
  refs_ok t -> Database.insertSession sid st en dir dur cnt fk t = inl t' ->
  refs_with sid t'.
Proof.
  intros (Hp & Hc & Hi). unfold Database.insertSession.
  destruct dur as [d|]; [|discriminate]. intros [= <-].
  unfold refs_with, refs_ok. cbn.
  assert (K : forall s, is_Some (Database.sessions t !! s) ->
                        is_Some (<[sid := {| Database.start_time := st;
                                             Database.end_time := en;
                                             Database.cwd := dir;
                                             Database.duration_minutes := d;
                                             Database.prompt_count := cnt |}]>
                                   (Database.sessions t) !! s)).
  { intros s Hs. apply lookup_insert_is_Some'. right. exact Hs. }
  split; [split; [|split]|].
  - intros row Hr. apply K, Hp, Hr.
  - intros s h Hsh. destruct (Hc s h Hsh) as [H1 H2]. split; [apply K, H1 | exact H2].
  - intros s k src Hs. apply K, (Hi s k src Hs).
  - apply lookup_insert_is_Some'. left. reflexivity.
Qed.

Lemma insertPrompt_refs (sid : string) (row : Database.PromptRow) (fk : bool)
    (t t' : Database.Tables) :
  Database.session_id row = sid ->
  refs_with sid t -> Database.insertPrompt row fk t = inl t' -> refs_with sid t'.
Proof.
  intros Hrow [(Hp & Hc & Hi) Hs]. unfold Database.insertPrompt.
  destruct (Database.fk_ok _ _); [|discriminate]. intros [= <-].
  unfold refs_with, refs_ok. cbn. split; [split; [|split; assumption]|exact Hs].
  intros r Hr. apply elem_of_app in Hr as [Hr|Hr]; [apply Hp, Hr|].
  apply list_elem_of_singleton in Hr. subst r. rewrite Hrow. exact Hs.
Qed.

Lemma insertCommit_refs (sid hash : string) (row : Database.CommitRow) (fk : bool)
    (t t' : Database.Tables) :
  refs_with sid t -> Database.insertCommit hash row fk t = inl t' ->
  refs_with sid t' /\ is_Some (Database.git_commits t' !! hash).
Proof.
  intros [(Hp & Hc & Hi) Hs]. unfold Database.insertCommit.
  destruct (Database.git_commits t !! hash) as [old|] eqn:E; intros [= <-].
  - split; [exact (conj (conj Hp (conj Hc Hi)) Hs)|]. rewrite E. eauto.
  - unfold refs_with, refs_ok. cbn. split; [split; [split; [|split]|]|]; try assumption.
    + intros s h Hsh. destruct (Hc s h Hsh) as [H1 H2]. split; [exact H1|].
      apply lookup_insert_is_Some'. right. exact H2.
    + apply lookup_insert_is_Some'. left. reflexivity.
Qed.

Lemma insertSessionCommit_refs (sid hash : string) (fk : bool)
    (t t' : Database.Tables) :
  refs_with sid t /\ is_Some (Database.git_commits t !! hash) ->
  Database.insertSessionCommit sid hash fk t = inl t' -> refs_with sid t'.
Proof.
  intros [[(Hp & Hc & Hi) Hs] Hh]. unfold Database.insertSessionCommit.
  destruct (bool_decide _);
    [intros [= <-]; exact (conj (conj Hp (conj Hc Hi)) Hs)|].
  destruct (Database.fk_ok _ _); [|discriminate]. intros [= <-].
  unfold refs_with, refs_ok. cbn. split; [split; [|split]|]; try assumption.
  intros s h Hsh. apply elem_of_union in Hsh as [Hsh|Hsh]; [|apply Hc, Hsh].
  apply elem_of_singleton in Hsh. injection Hsh as -> ->. split; assumption.
Qed.

Lemma insertSessionIssue_refs (sid key src : string) (conf : Q) (fk : bool)
    (t t' : Database.Tables) :
  refs_with sid t -> Database.insertSessionIssue sid key src conf fk t = inl t' ->
  refs_with sid t'.
Proof.
  intros [(Hp & Hc & Hi) Hs]. unfold Database.insertSessionIssue.
  destruct (negb _); [discriminate|]. destruct (negb _); [discriminate|].
  destruct (Database.fk_ok _ _); [|discriminate]. intros [= <-].
  unfold refs_with, refs_ok. cbn. split; [split; [|split]|]; try assumption.
  intros s k sr H. apply lookup_insert_is_Some' in H as [[= -> _ _]|H];
    [exact Hs | apply (Hi s k sr H)].
Qed.


(* a session is written with the references intact at every step *)
Lemma persistSession_refs (session : TimeCalculator.Session) :
  table_triple refs_ok (persistSession env config session) refs_ok refs_ok.
Proof.
  unfold persistSession.
  set (sid := TimeCalculator.session_id session).
  apply (triple_bind _ (refs_with sid)).
  { apply triple_run; [intros fk t t'; apply insertSession_refs | auto]. }
  intros _.
  assert (W : forall t, refs_with sid t -> refs_ok t) by (intros t H; apply H).
  apply (triple_bind _ (refs_with sid)).
  { apply triple_forEach. intros p.
    apply triple_run; [intros fk t t'; apply insertPrompt_refs; reflexivity | exact W]. }
  intros _.
  destruct (0 <? _)%nat; [|apply (triple_weaken _ (refs_with sid)); [apply triple_ret | exact W]].
  apply (triple_bind _ (refs_with sid)).
  { apply triple_forEach. intros c.
    apply (triple_bind _ (fun t => refs_with sid t
                                   /\ is_Some (Database.git_commits t
                                                 !! GitAnalyzer.commit_hash c))).
    - apply triple_run; [intros fk t t'; apply insertCommit_refs | exact W].
    - intros _. apply triple_run;
        [intros fk t t'; apply insertSessionCommit_refs | intros t H; apply H]. }
  intros _. apply (triple_bind _ (refs_with sid)); [apply triple_counts | intros _].
  apply (triple_bind _ (refs_with sid)).
  { apply triple_forEach. intros i.
    apply triple_run; [intros fk t t'; apply insertSessionIssue_refs | exact W]. }
  intros _. apply (triple_weaken _ (refs_with sid)); [apply triple_counts | exact W].
Qed.




End Pipeline.


Lemma ledger_rows_are_kept_witness :
  Database.processing_log
    (tables (snd (processFile mixed_env sample_config "logs/empty.jsonl"
                    (strict_state None)))) !! "logs/empty.jsonl"
  = Some {| Database.entries_count := 0; Database.sessions_created := 0;
            Database.errors_count := 1 |}
  /\ Database.processing_log
       (tables (snd (processFiles mixed_env sample_config
                       ["logs/prompts-2026-01.jsonl"; "logs/empty.jsonl"]
                       (snd (processFile mixed_env sample_config
                               "logs/empty.jsonl" (strict_state None))))))
       !! "logs/empty.jsonl"
     = Some {| Database.entries_count := 0; Database.sessions_created := 0;
               Database.errors_count := 1 |}.
Proof.
  assert (H : Database.processing_log
    (tables (snd (processFile mixed_env sample_config "logs/empty.jsonl"
                    (strict_state None)))) !! "logs/empty.jsonl"
  = Some {| Database.entries_count := 0; Database.sessions_created := 0;
            Database.errors_count := 1 |}) by (vm_compute; reflexivity).
  split; [exact H|].
  exact (proj2 (ledger_rows_are_kept mixed_env sample_config
                  ["logs/prompts-2026-01.jsonl"; "logs/empty.jsonl"] _) _ _ H).
Defined.

Lemma second_pass_skips_everything_witness :
  Forall succeeded
    (fst (processFiles mixed_env sample_config ["logs/empty.jsonl"]
            (strict_state None)))
  /\ processFiles mixed_env sample_config ["logs/empty.jsonl"]
       (snd (processFiles mixed_env sample_config ["logs/empty.jsonl"]
               (strict_state None)))
     = ([Skipped],
        snd (processFiles mixed_env sample_config ["logs/empty.jsonl"]
               (strict_state None))).
Proof.
  assert (H : Forall succeeded
    (fst (processFiles mixed_env sample_config ["logs/empty.jsonl"]
            (strict_state None)))).
  { vm_compute. constructor; [exact I | constructor]. }
  split; [exact H|].
  exact (second_pass_skips_everything mixed_env sample_config
           ["logs/empty.jsonl"] (strict_state None) H).
Defined.

Lemma file_is_counted_whatever_happens_witness :
  failure_count (fst (processFile sample_env sample_config
                        "logs/prompts-2026-01.jsonl" (strict_state None)))
  = 1
  /\ tables (snd (processFile sample_env sample_config "logs/prompts-2026-01.jsonl"
                    (strict_state None)))
     = Database.empty
  /\ totalEntries (snd (processFile sample_env sample_config
                          "logs/prompts-2026-01.jsonl" (strict_state None)))
     = 0 + 1
  /\ totalSessions (snd (processFile sample_env sample_config
                           "logs/prompts-2026-01.jsonl" (strict_state None)))
     = 0 + 1
  /\ errors (snd (processFile sample_env sample_config
                    "logs/prompts-2026-01.jsonl" (strict_state None)))
     = 0 + 0
       + failure_count (fst (processFile sample_env sample_config
                               "logs/prompts-2026-01.jsonl" (strict_state None))).
Proof.
  split; [vm_compute; reflexivity|]. split; [vm_compute; reflexivity|].
  exact (file_is_counted_whatever_happens sample_env sample_config
           "logs/prompts-2026-01.jsonl" (strict_state None) [sample_entry] []
           eq_refl eq_refl).
Defined.

End PipelineFacts.

(* ===================================================================== *)
(** * Properties of the grouping of untracked sessions *)
(* ===================================================================== *)
Module QueryFacts.
Import Query Spec.

Lemma addToGroups_keys (m : list (string * DirectoryGroup)) (dir : string)
    (s : UntrackedSession) :
  map fst (addToGroups m dir s)
  = if bool_decide (dir ∈ map fst m) then map fst m else map fst m ++ [dir].
Proof.
  induction m as [|[k g] m IH].
  - cbn [addToGroups map fst app]. case_bool_decide as H; [inversion H | reflexivity].
  - cbn [addToGroups]. destruct (String.eqb_spec k dir) as [->|Hne].
    + clear IH. cbn [map fst].
      case_bool_decide as H; [reflexivity|]. exfalso. apply H. left.
    + cbn [map fst]. rewrite IH. clear IH. cbn [map fst].
      case_bool_decide as H; case_bool_decide as H'; try reflexivity.
      * exfalso. apply H'. right. exact H.
      * exfalso. apply elem_of_cons in H' as [H'|H']; [congruence | contradiction].
Qed.

Lemma addToGroups_members (m : list (string * DirectoryGroup)) (dir : string)
    (s : UntrackedSession) (k : string) (g : DirectoryGroup) :
  NoDup (map fst m) ->
  (k, g) ∈ addToGroups m dir s ->
  ((k, g) ∈ m /\ k <> dir)
  \/ (k = dir /\ exists g0, (k, g0) ∈ m /\ g = addSession g0 s)
  \/ (k = dir /\ (k ∉ map fst m) /\ g = addSession (newGroup dir) s).
Proof.
  induction m as [|[k0 g0] m IH]; cbn [addToGroups]; intros Hnd H.
  - apply list_elem_of_singleton in H. injection H as -> ->.
    right. right. repeat split. intros H; inversion H.
  - cbn [map fst] in Hnd. inversion Hnd as [|? ? Hnotin Hnd']; subst.
    destruct (String.eqb_spec k0 dir) as [->|Hne].
    + apply elem_of_cons in H as [[= -> ->]|H].
      * right. left. split; [reflexivity|]. exists g0. split; [left | reflexivity].
      * left. split; [right; exact H|]. intros ->. apply Hnotin.
        apply list_elem_of_fmap. exists (dir, g). split; [reflexivity | exact H].
    + apply elem_of_cons in H as [[= -> ->]|H].
      * left. split; [left | congruence].
      * destruct (IH Hnd' H) as [[H1 H2]|[[H1 (x & H2 & H3)]|[H1 [H2 H3]]]].
        -- left. split; [right; exact H1 | exact H2].
        -- right. left. split; [exact H1|]. exists x. split; [right; exact H2 | exact H3].
        -- right. right. repeat split; auto.
           intros H'. cbn [map fst] in H'.
           apply elem_of_cons in H' as [H'|H']; [congruence | contradiction].
Qed.

Lemma in_dir_snoc (d : string) (l : list UntrackedSession) (s : UntrackedSession) :
  in_dir d (l ++ [s]) = in_dir d l ++ (if decide (dirOf s = d) then [s] else []).
Proof. unfold in_dir. rewrite filter_app. reflexivity. Qed.

Lemma minutes_sum_snoc (l : list UntrackedSession) (s : UntrackedSession) :
  minutes_sum (l ++ [s])
  = (minutes_sum l + TimeCalculator.orZero (duration_minutes s))%Q.
Proof. unfold minutes_sum. rewrite fold_left_app. reflexivity. Qed.

Lemma commits_sum_snoc (l : list UntrackedSession) (s : UntrackedSession) :
  commits_sum (l ++ [s]) = commits_sum l + commit_count s.
Proof. unfold commits_sum. rewrite map_app, list_sum_app. simpl. lia. Qed.

(* a group that gets a session of its directory *)
Lemma group_of_add (done : list UntrackedSession) (g : DirectoryGroup)
    (s : UntrackedSession) :
  dirOf s = directory g -> group_of done g -> group_of (done ++ [s]) (addSession g s).
Proof.
  intros Hd (Hne & Hs & Hm & Hc). unfold group_of. cbn [addSession sessions directory
    total_minutes g_commit_count].
  split; [|split; [|split]].
  - intros E. apply app_eq_nil in E as [_ E]. discriminate E.
  - rewrite in_dir_snoc, decide_True by exact Hd. rewrite Hs at 1. reflexivity.
  - rewrite minutes_sum_snoc, Hm. reflexivity.
  - rewrite commits_sum_snoc, Hc. reflexivity.
Qed.

(* a group that sees a session of another directory go by *)
Lemma group_of_other (done : list UntrackedSession) (g : DirectoryGroup)
    (s : UntrackedSession) :
  dirOf s <> directory g -> group_of done g -> group_of (done ++ [s]) g.
Proof.
  intros Hd (Hne & Hs & Hm & Hc). unfold group_of.
  rewrite in_dir_snoc, decide_False by exact Hd. rewrite app_nil_r.
  repeat split; assumption.
Qed.

(* the first session of a directory *)
Lemma group_of_new (done : list UntrackedSession) (s : UntrackedSession) :
  (forall x, x ∈ done -> dirOf x <> dirOf s) ->
  group_of (done ++ [s]) (addSession (newGroup (dirOf s)) s).
Proof.
  intros Hnew. unfold group_of. cbn [addSession newGroup sessions directory
    total_minutes g_commit_count app].
  split; [discriminate|].
  split; [|split; [reflexivity | unfold commits_sum; simpl; lia]].
  rewrite in_dir_snoc, decide_True by reflexivity.
  assert (E : in_dir (dirOf s) done = []).
  { unfold in_dir. destruct (filter _ done) as [|x l] eqn:Ef; [reflexivity|].
    exfalso. assert (Hx : x ∈ filter (fun e0 => dirOf e0 = dirOf s) done)
      by (rewrite Ef; left).
    apply list_elem_of_filter in Hx as [Hx1 Hx2]. exact (Hnew x Hx2 Hx1). }
  rewrite E. reflexivity.
Qed.

Lemma addToGroups_inv (done : list UntrackedSession)
    (m : list (string * DirectoryGroup)) (s : UntrackedSession) :
  dir_inv done m -> dir_inv (done ++ [s]) (addToGroups m (dirOf s) s).
Proof.
  intros (Hnd & Hm & Hk). split; [|split].
  - rewrite addToGroups_keys. case_bool_decide as H; [exact Hnd|].
    apply NoDup_app. split; [exact Hnd|]. split; [|apply NoDup_singleton].
    intros x Hx Hx'. apply list_elem_of_singleton in Hx'. subst. contradiction.
  - intros k g H.
    destruct (addToGroups_members m (dirOf s) s k g Hnd H)
      as [[H1 H2]|[[H1 (g0 & H2 & H3)]|[H1 [H2 H3]]]].
    + destruct (Hm k g H1) as [Hd Hg]. split; [exact Hd|].
      apply group_of_other; [congruence | exact Hg].
    + destruct (Hm k g0 H2) as [Hd Hg]. subst g. split; [exact Hd|].
      apply group_of_add; [congruence | exact Hg].
    + subst g k. split; [reflexivity|]. apply group_of_new.
      intros x Hx E. apply H2. rewrite <- E. apply Hk, Hx.
  - intros x Hx. rewrite addToGroups_keys.
    case_bool_decide as H.
    + apply elem_of_app in Hx as [Hx|Hx]; [apply Hk, Hx|].
      apply list_elem_of_singleton in Hx. subst. exact H.
    + apply elem_of_app in Hx as [Hx|Hx]; apply elem_of_app.
      * left. apply Hk, Hx.
      * right. apply list_elem_of_singleton in Hx. subst. left.
Qed.

Lemma byDirectory_inv (l : list UntrackedSession) :
  dir_inv l (fold_left (fun m session => addToGroups m (dirOf session) session) l []).
Proof.
  assert (H : forall l done m, dir_inv done m ->
                dir_inv (done ++ l)
                  (fold_left (fun m session => addToGroups m (dirOf session) session)
                             l m)).
  { clear l. induction l as [|s l IH]; intros done m Hm; simpl.
    - rewrite app_nil_r. exact Hm.
    - change (s :: l) with ([s] ++ l). rewrite app_assoc.
      apply IH, addToGroups_inv, Hm. }
  apply (H l [] []). split; [constructor|]. split.
  - intros k g Hin. inversion Hin.
  - intros e He. inversion He.
Qed.

Lemma insert_group_perm (g : DirectoryGroup) (l : list DirectoryGroup) :
  Permutation (g :: l) (insert_group g l).
Proof.
  induction l as [|h l IH]; simpl; [reflexivity|].
  destruct (Qle_bool _ _); [reflexivity|]. rewrite <- IH. apply perm_swap.
Qed.

Lemma sorted_perm (l : list DirectoryGroup) :
  Permutation (foldr insert_group [] l) l.
Proof.
  induction l as [|g l IH]; simpl; [reflexivity|].
  rewrite <- insert_group_perm. constructor. exact IH.
Qed.

Lemma insert_group_sorted (g : DirectoryGroup) (l : list DirectoryGroup) :
  chained heavier_first l -> chained heavier_first (insert_group g l).
Proof.
  induction l as [|h l IH]; simpl; [trivial|].
  intros H. destruct (Qle_bool (total_minutes h) (total_minutes g)) eqn:E.
  - split; [apply Qle_bool_iff; exact E | exact H].
  - assert (Hhg : heavier_first h g).
    { unfold heavier_first. apply Qlt_le_weak, Qnot_le_lt. intros Hle.
      apply Qle_bool_iff in Hle. congruence. }
    destruct l as [|f l]; simpl in *.
    + split; [exact Hhg | exact I].
    + destruct H as [Hhf H]. specialize (IH H).
      destruct (Qle_bool (total_minutes f) (total_minutes g)); simpl in *.
      * split; [exact Hhg | exact IH].
      * split; [exact Hhf | exact IH].
Qed.

Lemma addToGroups_perm (m : list (string * DirectoryGroup)) (dir : string)
    (s : UntrackedSession) :
  Permutation (concat (map (fun kg => sessions (snd kg)) (addToGroups m dir s)))
              (concat (map (fun kg => sessions (snd kg)) m) ++ [s]).
Proof.
  induction m as [|[k g] m IH]; simpl; [reflexivity|].
  destruct (String.eqb k dir); simpl.
  - rewrite <- !app_assoc. apply Permutation_app_head. apply Permutation_app_comm.
  - rewrite IH, app_assoc. reflexivity.
Qed.

(* every session is in one group *)
Lemma byDirectory_perm (l : list UntrackedSession) :
  Permutation
    (concat (map (fun kg => sessions (snd kg))
               (fold_left (fun m session => addToGroups m (dirOf session) session) l [])))
    l.
Proof.
  assert (H : forall l done m,
             Permutation (concat (map (fun kg => sessions (snd kg)) m)) done ->
             Permutation
               (concat (map (fun kg => sessions (snd kg))
                  (fold_left (fun m session => addToGroups m (dirOf session) session)
                             l m)))
               (done ++ l)).
  { clear l. induction l as [|s l IH]; intros done m Hm; simpl.
    - rewrite app_nil_r. exact Hm.
    - change (s :: l) with ([s] ++ l). rewrite app_assoc.
      apply IH. rewrite addToGroups_perm, Hm. reflexivity. }
  apply (H l [] []). reflexivity.
Qed.

Lemma commits_sum_concat (ls : list (list UntrackedSession)) :
  commits_sum (concat ls) = list_sum (map commits_sum ls).
Proof.
  induction ls as [|x ls IH]; simpl; [reflexivity|].
  unfold commits_sum in *. rewrite map_app, list_sum_app, IH. reflexivity.
Qed.

Lemma list_sum_perm (a b : list nat) : Permutation a b -> list_sum a = list_sum b.
Proof. intros H. induction H; simpl; lia. Qed.

Lemma commits_sum_perm (a b : list UntrackedSession) :
  Permutation a b -> commits_sum a = commits_sum b.
Proof. intros H. apply list_sum_perm, Permutation_map, H. Qed.

(* the groups of the result are the groups of the map *)
Lemma result_groups (l : list UntrackedSession) (g : DirectoryGroup) :
  g ∈ groupUntrackedByDirectory l ->
  (directory g, g)
    ∈ fold_left (fun m session => addToGroups m (dirOf session) session) l [].
Proof.
  unfold groupUntrackedByDirectory. rewrite sorted_perm.
  intros H. apply list_elem_of_fmap in H as ([k g'] & -> & H). simpl.
  destruct (byDirectory_inv l) as (_ & Hm & _).
  destruct (Hm k g' H) as [-> _]. exact H.
Qed.

(** X17: [groupUntrackedByDirectory] puts every session in exactly one
    group, the group of its cwd, or of 'Unknown' when it has none: the
    directories of the groups are distinct, no group is empty, and the group
    of a directory holds the sessions of that directory in input order. *)
Theorem untracked_groups_partition (l : list UntrackedSession) :
  let out := groupUntrackedByDirectory l in
  NoDup (map directory out)
  /\ (forall s, In s l ->
        exists g, In g out
                  /\ directory g = (if truthy (cwd s) then default "" (cwd s)
                                    else "Unknown")
                  /\ In s (sessions g))
  /\ (forall g, In g out ->
        sessions g <> []
        /\ sessions g = filter (fun s => dirOf s = directory g) l).
Proof.
  intros out. destruct (byDirectory_inv l) as (Hnd & Hm & Hk).
  set (m := fold_left (fun m session => addToGroups m (dirOf session) session) l [])
    in *.
  assert (Hout : Permutation out (map snd m)) by apply sorted_perm.
  assert (Hdir : map directory (map snd m) = map fst m).
  { rewrite map_map. apply map_ext_in. intros [k g] Hin. simpl.
    apply list_elem_of_In, Hm in Hin. apply Hin. }
  split; [|split].
  - rewrite Hout, Hdir. exact Hnd.
  - intros s Hs. apply list_elem_of_In in Hs.
    pose proof (Hk s Hs) as Hd. apply list_elem_of_fmap in Hd as ([k g] & Ek & Hg).
    simpl in Ek. subst k. destruct (Hm _ g Hg) as [Hdg (_ & Hsg & _)].
    exists g. split; [|split].
    + apply list_elem_of_In. rewrite Hout. apply list_elem_of_fmap.
      exists (dirOf s, g). split; [reflexivity | exact Hg].
    + exact Hdg.
    + apply list_elem_of_In. rewrite Hsg. apply list_elem_of_filter.
      split; [symmetry; exact Hdg | exact Hs].
  - intros g Hg. apply list_elem_of_In, result_groups, Hm in Hg.
    destruct Hg as [_ (Hne & Hs & _)]. split; [exact Hne | exact Hs].
Qed.

(** X18: every group carries the totals of its own sessions:
    [total_minutes] is the sum of their durations, [commit_count] the sum of
    their commit counts; and the groups are returned with the most minutes
    first. *)
Theorem untracked_groups_totals (l : list UntrackedSession) :
  let out := groupUntrackedByDirectory l in
  (forall g, In g out ->
     total_minutes g
     = fold_left (fun total s => (total + TimeCalculator.orZero (duration_minutes s))%Q)
                 (sessions g) 0%Q
     /\ g_commit_count g = list_sum (map commit_count (sessions g)))
  /\ chained heavier_first out
  /\ list_sum (map g_commit_count out) = list_sum (map commit_count l).
Proof.
  intros out. split; [|split].
  - intros g Hg. apply list_elem_of_In, result_groups in Hg.
    destruct (byDirectory_inv l) as (_ & Hm & _).
    destruct (Hm _ g Hg) as [_ (_ & _ & Ht & Hc)]. split; [exact Ht | exact Hc].
  - unfold out, groupUntrackedByDirectory.
    induction (map snd _) as [|g gs IH]; simpl; [exact I|].
    apply insert_group_sorted, IH.
  - destruct (byDirectory_inv l) as (_ & Hm & _).
    unfold out, groupUntrackedByDirectory.
    set (m := fold_left (fun m session => addToGroups m (dirOf session) session) l [])
      in *.
    transitivity (list_sum (map g_commit_count (map snd m))).
    { apply list_sum_perm, Permutation_map, sorted_perm. }
    transitivity (commits_sum (concat (map (fun kg => sessions (snd kg)) m))).
    2:{ apply commits_sum_perm, byDirectory_perm. }
    rewrite commits_sum_concat, !map_map.
    f_equal. apply map_ext_in. intros [k g] Hin. simpl.
    apply list_elem_of_In, Hm in Hin. apply Hin.
Qed.

End QueryFacts.

(* ===================================================================== *)
(** * Further properties of the log parser: line numbers and white space *)
(* ===================================================================== *)
Module ParserFacts.
Import LogParser Spec.

Lemma list_of_append (a b : string) :
  String.list_ascii_of_string (a +:+ b)
  = String.list_ascii_of_string a ++ String.list_ascii_of_string b.
Proof.
  induction a as [|c a IH]; [reflexivity|].
  change (String c a +:+ b) with (String c (a +:+ b)). simpl. rewrite IH. reflexivity.
Qed.

(* white space at the end of the text is trimmed away *)
Lemma trim_list_snoc (l : list ascii) (c : ascii) :
  Regex.is_space c = true ->
  rev (trimStart (rev (trimStart (l ++ [c])))) = rev (trimStart (rev (trimStart l))).
Proof.
  intros Hc. induction l as [|a l IH].
  - simpl. rewrite Hc. reflexivity.
  - change ((a :: l) ++ [c]) with (a :: (l ++ [c])). cbn [trimStart].
    destruct (Regex.is_space a); [exact IH|].
    change (a :: (l ++ [c])) with ((a :: l) ++ [c]).
    rewrite rev_unit. cbn [trimStart]. rewrite Hc. reflexivity.
Qed.

Section Lines.

Variable JSON_parse : string -> json + string.

(* an error record carries the number of its line *)
Lemma parseLine_line (i : nat) (text : string) (err : ParseError) :
  parseLine JSON_parse i text = inr err -> line err = i + 1.
Proof.
  unfold parseLine. destruct (JSON_parse text) as [v|msg]; [|intros [= <-]; reflexivity].
  destruct v; try (intros [= <-]; reflexivity);
    destruct (negb _ || negb _); (discriminate || (intros [= <-]; reflexivity)).
Qed.

Lemma reports_more (done : list string) (text : string) (err : ParseError) :
  reports JSON_parse done err -> reports JSON_parse (done ++ [text]) err.
Proof.
  intros [Hl (t & Ht & Hp)]. split.
  - rewrite length_app. simpl. lia.
  - exists t. split; [|exact Hp]. apply lookup_app_l_Some, Ht.
Qed.

Lemma parseLines_errors (lines done : list string)
    (entries : list RawEntry) (errors : list ParseError) :
  errors_inv JSON_parse done errors ->
  errors_inv JSON_parse (done ++ lines)
    (snd (parseLines JSON_parse (List.length done) lines entries errors)).
Proof.
  revert done entries errors.
  induction lines as [|text lines IH]; intros done entries errors Hinv; simpl.
  - rewrite app_nil_r. exact Hinv.
  - assert (Hlen : S (List.length done) = List.length (done ++ [text]))
      by (rewrite length_app; simpl; lia).
    change (text :: lines) with ([text] ++ lines). rewrite app_assoc.
    destruct Hinv as [Hch Hall].
    assert (Hall' : Forall (reports JSON_parse (done ++ [text])) errors).
    { eapply Forall_impl; [exact Hall|]. intros err. apply reports_more. }
    destruct (parseLine JSON_parse (List.length done) text) as [e|err] eqn:E;
      rewrite Hlen; apply IH.
    + split; assumption.
    + pose proof (parseLine_line _ _ _ E) as Hn. split.
      * apply TimeCalculatorFacts.chained_snoc. split; [exact Hch|].
        intros y Hy. unfold numbered_after. rewrite Hn.
        apply last_Some in Hy as [l' ->].
        apply Forall_app in Hall as [_ Hy]. inversion Hy as [|? ? [Hy' _] _]; subst.
        lia.
      * apply Forall_app. split; [exact Hall'|]. constructor; [|constructor].
        split; [rewrite Hn, length_app; simpl; lia|].
        exists text. rewrite Hn. replace (List.length done + 1 - 1) with (List.length done)
          by lia.
        split; [|exact E].
        rewrite lookup_app_r by lia. rewrite Nat.sub_diag. reflexivity.
Qed.

Lemma parseLines_count (lines : list string) (i : nat)
    (entries : list RawEntry) (errors : list ParseError) :
  List.length (fst (parseLines JSON_parse i lines entries errors))
  + List.length (snd (parseLines JSON_parse i lines entries errors))
  = List.length entries + List.length errors + List.length lines.
Proof.
  revert i entries errors. induction lines as [|text lines IH];
    intros i entries errors; simpl; [lia|].
  destruct (parseLine JSON_parse i text); rewrite IH, length_app; simpl; lia.
Qed.

(** X19: [parseLogFile] numbers its error records by the position of the
    line among the non-blank lines of the file, starting at 1, not by the
    line of the file: every line that is left after the blank ones are
    dropped yields one entry or one error, the errors come in the order of
    their lines, and the record with number n is the one the n-th non-blank
    line produces. *)
Theorem errors_count_non_blank_lines (filePath content : string) :
  exists entries errors,
    parseLogFile JSON_parse filePath (Some content) = inl (entries, errors)
    /\ List.length entries + List.length errors = List.length (nonBlankLines content)
    /\ Forall (fun text => trim text <> "") (nonBlankLines content)
    /\ chained numbered_after errors
    /\ (forall err, In err errors ->
          (1 <= line err <= List.length (nonBlankLines content))%nat
          /\ exists text,
               nonBlankLines content !! (line err - 1)%nat = Some text
               /\ parseLine JSON_parse (line err - 1) text = inr err).
Proof.
  unfold parseLogFile.
  destruct (parseLines JSON_parse 0 (nonBlankLines content) [] []) as [entries errors]
    eqn:E.
  exists entries, errors. split; [reflexivity|].
  pose proof (parseLines_count (nonBlankLines content) 0 [] []) as Hc.
  pose proof (parseLines_errors (nonBlankLines content) [] [] []
                (conj I (Forall_nil_2 _))) as [Hch Hall].
  simpl in Hc, Hch, Hall. rewrite E in Hc, Hch, Hall. simpl in Hc, Hch, Hall.
  split; [exact Hc|]. split.
  - unfold nonBlankLines. apply Forall_forall. intros x Hx.
    apply list_elem_of_filter in Hx. apply Hx.
  - split; [exact Hch|]. intros err Hin.
    rewrite Forall_forall in Hall. apply (Hall err), list_elem_of_In, Hin.
Qed.

(** X20: white space around the content of the file does not count: a
    file read with one more white-space character (a final newline, say) at
    its end or at its start gives the same entries and the same errors, with
    the same line numbers. *)
Theorem surrounding_space_is_ignored (filePath content : string) (c : ascii) :
  Regex.is_space c = true ->
  parseLogFile JSON_parse filePath (Some (content +:+ String c EmptyString))
  = parseLogFile JSON_parse filePath (Some content)
  /\ parseLogFile JSON_parse filePath (Some (String c content))
     = parseLogFile JSON_parse filePath (Some content).
Proof.
  intros Hc.
  assert (Ht : trim (content +:+ String c EmptyString) = trim content).
  { unfold trim. rewrite list_of_append. simpl. rewrite trim_list_snoc by exact Hc.
    reflexivity. }
  assert (Hs : trim (String c content) = trim content).
  { unfold trim. simpl. rewrite Hc. reflexivity. }
  unfold parseLogFile, nonBlankLines. rewrite Ht, Hs. split; reflexivity.
Qed.

End Lines.

Lemma surrounding_space_is_ignored_witness :
  Regex.is_space "010" = true
  /\ parseLogFile SampleJSON.JSON_parse "f.jsonl"
       (Some (line_valid +:+ String "010" EmptyString))
     = parseLogFile SampleJSON.JSON_parse "f.jsonl" (Some line_valid).
Proof.
  split; [reflexivity|].
  exact (proj1 (surrounding_space_is_ignored SampleJSON.JSON_parse "f.jsonl"
                  line_valid "010" eq_refl)).
Defined.

End ParserFacts.

(* ===================================================================== *)
(** * Properties of [getCommits]: from the lines of git to commit records *)
(* ===================================================================== *)
Module GitCommitsFacts.
Import GitCommits Spec.

Lemma split_on_part (sep : ascii) (h rest cur : list ascii) :
  Forall (fun c => c <> sep) h ->
  split_on sep (h ++ sep :: rest) cur
  = String.string_of_list_ascii (rev cur ++ h) :: split_on sep rest [].
Proof.
  intros H. revert cur. induction H as [|c h Hc _ IH]; intros cur; simpl.
  - rewrite Ascii.eqb_refl, app_nil_r. reflexivity.
  - apply Ascii.eqb_neq in Hc. rewrite Hc, IH. simpl. rewrite <- app_assoc. reflexivity.
Qed.

Lemma split_on_last (sep : ascii) (h cur : list ascii) :
  Forall (fun c => c <> sep) h ->
  split_on sep h cur = [String.string_of_list_ascii (rev cur ++ h)].
Proof.
  intros H. revert cur. induction H as [|c h Hc _ IH]; intros cur; simpl.
  - rewrite app_nil_r. reflexivity.
  - apply Ascii.eqb_neq in Hc. rewrite Hc, IH. simpl. rewrite <- app_assoc. reflexivity.
Qed.

(* the first part ends at the first separator *)
Lemma split_on_first (s cur : list ascii) :
  head (split_on "|" s cur) = Some (String.string_of_list_ascii (rev cur ++ until_bar s)).
Proof.
  revert cur. induction s as [|c s IH]; intros cur; simpl.
  - rewrite app_nil_r. reflexivity.
  - destruct (Ascii.eqb c "|"); simpl.
    + rewrite app_nil_r. reflexivity.
    + rewrite IH. simpl. rewrite <- app_assoc. reflexivity.
Qed.

Lemma until_bar_free (s : list ascii) :
  Forall (fun c => c <> "|"%char) s <-> until_bar s = s.
Proof.
  induction s as [|c s IH]; simpl.
  - split; [reflexivity | constructor].
  - destruct (Ascii.eqb_spec c "|") as [->|Hne].
    + split; [|discriminate]. intros H. inversion H; subst. congruence.
    + rewrite Forall_cons, IH. split; [intros [_ ->]; reflexivity|].
      intros [= E]. split; assumption.
Qed.

Section Git.

Variable isGitRepo : string -> bool.
Variable execSync : string -> Z -> Z -> option string.
Variable parseInt : string -> option Z.

(** X21: a line [hash|time|name|subject] of git becomes the record with
    these fields, the time read by [parseInt]; but the subject is cut at its
    first bar, so the message is the subject only when the subject has no
    bar. *)
Theorem commit_line_fields (repoPath hash time name subject : string) :
  free_of "|" hash -> free_of "|" time -> free_of "|" name ->
  parseCommit parseInt repoPath (printed hash time name subject)
  = {| commit_hash := hash;
       timestamp := parseInt time;
       author := Some name;
       message :=
         Some (String.string_of_list_ascii
                 (until_bar (String.list_ascii_of_string subject)));
       repo_path := repoPath |}
  /\ (message (parseCommit parseInt repoPath (printed hash time name subject))
      = Some subject
      <-> free_of "|" subject).
Proof.
  intros Hh Ht Hn.
  assert (E : parseCommit parseInt repoPath (printed hash time name subject)
    = {| commit_hash := hash;
         timestamp := parseInt time;
         author := Some name;
         message :=
           Some (String.string_of_list_ascii
                   (until_bar (String.list_ascii_of_string subject)));
         repo_path := repoPath |}).
  { unfold parseCommit, printed.
    rewrite !ParserFacts.list_of_append.
    change (String.list_ascii_of_string "|") with ["|"%char].
    cbn [app].
    rewrite (split_on_part "|" _ _ [] Hh), (split_on_part "|" _ _ [] Ht),
      (split_on_part "|" _ _ [] Hn).
    cbn [rev app lookup list_lookup default mbind option_bind].
    pose proof (split_on_first (String.list_ascii_of_string subject) []) as Hf.
    destruct (split_on "|" (String.list_ascii_of_string subject) []) as [|m ms];
      [discriminate Hf|].
    injection Hf as ->.
    rewrite !String.string_of_list_ascii_of_string. reflexivity. }
  split; [exact E|]. rewrite E. cbn [message]. unfold free_of.
  rewrite until_bar_free. split.
  - intros [= H]. rewrite <- H at 2.
    rewrite String.list_ascii_of_string_of_list_ascii. reflexivity.
  - intros ->. rewrite String.string_of_list_ascii_of_string. reflexivity.
Qed.

(* text without white space at its ends is what [trim] returns *)
Lemma trim_fixed (l : list ascii) :
  (exists c, head l = Some c /\ Regex.is_space c = false) ->
  (exists c, last l = Some c /\ Regex.is_space c = false) ->
  rev (LogParser.trimStart (rev (LogParser.trimStart l))) = l.
Proof.
  intros (c & Hc & Hs) (d & Hd & Hds).
  destruct l as [|c' l']; [discriminate Hc|]. injection Hc as ->.
  cbn [LogParser.trimStart]. rewrite Hs.
  apply last_Some in Hd as [l'' E]. rewrite E, rev_unit.
  cbn [LogParser.trimStart]. rewrite Hds.
  change (d :: rev l'') with (rev [d] ++ rev l''). rewrite <- rev_app_distr.
  apply rev_involutive.
Qed.

Lemma join_lines_cons (l : string) (rest : list string) :
  rest <> [] ->
  join_lines (l :: rest)
  = String.list_ascii_of_string l ++ "010"%char :: join_lines rest.
Proof. destruct rest; [congruence | reflexivity]. Qed.

Lemma join_lines_head (lines : list string) :
  lines <> [] -> Forall printable_line lines ->
  exists c, head (join_lines lines) = Some c /\ Regex.is_space c = false.
Proof.
  intros Hne H. destruct H as [|l rest (_ & (c & Hc & Hs) & _) _]; [congruence|].
  exists c. split; [|exact Hs].
  destruct rest as [|l2 rest]; [exact Hc|].
  rewrite join_lines_cons by discriminate.
  destruct (String.list_ascii_of_string l); [discriminate Hc | exact Hc].
Qed.

Lemma join_lines_last (lines : list string) :
  lines <> [] -> Forall printable_line lines ->
  exists c, last (join_lines lines) = Some c /\ Regex.is_space c = false.
Proof.
  intros Hne H. induction H as [|l rest (_ & _ & (c & Hc & Hs)) Hrest IH]; [congruence|].
  destruct rest as [|l2 rest]; [exists c; split; [exact Hc | exact Hs]|].
  destruct IH as (d & Hd & Hds); [discriminate|].
  exists d. split; [|exact Hds]. rewrite join_lines_cons by discriminate.
  apply last_Some in Hd as [x ->]. apply last_Some.
  exists (String.list_ascii_of_string l ++ "010"%char :: x).
  rewrite <- app_assoc. reflexivity.
Qed.

Lemma split_join (lines : list string) :
  lines <> [] -> Forall (free_of "010") lines ->
  split_on "010" (join_lines lines) [] = lines.
Proof.
  intros Hne H. induction H as [|l rest Hl Hrest IH]; [congruence|].
  destruct rest as [|l2 rest].
  - simpl. rewrite (split_on_last "010" _ [] Hl). simpl.
    rewrite String.string_of_list_ascii_of_string. reflexivity.
  - rewrite join_lines_cons by discriminate.
    rewrite (split_on_part "010" _ _ [] Hl), IH by discriminate. simpl.
    rewrite String.string_of_list_ascii_of_string. reflexivity.
Qed.

(* the output of git, trimmed *)
Lemma trim_git_output (lines : list string) :
  lines <> [] -> Forall printable_line lines ->
  LogParser.trim (git_output lines) = String.string_of_list_ascii (join_lines lines).
Proof.
  intros Hne H. unfold LogParser.trim, git_output.
  rewrite String.list_ascii_of_string_of_list_ascii.
  rewrite ParserFacts.trim_list_snoc by reflexivity.
  rewrite trim_fixed; [reflexivity | apply join_lines_head | apply join_lines_last];
    assumption.
Qed.

(** X22: [getCommits] returns one record for every line git prints, in
    the order of git, each built from its line alone; and it returns no
    commit for a directory that is not a repository, when git fails, and
    when git prints nothing but white space. *)
Theorem commits_of_the_log (repoPath : string) (startTime endTime : Z) :
  (forall lines,
      isGitRepo repoPath = true ->
      execSync repoPath startTime endTime = Some (git_output lines) ->
      lines <> [] ->
      Forall printable_line lines ->
      getCommits isGitRepo execSync parseInt repoPath startTime endTime
      = map (parseCommit parseInt repoPath) lines)
  /\ (isGitRepo repoPath = false
      \/ execSync repoPath startTime endTime = None
      \/ (exists output,
             execSync repoPath startTime endTime = Some output
             /\ LogParser.trim output = "") ->
      getCommits isGitRepo execSync parseInt repoPath startTime endTime = []).
Proof.
  split.
  - intros lines Hr He Hne Hl. unfold getCommits. rewrite Hr, He. cbn [negb].
    rewrite (trim_git_output lines Hne Hl).
    rewrite String.list_ascii_of_string_of_list_ascii.
    destruct (join_lines_head lines Hne Hl) as (c & Hc & _).
    destruct (join_lines lines) as [|c' body] eqn:Ej; [discriminate Hc|].
    cbn [String.string_of_list_ascii String.eqb]. rewrite <- Ej.
    rewrite split_join; [reflexivity | exact Hne|].
    eapply Forall_impl; [exact Hl|]. intros l Hp. apply Hp.
  - unfold getCommits. intros [H|[H|(output & H & Ht)]].
    + rewrite H. reflexivity.
    + rewrite H. destruct (negb _); reflexivity.
    + rewrite H, Ht. destruct (negb _); reflexivity.
Qed.

End Git.

Lemma commit_line_fields_witness :
  parseCommit (fun _ => Some 1700000060%Z) "/w" (printed "decaf0" "1700000060" "Bob" "a|b")
  = {| commit_hash := "decaf0"; timestamp := Some 1700000060%Z;
       author := Some "Bob"; message := Some "a"; repo_path := "/w" |}.
Proof.
  refine (proj1 (commit_line_fields (fun _ => Some 1700000060%Z) "/w"
                   "decaf0" "1700000060" "Bob" "a|b" _ _ _));
    unfold free_of; simpl; repeat constructor; discriminate.
Defined.

Lemma commits_of_the_log_witness :
  getCommits (fun _ => true) (fun _ _ _ => Some (git_output two_lines))
    (fun _ => Some 0%Z) "/w" 0 60
  = map (parseCommit (fun _ => Some 0%Z) "/w") two_lines.
Proof.
  refine (proj1 (commits_of_the_log (fun _ => true)
                   (fun _ _ _ => Some (git_output two_lines)) (fun _ => Some 0%Z)
                   "/w" 0 60) two_lines eq_refl eq_refl _ _).
  - discriminate.
  - repeat constructor; unfold free_of; simpl;
      try (repeat constructor; discriminate);
      eexists; (split; [reflexivity | reflexivity]).
Defined.

End GitCommitsFacts.


